(** * Digital twin for SDN networks: topology simulation engine

    A shallow embedding of [scripts/saved_network_visualize_topology.py]:
    the snapshot store, the link canonicalizer, the host attachment
    mapper and the replay engine (link up / link down / pingall) over
    the working graph, followed by the properties of the design
    document that are settled against that code. *)

From stdpp Require Import gmap strings list sorting pretty.
From Stdlib Require Import Ascii QArith Qcanon.

Local Set Warnings "-clear-no-such-hyp".

Local Open Scope string_scope.
Local Open Scope list_scope.
Local Open Scope Z_scope.

(** ** Python values, exceptions and the result monad *)

Module Py.

(** The exception classes the modelled code can meet.  All of them are
    subclasses of Python's [Exception]. *)
Inductive exn : Set :=
  | KeyError
  | TypeError
  | IndexError
  | ValueError
  | FileNotFoundError
  | JSONDecodeError.

Inductive res (A : Type) : Type :=
  | Ok (a : A)
  | Raise (e : exn).
Global Arguments Ok {A} a.
Global Arguments Raise {A} e.

Global Instance res_ret : MRet res := λ A a, Ok a.
Global Instance res_bind : MBind res := λ A B k m,
  match m with
  | Ok a => k a
  | Raise e => Raise e
  end.
Global Instance res_fmap : FMap res := λ A B f m,
  match m with
  | Ok a => Ok (f a)
  | Raise e => Raise e
  end.

(** [try: body except E: handler], for a handler that catches the
    exception classes selected by [catches]. *)
Definition try_except {A} (body : res A) (catches : exn → bool)
    (handler : exn → res A) : res A :=
  match body with
  | Ok a => Ok a
  | Raise e => if catches e then handler e else Raise e
  end.

Global Instance exn_eq_dec : EqDecision exn.
Proof. solve_decision. Defined.

(** [except ValueError] *)
Definition is_ValueError (e : exn) : bool := bool_decide (e = ValueError).

(** [except Exception]: every class above derives from [Exception]
    ([JSONDecodeError] through [ValueError], [FileNotFoundError]
    through [OSError], [KeyError] and [IndexError] through
    [LookupError]). *)
Definition is_Exception (e : exn) : bool :=
  match e with
  | KeyError | TypeError | IndexError | ValueError
  | FileNotFoundError | JSONDecodeError => true
  end.

(** The Python objects that flow through the program: what the REST
    service's JSON decodes to, plus the tuples built by the link
    canonicalizer.  Dictionaries are JSON objects and record literals,
    so their keys are strings. *)
#[warnings="-register-all"]
Inductive pyval : Type :=
  | PNone
  | PInt (z : Z)
  | PStr (s : string)
  | PList (items : list pyval)
  | PTuple (items : list pyval)
  | PDict (kvs : list (string * pyval)).

(** [hash(v)] succeeds on [None], integers, strings and tuples of
    hashable objects; lists and dictionaries are unhashable. *)
Fixpoint hashable (v : pyval) : bool :=
  match v with
  | PNone | PInt _ | PStr _ => true
  | PTuple l => forallb hashable l
  | PList _ | PDict _ => false
  end.

(** [d[k]] on a dictionary: the first binding of the key. *)
Fixpoint dict_lookup (k : string) (kvs : list (string * pyval)) : option pyval :=
  match kvs with
  | [] => None
  | (k', v) :: kvs' => if decide (k = k') then Some v else dict_lookup k kvs'
  end.

(** [l[i]] on a list or tuple; a negative index counts from the end. *)
Definition seq_index (i : Z) (items : list pyval) : res pyval :=
  let n := Z.of_nat (length items) in
  let j := if decide (i < 0) then i + n else i in
  if decide (0 ≤ j < n) then
    match items !! Z.to_nat j with
    | Some v => Ok v
    | None => Raise IndexError
    end
  else Raise IndexError.

(** The subscript operator [obj[key]].
    - a dictionary looks the key up and raises [KeyError] when absent
      ([TypeError] when the key is unhashable);
    - a list or a tuple takes integer indices only: a string key raises
      [TypeError] ("indices must be integers or slices, not str");
    - a string subscripted by a string raises [TypeError] too;
    - [None] and integers are not subscriptable. *)
Definition getitem (obj key : pyval) : res pyval :=
  match obj with
  | PDict kvs =>
      match key with
      | PStr k => match dict_lookup k kvs with
                  | Some v => Ok v
                  | None => Raise KeyError
                  end
      | _ => if hashable key then Raise KeyError else Raise TypeError
      end
  | PList items | PTuple items =>
      match key with
      | PInt i => seq_index i items
      | _ => Raise TypeError
      end
  | PStr s =>
      match key with
      | PInt i =>
          let n := Z.of_nat (String.length s) in
          let j := if decide (i < 0) then i + n else i in
          if decide (0 ≤ j < n) then
            match String.get (Z.to_nat j) s with
            | Some c => Ok (PStr (String c EmptyString))
            | None => Raise IndexError
            end
          else Raise IndexError
      | _ => Raise TypeError
      end
  | PNone | PInt _ => Raise TypeError
  end.

(** Truth value of an object, as [not x] and [if x] see it. *)
Definition truthy (v : pyval) : bool :=
  match v with
  | PNone => false
  | PInt z => negb (z =? 0)
  | PStr s => negb (bool_decide (s = ""))
  | PList l | PTuple l => negb (bool_decide (l = []))
  | PDict kvs => negb (bool_decide (kvs = []))
  end.

(** *** [int(s)] on a string *)

(** The whitespace [int] strips: space, TAB, LF, VT, FF, CR and the
    separators 0x1c-0x1f. *)
Definition is_space (c : ascii) : bool :=
  let n := nat_of_ascii c in
  (n =? 32)%nat || ((9 <=? n)%nat && (n <=? 13)%nat)
  || ((28 <=? n)%nat && (n <=? 31)%nat).

Definition digit_of (c : ascii) : option Z :=
  let n := nat_of_ascii c in
  if ((48 <=? n)%nat && (n <=? 57)%nat)%bool
  then Some (Z.of_nat n - 48) else None.

Fixpoint lstrip (l : list ascii) : list ascii :=
  match l with
  | c :: l' => if is_space c then lstrip l' else l
  | [] => []
  end.

Definition strip (l : list ascii) : list ascii :=
  rev (lstrip (rev (lstrip l))).

(** Decimal digits, where one underscore may sit between two digits.
    [prev] tells whether the previous character was a digit. *)
Fixpoint digits (acc : Z) (prev : bool) (l : list ascii) : option Z :=
  match l with
  | [] => if prev then Some acc else None
  | c :: l' =>
      match digit_of c with
      | Some d => digits (10 * acc + d) true l'
      | None =>
          if (bool_decide (c = "_"%char) && prev)%bool
          then digits acc false l' else None
      end
  end.

Definition string_to_list (s : string) : list ascii := String.list_ascii_of_string s.

(** [int(s)]: optional surrounding whitespace, an optional sign, then
    decimal digits; anything else raises [ValueError].  Strings are
    byte strings here: the decimal digits and spaces of other scripts,
    which [int] also accepts, are outside the model. *)
Definition int_of_str (s : string) : res Z :=
  let body := strip (string_to_list s) in
  let parsed :=
    match body with
    | c :: rest =>
        if bool_decide (c = "-"%char) then Z.opp <$> digits 0 false rest
        else if bool_decide (c = "+"%char) then digits 0 false rest
        else digits 0 false body
    | [] => None
    end in
  match parsed with
  | Some z => Ok z
  | None => Raise ValueError
  end.

(** [int(v)] on an object: an integer is returned as it is, a string is
    parsed, anything else raises [TypeError]. *)
Definition int_of (v : pyval) : res Z :=
  match v with
  | PInt z => Ok z
  | PStr s => int_of_str s
  | _ => Raise TypeError
  end.

(** [s.startswith("h")] *)
Definition startswith_h (s : string) : bool :=
  match s with
  | String c _ => bool_decide (c = "h"%char)
  | EmptyString => false
  end.

(** *** What a JSON round trip does to an object

    [json.dump] writes tuples and lists alike as JSON arrays and
    [json.load] reads every array back as a list; [None] is [null];
    integers, strings and string-keyed objects come back as they
    were. *)
Fixpoint json_image (v : pyval) : pyval :=
  match v with
  | PNone => PNone
  | PInt z => PInt z
  | PStr s => PStr s
  | PList l => PList (map json_image l)
  | PTuple l => PList (map json_image l)
  | PDict kvs => PDict (map (λ kv, match kv with (k, x) => (k, json_image x) end) kvs)
  end.

(** The items of a sequence, be it a list or a tuple. *)
Definition as_seq (v : pyval) : option (list pyval) :=
  match v with
  | PList l | PTuple l => Some l
  | _ => None
  end.

(** Structural equality: the same tree of values, where a tuple and a
    list with structurally equal items count as the same sequence. *)
#[warnings="-register-all"]
Inductive struct_eq : pyval → pyval → Prop :=
  | se_none : struct_eq PNone PNone
  | se_int z : struct_eq (PInt z) (PInt z)
  | se_str s : struct_eq (PStr s) (PStr s)
  | se_seq a b la lb :
      as_seq a = Some la → as_seq b = Some lb →
      Forall2 struct_eq la lb → struct_eq a b
  | se_dict kvs1 kvs2 :
      Forall2 (λ x y, x.1 = y.1 ∧ struct_eq x.2 y.2) kvs1 kvs2 →
      struct_eq (PDict kvs1) (PDict kvs2).

(** No tuple anywhere inside. *)
Fixpoint tuple_free (v : pyval) : bool :=
  match v with
  | PNone | PInt _ | PStr _ => true
  | PList l => forallb tuple_free l
  | PTuple _ => false
  | PDict kvs => forallb (λ kv, match kv with (_, x) => tuple_free x end) kvs
  end.

End Py.
Import Py.

(** ** Graph nodes and operator-visible messages *)

(** A node id as the graph holds it: an [int] (a switch) or a [str]
    (a host name). *)
Inductive node : Type :=
  | NInt (z : Z)
  | NStr (s : string).

Inductive output : Type :=
  | SnapshotSaved                      (* "Snapshot saved to ..." *)
  | ErrorLoadingSnapshot (e : exn)     (* "Error loading snapshot: ..." *)
  | NoValidSnapshot                    (* "No valid snapshot found. Please take a snapshot first." *)
  | LinkRemoved (src dst : node)       (* "Link removed: src <-> dst" *)
  | LinkDoesNotExist                   (* "Link does not exist in the current topology." *)
  | InvalidInput                       (* "Invalid input. Switch IDs must be integers, ..." *)
  | LinkAdded (src dst : node)         (* "Link added: src <-> dst" *)
  | NotConnected (src_type : string) (src : node) (dst_type : string) (dst : node).
                                       (* "src and dst not connected in original topology: ..." *)

(** ** Snapshot store *)

(** The snapshot file, seen through [json.load]: it is absent, or its
    text is not a JSON document, or it holds the document that decodes
    to [doc].  The text itself (indentation, escapes) is the business
    of the [json] library: a file written by [json.dump] is identified
    with the document that [json.load] reads from it. *)
Inductive file : Type :=
  | NoFile
  | Malformed
  | Document (doc : pyval).

(** [json.dump(v, f)] on a freshly truncated file. *)
Definition json_dump (v : pyval) : file := Document (json_image v).

(** [open(SNAPSHOT_FILE, "r")] followed by [json.load(f)]. *)
Definition json_load (f : file) : res pyval :=
  match f with
  | NoFile => Raise FileNotFoundError
  | Malformed => Raise JSONDecodeError
  | Document doc => Ok doc
  end.

Definition save_snapshot (switches links host_links : pyval) (f : file)
    : file * list output :=
  let snapshot := PDict [("switches", switches);
                         ("links", links);
                         ("host_links", host_links)] in
  (json_dump snapshot, [SnapshotSaved]).

Definition load_snapshot (f : file) : res (pyval * pyval * pyval) * list output :=
  let body :=
    snapshot ← json_load f;
    switches ← getitem snapshot (PStr "switches");
    links ← getitem snapshot (PStr "links");
    host_links ← getitem snapshot (PStr "host_links");
    mret (switches, links, host_links) in
  match body with
  | Ok r => (Ok r, [])
  | Raise e =>
      if is_Exception e
      then (Ok (PList [], PList [], PList []), [ErrorLoadingSnapshot e])
      else (Raise e, [])
  end.

(** The caller's test after [load_snapshot] (replay entry): an empty
    [switches] means that no snapshot is available. *)
Definition replay_entry (f : file) : res (option (pyval * pyval * pyval)) * list output :=
  match load_snapshot f with
  | (Ok (switches, links, host_links), out) =>
      if negb (truthy switches)
      then (Ok None, out ++ [NoValidSnapshot])
      else (Ok (Some (switches, links, host_links)), out)
  | (Raise e, out) => (Raise e, out)
  end.

(** ** Python objects as dictionary keys and set members *)

Fixpoint pyval_encode (v : pyval) : gen_tree (Z + string) :=
  match v with
  | PNone => GenNode 0 []
  | PInt z => GenLeaf (inl z)
  | PStr s => GenLeaf (inr s)
  | PList l => GenNode 1 (map pyval_encode l)
  | PTuple l => GenNode 2 (map pyval_encode l)
  | PDict kvs =>
      GenNode 3 (map (λ kv, match kv with
                            | (k, x) => GenNode 4 [GenLeaf (inr k); pyval_encode x]
                            end) kvs)
  end.

Fixpoint pyval_decode (t : gen_tree (Z + string)) : pyval :=
  match t with
  | GenLeaf (inl z) => PInt z
  | GenLeaf (inr s) => PStr s
  | GenNode 1 ts => PList (map pyval_decode ts)
  | GenNode 2 ts => PTuple (map pyval_decode ts)
  | GenNode 3 ts =>
      PDict (map (λ t, match t with
                       | GenNode _ [GenLeaf (inr k); t'] => (k, pyval_decode t')
                       | _ => ("", PNone)
                       end) ts)
  | GenNode _ _ => PNone
  end.

(** Induction over Python objects, through the nested lists. *)
Section pyval_induction.
Variable P : pyval → Prop.
Hypothesis Hnone : P PNone.
Hypothesis Hint : ∀ z, P (PInt z).
Hypothesis Hstr : ∀ s, P (PStr s).
Hypothesis Hlist : ∀ l, Forall P l → P (PList l).
Hypothesis Htuple : ∀ l, Forall P l → P (PTuple l).
Hypothesis Hdict : ∀ kvs, Forall (λ kv, P kv.2) kvs → P (PDict kvs).

Fixpoint pyval_nested_ind (v : pyval) : P v :=
  match v with
  | PNone => Hnone
  | PInt z => Hint z
  | PStr s => Hstr s
  | PList l =>
      Hlist l ((fix go (l : list pyval) : Forall P l :=
                  match l with
                  | [] => Forall_nil_2 P
                  | x :: l' => Forall_cons_2 P x l' (pyval_nested_ind x) (go l')
                  end) l)
  | PTuple l =>
      Htuple l ((fix go (l : list pyval) : Forall P l :=
                   match l with
                   | [] => Forall_nil_2 P
                   | x :: l' => Forall_cons_2 P x l' (pyval_nested_ind x) (go l')
                   end) l)
  | PDict kvs =>
      Hdict kvs ((fix go (kvs : list (string * pyval)) : Forall (λ kv, P kv.2) kvs :=
                    match kvs with
                    | [] => Forall_nil_2 _
                    | (k, x) :: kvs' =>
                        Forall_cons_2 (λ kv, P kv.2) (k, x) kvs' (pyval_nested_ind x) (go kvs')
                    end) kvs)
  end.
End pyval_induction.

Lemma pyval_decode_encode v : pyval_decode (pyval_encode v) = v.
Proof.
  induction v as [| | |l IH|l IH|kvs IH] using pyval_nested_ind; simpl; try done.
  - f_equal. induction IH as [|x l' Hx _ IHl]; simpl; [done|]. by rewrite Hx, IHl.
  - f_equal. induction IH as [|x l' Hx _ IHl]; simpl; [done|]. by rewrite Hx, IHl.
  - f_equal. induction IH as [|[k x] l' Hx _ IHl]; simpl in *; [done|].
    by rewrite Hx, IHl.
Qed.

Global Instance pyval_eq_dec : EqDecision pyval.
Proof.
  intros a b. destruct (decide (pyval_encode a = pyval_encode b)) as [E|E].
  - left. rewrite <-(pyval_decode_encode a), <-(pyval_decode_encode b). by f_equal.
  - right. intros ->. by apply E.
Defined.

Global Instance pyval_countable : Countable pyval :=
  inj_countable' pyval_encode pyval_decode pyval_decode_encode.

(** ** Sorting, as [sorted] does it

    [sorted] is stable: an element stays behind the earlier elements it
    does not compare below.  [lt y x] is Python's [y < x]. *)

Fixpoint insert_sorted {A} (lt : A → A → bool) (x : A) (l : list A) : list A :=
  match l with
  | [] => [x]
  | y :: l' => if lt y x then y :: insert_sorted lt x l' else x :: y :: l'
  end.

Definition py_sorted {A} (lt : A → A → bool) (l : list A) : list A :=
  foldr (insert_sorted lt) [] l.

(** [<] on tuples of two integers: lexicographic. *)
Definition tuple_lt (a b : Z * Z) : bool :=
  (a.1 <? b.1) || ((a.1 =? b.1) && (a.2 <? b.2)).

(** [sorted(l, key=f)] compares the keys only. *)
Definition py_sorted_by_key {A} (keyed : list ((Z * Z) * A)) : list A :=
  snd <$> py_sorted (λ a b, tuple_lt a.1 b.1) keyed.

(** A loop [for x in l: ...] whose body updates a state and may raise. *)
Fixpoint for_each {A S} (body : S → A → res S) (s : S) (l : list A) : res S :=
  match l with
  | [] => Ok s
  | x :: l' => s' ← body s x; for_each body s' l'
  end.

(** ** Link canonicalizer *)

(** One end of a link as the topology service reports it. *)
Record PortRef : Type := { dpid : Z; port_no : Z }.

(** A raw link: [{"src": {"dpid", "port_no"}, "dst": {"dpid", "port_no"}}]. *)
Record RawLink : Type := { src : PortRef; dst : PortRef }.

(** A canonical link: the tuple [((dpid, port), (dpid, port))]. *)
Definition CanonLink : Type := (Z * Z) * (Z * Z).

(** [tuple(sorted((src, dst)))]: the second goes first only when it
    compares strictly below the first. *)
Definition sorted_pair (a b : Z * Z) : CanonLink :=
  if tuple_lt b a then (b, a) else (a, b).

Definition canonical (link : RawLink) : CanonLink :=
  let s := (dpid (src link), port_no (src link)) in
  let d := (dpid (dst link), port_no (dst link)) in
  sorted_pair s d.

(** The set [unique_links] after the loop. *)
Definition unique_links (links : list RawLink) : gset CanonLink :=
  foldl (λ acc link, acc ∪ {[ canonical link ]}) ∅ links.

(** [list(unique_links)]: the members of the set, each once, in the
    set's own iteration order (here: one fixed order per set). *)
Definition deduplicate_links (links : list RawLink) : list CanonLink :=
  elements (unique_links links).

(** The same link with its endpoints reported the other way round. *)
Definition reverse_link (link : RawLink) : RawLink :=
  {| src := dst link; dst := src link |}.

(** Reverse the links selected by a mask. *)
Fixpoint reverse_where (mask : list bool) (links : list RawLink) {struct links}
    : list RawLink :=
  match links with
  | [] => []
  | link :: links' =>
      match mask with
      | true :: mask' => reverse_link link :: reverse_where mask' links'
      | false :: mask' => link :: reverse_where mask' links'
      | [] => links
      end
  end.

(** The Python objects behind the typed links. *)
Definition py_of_port_ref (p : PortRef) : pyval :=
  PDict [("dpid", PInt (dpid p)); ("port_no", PInt (port_no p))].

Definition py_of_raw_link (link : RawLink) : pyval :=
  PDict [("src", py_of_port_ref (src link)); ("dst", py_of_port_ref (dst link))].

Definition py_of_canon_link (link : CanonLink) : pyval :=
  PTuple [PTuple [PInt link.1.1; PInt link.1.2];
          PTuple [PInt link.2.1; PInt link.2.2]].

(** ** Host attachment mapper *)

(** A host-to-switch record.  The records built by the mapper carry the
    host's MAC; the records rebuilt by [add_link] have no ["host_mac"]
    key. *)
Record HostLink : Type := {
  host_name : string;
  host_mac : option pyval;
  switch_dpid : Z;
  hl_port_no : Z;
}.

Definition py_of_host_link (hl : HostLink) : pyval :=
  PDict (("host_name", PStr (host_name hl)) ::
         match host_mac hl with
         | Some mac => [("host_mac", mac)]
         | None => []
         end ++
         [("switch_dpid", PInt (switch_dpid hl));
          ("port_no", PInt (hl_port_no hl))]).

(** [switch_ports]: a dictionary from switch id to the set of its ports
    used by switch-to-switch links. *)
Definition ports_ensure (k : pyval) (d : gmap pyval (gset pyval))
    : res (gmap pyval (gset pyval)) :=
  if hashable k then
    Ok (match d !! k with
        | Some _ => d
        | None => <[k := ∅]> d
        end)
  else Raise TypeError.

Definition ports_add (k p : pyval) (d : gmap pyval (gset pyval))
    : res (gmap pyval (gset pyval)) :=
  if hashable k then
    match d !! k with
    | Some s => if hashable p then Ok (<[k := s ∪ {[ p ]}]> d) else Raise TypeError
    | None => Raise KeyError
    end
  else Raise TypeError.

(** [link[side][field]] *)
Definition endpoint_field (link : pyval) (side field : string) : res pyval :=
  e ← getitem link (PStr side); getitem e (PStr field).

(** The body of the first loop of [initialize_host_mapping] and of
    [filter_host_links]. *)
Definition switch_ports_step (d : gmap pyval (gset pyval)) (link : pyval)
    : res (gmap pyval (gset pyval)) :=
  src_dpid ← endpoint_field link "src" "dpid";
  src_port ← endpoint_field link "src" "port_no";
  dst_dpid ← endpoint_field link "dst" "dpid";
  dst_port ← endpoint_field link "dst" "port_no";
  d1 ← ports_ensure src_dpid d;
  d2 ← ports_ensure dst_dpid d1;
  d3 ← ports_add src_dpid src_port d2;
  ports_add dst_dpid dst_port d3.

Definition build_switch_ports (links : list pyval) : res (gmap pyval (gset pyval)) :=
  for_each switch_ports_step ∅ links.

(** [switch_id in switch_ports and port_no in switch_ports[switch_id]] *)
Definition port_in_use (d : gmap pyval (gset pyval)) (switch_id port : Z) : bool :=
  match d !! PInt switch_id with
  | Some s => bool_decide (PInt port ∈ s)
  | None => false
  end.

(** The sort key [(int(h["attached_switch"]), int(h["attached_port"]))]. *)
Definition host_key (h : pyval) : res (Z * Z) :=
  a ← getitem h (PStr "attached_switch");
  sw ← int_of a;
  b ← getitem h (PStr "attached_port");
  p ← int_of b;
  mret (sw, p).

(** [sorted(hosts, key=...)]: all keys are computed first, in list
    order, then the hosts are sorted on them. *)
Definition sorted_hosts (hosts : list pyval) : res (list pyval) :=
  keys ← mapM host_key hosts;
  mret (py_sorted_by_key (zip keys hosts)).

(** [f"h{host_counter}"] *)
Definition host_label (counter : Z) : string := "h" +:+ pretty counter.

(** The body of the second loop of [initialize_host_mapping]; the state
    is [(host_links, host_counter)]. *)
Definition mapping_step (d : gmap pyval (gset pyval))
    (st : list HostLink * Z) (host : pyval) : res (list HostLink * Z) :=
  a ← getitem host (PStr "attached_switch");
  switch_id ← int_of a;
  b ← getitem host (PStr "attached_port");
  port ← int_of b;
  if port_in_use d switch_id port then mret st
  else
    let name := host_label st.2 in
    mac ← getitem host (PStr "mac");
    mret (st.1 ++ [{| host_name := name; host_mac := Some mac;
                      switch_dpid := switch_id; hl_port_no := port |}],
          st.2 + 1).

Definition initialize_host_mapping (links hosts : list pyval) : res (list HostLink) :=
  switch_ports ← build_switch_ports links;
  ordered ← sorted_hosts hosts;
  st ← for_each (mapping_step switch_ports) ([], 1) ordered;
  mret st.1.

(** [switch_id not in switch_ports or port_no not in switch_ports[switch_id]] *)
Definition port_is_free (d : gmap pyval (gset pyval)) (switch_id port : Z) : bool :=
  match d !! PInt switch_id with
  | None => true
  | Some s => negb (bool_decide (PInt port ∈ s))
  end.

(** The body of the second loop of [filter_host_links]. *)
Definition filter_step (d : gmap pyval (gset pyval))
    (st : list HostLink * Z) (host : pyval) : res (list HostLink * Z) :=
  a ← getitem host (PStr "attached_switch");
  switch_id ← int_of a;
  b ← getitem host (PStr "attached_port");
  port ← int_of b;
  if port_is_free d switch_id port then
    let name := host_label st.2 in
    mac ← getitem host (PStr "mac");
    mret (st.1 ++ [{| host_name := name; host_mac := Some mac;
                      switch_dpid := switch_id; hl_port_no := port |}],
          st.2 + 1)
  else mret st.

Definition filter_host_links (links hosts : list pyval) : res (list HostLink) :=
  switch_ports ← build_switch_ports links;
  ordered ← sorted_hosts hosts;
  st ← for_each (filter_step switch_ports) ([], 1) ordered;
  mret st.1.

(** A raw host as [fetch_hosts] builds it. *)
Definition py_host (mac : string) (attached_switch attached_port : pyval) : pyval :=
  PDict [("mac", PStr mac);
         ("attached_switch", attached_switch);
         ("attached_port", attached_port)].

(** ** Snapshot capture (the [snapshot] mode of the main loop)

    [initial_host_mapping] is the module-level global: [None] until a
    mapping has been computed. *)
Definition capture_snapshot (initial_host_mapping : option (list HostLink))
    (switches : list Z) (links : list RawLink) (hosts : list pyval) (f : file)
    : res (option (list HostLink) * file * list output) :=
  let deduplicated_links := deduplicate_links links in
  mapping ←
    match initial_host_mapping with
    | None => initialize_host_mapping (py_of_canon_link <$> deduplicated_links) hosts
    | Some m => mret m
    end;
  let host_links := mapping in
  let '(f', out) := save_snapshot (PList (PInt <$> switches))
                      (PList (py_of_canon_link <$> deduplicated_links))
                      (PList (py_of_host_link <$> host_links)) f in
  mret (Some mapping, f', out).

(** ** The working graph (a [networkx.Graph]) *)

Global Instance node_eq_dec : EqDecision node.
Proof. solve_decision. Defined.

Global Instance node_countable : Countable node :=
  inj_countable'
    (λ n, match n with NInt z => inl z | NStr s => inr s end)
    (λ x, match x with inl z => NInt z | inr s => NStr s end)
    (λ n, match n with NInt _ | NStr _ => eq_refl end).

(** Nodes, and the adjacency of an undirected graph: an edge between
    [u] and [v] is stored under both [(u, v)] and [(v, u)]. *)
Record Graph : Type := { nodes : gset node; adj : gset (node * node) }.

Definition empty_graph : Graph := {| nodes := ∅; adj := ∅ |}.

Definition clear (g : Graph) : Graph := empty_graph.

Definition add_node (n : node) (g : Graph) : Graph :=
  {| nodes := nodes g ∪ {[ n ]}; adj := adj g |}.

Definition add_edge (u v : node) (g : Graph) : Graph :=
  {| nodes := nodes g ∪ {[ u; v ]}; adj := adj g ∪ {[ (u, v); (v, u) ]} |}.

Definition remove_edge (u v : node) (g : Graph) : Graph :=
  {| nodes := nodes g; adj := adj g ∖ {[ (u, v); (v, u) ]} |}.

Definition has_node (g : Graph) (n : node) : bool := bool_decide (n ∈ nodes g).

Definition has_edge (g : Graph) (u v : node) : bool := bool_decide ((u, v) ∈ adj g).

Definition neighbors (g : Graph) (u : node) : gset node :=
  set_map snd (filter (λ e, e.1 = u) (adj g)).

Definition add_nodes_from (ns : list node) (g : Graph) : Graph :=
  foldl (λ g n, add_node n g) g ns.

Definition add_edges_from (es : list (node * node)) (g : Graph) : Graph :=
  foldl (λ g e, add_edge e.1 e.2 g) g es.

(** One round of search: the nodes one edge away from [seen] join it. *)
Definition expand (g : Graph) (seen : gset node) : gset node :=
  seen ∪ set_map snd (filter (λ e, e.1 ∈ seen) (adj g)).

Fixpoint search (rounds : nat) (g : Graph) (seen : gset node) : gset node :=
  match rounds with
  | O => seen
  | S k => search k g (expand g seen)
  end.

(** [nx.has_path(G, u, v)] for nodes of the graph (the caller tests
    [has_node] first): the target is found by a search from the source;
    one round per stored edge, and one more, exhausts the graph. *)
Definition has_path (g : Graph) (u v : node) : bool :=
  bool_decide (v ∈ search (S (size (adj g))) g {[ u ]}).

(** ** Replay engine *)

(** A tracked switch-to-switch record [((dpid, port), (dpid, port))]
    where a port may be [None]. *)
Definition SwitchLink : Type := (Z * option Z) * (Z * option Z).

Definition tracked_of_canon (l : CanonLink) : SwitchLink :=
  ((l.1.1, Some l.1.2), (l.2.1, Some l.2.2)).

(** [{a, b}], the set of the two switch ids. *)
Definition id_pair (a b : Z) : gset Z := {[ a; b ]}.

(** The state the replay loop works on. *)
Record Replay : Type := {
  G : Graph;
  switches : list node;
  links : list SwitchLink;
  host_links : list HostLink;
}.

Definition is_host_node (n : node) : bool :=
  match n with
  | NStr s => startswith_h s
  | NInt _ => false
  end.

(** [visualize_topology]: the graph is cleared and rebuilt from the
    three collections (the drawing itself is outside the model). *)
Definition visualize_topology (g : Graph) (switches : list node)
    (links : list SwitchLink) (host_links : list HostLink) : Graph :=
  let g := clear g in
  let g := add_nodes_from switches g in
  let graph_links := (λ link : SwitchLink, (NInt link.1.1, NInt link.2.1)) <$> links in
  let g := add_edges_from graph_links g in
  let g := foldl (λ g hl,
                    let host_node := NStr (host_name hl) in
                    let switch_node := NInt (switch_dpid hl) in
                    add_edge switch_node host_node (add_node host_node g))
                 g host_links in
  (* "Ensuring isolated hosts are also in the graph" *)
  foldl (λ g' n,
           if is_host_node n && bool_decide (elements (neighbors g' n) = [])
           then add_node n g' else g')
        g (elements (nodes g)).

(** An endpoint token: a host name when it starts with [h], else a
    switch id read by [int]. *)
Definition parse_endpoint (token : string) : res node :=
  if startswith_h token then Ok (NStr token) else NInt <$> int_of_str token.

(** The test of the switch-link comprehension in [remove_link] and of
    the fact loop in [add_link]. *)
Definition joins (link : SwitchLink) (s d : Z) : Prop :=
  id_pair link.1.1 link.2.1 = id_pair s d.

Definition attaches (hl : HostLink) (src dst : node) : Prop :=
  (NStr (host_name hl) = src ∧ NInt (switch_dpid hl) = dst) ∨
  (NStr (host_name hl) = dst ∧ NInt (switch_dpid hl) = src).

Global Instance joins_dec link s d : Decision (joins link s d).
Proof. unfold joins. apply _. Defined.

Global Instance attaches_dec hl src dst : Decision (attaches hl src dst).
Proof. unfold attaches. apply _. Defined.

Definition remove_link (st : Replay) (source destination : string)
    (all_hosts : list string) : res (Replay * list output) :=
  try_except
    (src ← parse_endpoint source;
     dst ← parse_endpoint destination;
     if has_edge (G st) src dst then
       let g := remove_edge src dst (G st) in
       match src, dst with
       | NInt s, NInt d =>
           let links' := filter (λ link, ¬ joins link s d) (links st) in
           mret ({| G := visualize_topology g (switches st) links' (host_links st);
                    switches := switches st;
                    links := links';
                    host_links := host_links st |},
                 [LinkRemoved src dst])
       | _, _ =>
           let host_links' := filter (λ hl, ¬ attaches hl src dst) (host_links st) in
           (* "Ensuring the host remains in the graph" *)
           let g := match src with
                    | NStr h => if bool_decide (h ∈ all_hosts) then add_node src g else g
                    | NInt _ => g
                    end in
           let g := match dst with
                    | NStr h => if bool_decide (h ∈ all_hosts) then add_node dst g else g
                    | NInt _ => g
                    end in
           mret ({| G := visualize_topology g (switches st) (links st) host_links';
                    switches := switches st;
                    links := links st;
                    host_links := host_links' |},
                 [LinkRemoved src dst])
       end
     else mret (st, [LinkDoesNotExist]))
    is_ValueError
    (λ _, mret (st, [InvalidInput])).

(** The fact loop of [add_link] for two switches: the first fact that
    joins them gives the port on the [src] side. *)
Fixpoint find_switch_fact (facts : list CanonLink) (s d : Z) : option Z :=
  match facts with
  | [] => None
  | link :: facts' =>
      if decide (id_pair link.1.1 link.2.1 = id_pair s d)
      then Some (if decide (link.1.1 = s) then link.1.2 else link.2.2)
      else find_switch_fact facts' s d
  end.

(** The fact loop for a host and a switch: the first matching record of
    the host-links snapshot gives the port. *)
Fixpoint find_host_fact (snapshot : list HostLink) (src dst : node) : option Z :=
  match snapshot with
  | [] => None
  | hl :: snapshot' =>
      if decide (attaches hl src dst) then Some (hl_port_no hl)
      else find_host_fact snapshot' src dst
  end.

Definition node_type (n : node) : string :=
  match n with NInt _ => "switch" | NStr _ => "host" end.

(** [initial_switch_links] is the module-level global, [None] until the
    real-time synchronizer has captured it; iterating over [None]
    raises [TypeError], which [add_link] does not catch. *)
Definition add_link (st : Replay) (source destination : string)
    (initial_switch_links : option (list CanonLink))
    (host_links_snapshot : list HostLink) : res (Replay * list output) :=
  try_except
    (src ← parse_endpoint source;
     dst ← parse_endpoint destination;
     found ←
       match src, dst with
       | NInt s, NInt d =>
           match initial_switch_links with
           | Some facts => mret (find_switch_fact facts s d)
           | None => Raise TypeError
           end
       | _, _ => mret (find_host_fact host_links_snapshot src dst)
       end;
     match found with
     | Some port =>
         let g := add_edge src dst (G st) in
         match src, dst with
         | NInt s, NInt d =>
             let links' := links st ++ [((s, Some port), (d, None))] in
             mret ({| G := visualize_topology g (switches st) links' (host_links st);
                      switches := switches st;
                      links := links';
                      host_links := host_links st |},
                   [LinkAdded src dst])
         | NStr h, NInt sw | NInt sw, NStr h =>
             let host_links' :=
               host_links st ++ [{| host_name := h; host_mac := None;
                                    switch_dpid := sw; hl_port_no := port |}] in
             mret ({| G := visualize_topology g (switches st) (links st) host_links';
                      switches := switches st;
                      links := links st;
                      host_links := host_links' |},
                   [LinkAdded src dst])
         | NStr _, NStr _ =>
             (* not reached: no record's integer [switch_dpid] equals a
                host name, so no fact matches two host names *)
             mret (st, [NotConnected (node_type src) src (node_type dst) dst])
         end
     | None => mret (st, [NotConnected (node_type src) src (node_type dst) dst])
     end)
    is_ValueError
    (λ _, mret (st, [InvalidInput])).

(** ** Pingall *)

Record PingReport : Type := {
  rows : list (string * list string);   (* "src -> dst dst ..." per source *)
  successful_pings : Z;
  total_pings : Z;
  packet_loss_percentage : Qc;
}.

Definition Qc_of_Z (z : Z) : Qc := Q2Qc (inject_Z z).

(** The test of the inner loop. *)
Definition answers (g : Graph) (src dst : string) : Prop :=
  src ≠ dst ∧ has_node g (NStr src) ∧ has_node g (NStr dst)
  ∧ has_path g (NStr src) (NStr dst).

Global Instance answers_dec g src dst : Decision (answers g src dst).
Proof. unfold answers. apply _. Defined.

Definition pingall (g : Graph) (all_hosts : list string) : PingReport :=
  let hosts := py_sorted String.ltb all_hosts in
  let n := Z.of_nat (length hosts) in
  let total := n * (n - 1) in
  let rows := (λ src, (src, filter (answers g src) hosts)) <$> hosts in
  let successful := foldl (λ acc row, acc + Z.of_nat (length row.2)) 0 rows in
  {| rows := rows;
     successful_pings := successful;
     total_pings := total;
     packet_loss_percentage :=
       if 0 <? total
       then (Qc_of_Z 100 - (Qc_of_Z successful / Qc_of_Z total) * Qc_of_Z 100)%Qc
       else Qc_of_Z 0 |}.

(** ** Vocabulary of the design document *)

(** A document has a top-level field when it is an object that binds
    the key. *)
Definition has_field (doc : pyval) (k : string) : bool :=
  match doc with
  | PDict kvs => bool_decide (is_Some (dict_lookup k kvs))
  | _ => false
  end.

(** The read and parse failures of the design document: the file is
    missing, its content is malformed, or the parsed document lacks
    one of the three top-level fields. *)
Definition load_failure (f : file) : Prop :=
  match f with
  | NoFile | Malformed => True
  | Document doc =>
      ¬ (has_field doc "switches" ∧ has_field doc "links"
         ∧ has_field doc "host_links")
  end.


(** The raw link [{src: (a, b), dst: (c, d)}]. *)
Definition raw_link (a b c d : Z) : RawLink :=
  {| src := {| dpid := a; port_no := b |}; dst := {| dpid := c; port_no := d |} |}.

(** The attachment point [(switch, port)] of a host-link record. *)
Definition attachment (hl : HostLink) : Z * Z := (switch_dpid hl, hl_port_no hl).

(** The sort key of a host whose fields are readable. *)
Definition key_of (h : pyval) : Z * Z :=
  match host_key h with
  | Ok k => k
  | Raise _ => (0, 0)
  end.

(** [a] may stand before [b] in sorted order: [b] does not compare
    below [a]. *)
Definition not_after {A} (lt : A → A → bool) (a b : A) : Prop := lt b a = false.

(** One record is attached strictly below another, in [(switch, port)]
    order. *)
Definition attached_before (a b : HostLink) : Prop :=
  tuple_lt (attachment a) (attachment b) = true.

(** The edge between two parsed endpoints is a ground-truth fact: for
    two switches, some captured link joins their ids (in either order);
    otherwise some record of the host-links snapshot pairs the host
    with the switch. *)
Definition in_ground_truth (facts : list CanonLink) (snapshot : list HostLink)
    (src dst : node) : Prop :=
  match src, dst with
  | NInt s, NInt d => ∃ fact, fact ∈ facts ∧ id_pair fact.1.1 fact.2.1 = id_pair s d
  | _, _ =>
      ∃ hl, hl ∈ snapshot ∧
        ((NStr (host_name hl), NInt (switch_dpid hl)) = (src, dst)
         ∨ (NStr (host_name hl), NInt (switch_dpid hl)) = (dst, src))
  end.

(** The port a fact records on the side of switch [s]. *)
Definition src_side_port (fact : CanonLink) (s : Z) : Z :=
  if decide (fact.1.1 = s) then fact.1.2 else fact.2.2.

(** A tracked record carries the port information of a fact: the same
    two [(switch, port)] ends, in either order. *)
Definition same_port_information (r : SwitchLink) (fact : CanonLink) : Prop :=
  r = tracked_of_canon fact ∨ r = tracked_of_canon (fact.2, fact.1).

(** A host record rebuilt from a fact: the fact without its MAC. *)
Definition without_mac (hl : HostLink) : HostLink :=
  {| host_name := host_name hl; host_mac := None;
     switch_dpid := switch_dpid hl; hl_port_no := hl_port_no hl |}.

(** What [add_link] looks up, by the kind of the two endpoints. *)
Definition lookup_fact (facts : list CanonLink) (snapshot : list HostLink)
    (src dst : node) : option Z :=
  match src, dst with
  | NInt s, NInt d => find_switch_fact facts s d
  | _, _ => find_host_fact snapshot src dst
  end.

(** ** The scenario of the design document

    Switches 1 and 2, one link between them (port 1 on both sides),
    host [h1] on switch 1 port 3 and host [h2] on switch 2 port 3. *)
Definition scenario_facts : list CanonLink := [((1, 1), (2, 1))].

Definition scenario_hosts : list HostLink :=
  [ {| host_name := "h1"; host_mac := Some (PStr "00:00:00:00:00:01");
       switch_dpid := 1; hl_port_no := 3 |};
    {| host_name := "h2"; host_mac := Some (PStr "00:00:00:00:00:02");
       switch_dpid := 2; hl_port_no := 3 |} ].

(** The replay state right after the snapshot is loaded and drawn. *)
Definition replay_of (switches : list node) (links : list SwitchLink)
    (host_links : list HostLink) : Replay :=
  {| G := visualize_topology empty_graph switches links host_links;
     switches := switches; links := links; host_links := host_links |}.

Definition scenario : Replay :=
  replay_of [NInt 1; NInt 2] (tracked_of_canon <$> scenario_facts) scenario_hosts.

(** The same topology with a second, parallel link between the two
    switches (port 2 on both sides). *)
Definition parallel_scenario : Replay :=
  replay_of [NInt 1; NInt 2]
    [((1, Some 1), (2, Some 1)); ((1, Some 2), (2, Some 2))] scenario_hosts.

(** The graph edge a tracked record stands for. *)
Definition link_edge (l : SwitchLink) : node * node := (NInt l.1.1, NInt l.2.1).

Definition host_edge (hl : HostLink) : node * node :=
  (NInt (switch_dpid hl), NStr (host_name hl)).

Definition topology_edges (links : list SwitchLink) (host_links : list HostLink)
    : list (node * node) :=
  (link_edge <$> links) ++ (host_edge <$> host_links).

(** An undirected edge, read in either direction. *)
Definition same_edge (e e0 : node * node) : Prop := e = e0 ∨ e = (e0.2, e0.1).

(** The invariant of the replay loop: the graph is the one drawn from
    the tracked collections.  [visualize_topology] establishes it at
    the start of the replay and at the end of every link operation. *)
Definition in_sync (st : Replay) : Prop :=
  G st = visualize_topology (G st) (switches st) (links st) (host_links st).

(** The states of one replay session: the state drawn from the loaded
    snapshot, then any sequence of link-down and link-up actions (the
    ground-truth facts stay as they were captured). *)
Inductive replay_state (facts : option (list CanonLink)) (snapshot : list HostLink)
    : Replay → Prop :=
  | replay_start sw lks hls :
      replay_state facts snapshot (replay_of sw lks hls)
  | replay_link_down st source destination all_hosts st' out :
      replay_state facts snapshot st →
      remove_link st source destination all_hosts = Ok (st', out) →
      replay_state facts snapshot st'
  | replay_link_up st source destination st' out :
      replay_state facts snapshot st →
      add_link st source destination facts snapshot = Ok (st', out) →
      replay_state facts snapshot st'.

(** ** Paths *)

(** One hop along a stored edge. *)
Definition edge_rel (g : Graph) (u v : node) : Prop := (u, v) ∈ adj g.

(** A path between two nodes of the graph: both are nodes, and a chain
    of edges (of any length, also none) leads from one to the other. *)
Definition path_exists (g : Graph) (u v : node) : Prop :=
  u ∈ nodes g ∧ v ∈ nodes g ∧ rtc (edge_rel g) u v.

(** The graph is undirected: every edge is stored in both directions. *)
Definition undirected (g : Graph) : Prop :=
  ∀ u v, (u, v) ∈ adj g → (v, u) ∈ adj g.

(** The ordered pairs of hosts that [pingall] walks through. *)
Definition ordered_pairs (hosts : list string) : list (string * string) :=
  src ← hosts; dst ← hosts; [(src, dst)].

(** The number of ordered pairs that get an answer. *)
Definition successful_pairs (g : Graph) (hosts : list string) : Z :=
  Z.of_nat (length (filter (λ p, answers g p.1 p.2) (ordered_pairs hosts))).

(** ** Fetching from the topology service *)

(** The try body of a fetch either completes or raises; whatever it
    raises is an [Exception], which the [except] clause catches.  A
    response is the decoded JSON body, [None] when the request or the
    decoding failed. *)
Definition completes {A} (r : res A) : option A :=
  match r with
  | Ok a => Some a
  | Raise _ => None
  end.

(** [fetch_topology]: both requests are inside one [try], so a failure
    of either gives two empty lists. *)
Definition fetch_topology (switches_response links_response : option pyval)
    : pyval * pyval :=
  match switches_response, links_response with
  | Some switches, Some links => (switches, links)
  | _, _ => (PList [], PList [])
  end.

(** [hosts_data.items()]: only a dictionary has items. *)
Definition items (v : pyval) : option (list (string * pyval)) :=
  match v with
  | PDict kvs => Some kvs
  | _ => None
  end.

(** The dictionary [fetch_hosts] builds for one entry of the response. *)
Definition format_host (entry : string * pyval) : option pyval :=
  attached_switch ← completes (getitem entry.2 (PStr "attached_switch"));
  attached_port ← completes (getitem entry.2 (PStr "attached_port"));
  Some (PDict [("mac", PStr entry.1);
               ("attached_switch", attached_switch);
               ("attached_port", attached_port)]).

(** [fetch_hosts]: one host per entry of the response, in the order of
    the entries; any exception gives the empty list. *)
Definition fetch_hosts (response : option pyval) : list pyval :=
  let body : option (list pyval) :=
    hosts_data ← response;
    entries ← items hosts_data;
    mapM format_host entries in
  match body with
  | Some hosts => hosts
  | None => []
  end.

(** ** Ground truth of the real-time synchronizer *)

(** The two module-level globals. *)
Record Globals : Type := {
  initial_host_mapping : option (list HostLink);
  initial_switch_links : option (list CanonLink);
}.

(** The head of [real_time_update]: each global is computed from the
    first fetch if it is still [None], and left alone otherwise. *)
Definition capture_ground_truth (gl : Globals) (links : list RawLink)
    (hosts : list pyval) : res Globals :=
  mapping ←
    match initial_host_mapping gl with
    | None => initialize_host_mapping (py_of_raw_link <$> links) hosts
    | Some m => mret m
    end;
  let switch_links :=
    match initial_switch_links gl with
    | None => deduplicate_links links
    | Some l => l
    end in
  mret {| initial_host_mapping := Some mapping;
          initial_switch_links := Some switch_links |}.

(** One round of the loop of [real_time_update]: the tuple put on the
    queue. *)
Definition real_time_tuple (gl : Globals) (switches : list Z) (links : list RawLink)
    : list Z * list CanonLink * option (list HostLink) :=
  (switches, deduplicate_links links, initial_host_mapping gl).

(** ** Start of a replay *)

(** A switch-list entry that [all_hosts] takes in: a string starting
    with [h] that is not listed yet. *)
Definition all_hosts_step (acc : list string) (n : node) : list string :=
  match n with
  | NStr s => if startswith_h s && negb (bool_decide (s ∈ acc)) then acc ++ [s] else acc
  | NInt _ => acc
  end.

(** [all_hosts]: the sorted set of the host names of the host links,
    followed by the host-like entries of [switches]. *)
Definition initial_all_hosts (switches : list node) (host_links : list HostLink)
    : list string :=
  let names : gset string := list_to_set (host_name <$> host_links) in
  foldl all_hosts_step (py_sorted String.ltb (elements names)) switches.

(** ** The controller application ([rest_topology_with_switch.py]) *)

(** OpenFlow 1.3 and Ethernet constants the handlers use. *)
Definition ETH_TYPE_LLDP : Z := 0x88cc.
Definition OFPP_FLOOD : Z := 0xfffffffb.
Definition OFPP_CONTROLLER : Z := 0xfffffffd.
Definition OFPCML_NO_BUFFER : Z := 0xffff.
Definition OFP_NO_BUFFER : Z := 0xffffffff.

(** A packet-in event, with the Ethernet header of its packet. *)
Record PacketIn : Type := {
  pi_dpid : Z;
  pi_in_port : Z;
  pi_ethertype : Z;
  pi_src : string;
  pi_dst : string;
  pi_buffer_id : Z;
  pi_data : string;
}.

(** The messages sent to a datapath. *)
Inductive of_message : Type :=
  | FlowMod (datapath priority : Z)
      (fields : option (Z * string * string))  (* in_port, eth_dst, eth_src *)
      (out_port : Z) (max_len : option Z)
  | PacketOut (datapath buffer_id in_port out_port : Z) (data : option string).

(** The application state: [mac_to_port] and [hosts].  [hosts] keeps
    its entries in insertion order, as the dictionary does. *)
Record Controller : Type := {
  mac_to_port : gmap Z (gmap string Z);
  hosts : list (string * pyval);
}.

Definition new_controller : Controller := {| mac_to_port := ∅; hosts := [] |}.

(** [switch_features_handler]: the table-miss entry. *)
Definition switch_features_handler (datapath : Z) : list of_message :=
  [FlowMod datapath 0 None OFPP_CONTROLLER (Some OFPCML_NO_BUFFER)].

(** [str(n)] *)
Definition py_str (n : Z) : string := pretty n.

(** The record stored for a host. *)
Definition host_info (dpid in_port : Z) : pyval :=
  PDict [("attached_switch", PStr (py_str dpid)); ("attached_port", PStr (py_str in_port))].

(** [_packet_in_handler] *)
Definition packet_in_handler (c : Controller) (ev : PacketIn)
    : Controller * list of_message :=
  if decide (pi_ethertype ev = ETH_TYPE_LLDP) then (c, [])
  else
    let dpid := pi_dpid ev in
    let table := default ∅ (mac_to_port c !! dpid) in
    let table := <[pi_src ev := pi_in_port ev]> table in
    let hosts' :=
      match dict_lookup (pi_src ev) (hosts c) with
      | Some _ => hosts c
      | None => hosts c ++ [(pi_src ev, host_info dpid (pi_in_port ev))]
      end in
    let out_port :=
      match table !! pi_dst ev with
      | Some port => port
      | None => OFPP_FLOOD
      end in
    let data :=
      if decide (pi_buffer_id ev = OFP_NO_BUFFER) then Some (pi_data ev) else None in
    ({| mac_to_port := <[dpid := table]> (mac_to_port c); hosts := hosts' |},
     [FlowMod dpid 1 (Some (pi_in_port ev, pi_dst ev, pi_src ev)) out_port None;
      PacketOut dpid (pi_buffer_id ev) (pi_in_port ev) out_port data]).

(** The state after a sequence of packet-in events. *)
Definition run_controller (c : Controller) (evs : list PacketIn) : Controller :=
  foldl (λ c ev, (packet_in_handler c ev).1) c evs.

(** [list_hosts]: the body of [GET /v1.0/topology/hosts], decoded. *)
Definition list_hosts (c : Controller) : pyval := PDict (hosts c).

(** ** Vocabulary for the further properties *)

(** The [(switch, port)] ends of the raw links. *)
Definition link_ports (links : list RawLink) : gset (Z * Z) :=
  list_to_set (links ≫= λ l, [(dpid (src l), port_no (src l));
                               (dpid (dst l), port_no (dst l))]).

(** A raw host with readable fields. *)
Definition readable_host (h : pyval) : Prop :=
  (∃ k, host_key h = Ok k) ∧ ∃ mac, getitem h (PStr "mac") = Ok mac.

(** The first event of a sequence that registers a MAC. *)
Definition first_seen (mac : string) (evs : list PacketIn) : option PacketIn :=
  head (filter (λ ev, pi_ethertype ev ≠ ETH_TYPE_LLDP ∧ pi_src ev = mac) evs).

(** The last event of a sequence that teaches a switch where a MAC is. *)
Definition last_seen (dpid : Z) (mac : string) (evs : list PacketIn) : option PacketIn :=
  last (filter (λ ev, pi_ethertype ev ≠ ETH_TYPE_LLDP ∧ pi_dpid ev = dpid
                      ∧ pi_src ev = mac) evs).


(** * Properties *)

(** ** Snapshot store *)

Section snapshot_store.

Implicit Types (v doc : pyval) (f : file).

Lemma struct_eq_json_image v : struct_eq v (json_image v).
Proof.
  induction v as [| | |l IH|l IH|kvs IH] using pyval_nested_ind; simpl;
    try constructor.
  - eapply se_seq; [done..|].
    induction IH; simpl; by constructor.
  - eapply se_seq; [done..|].
    induction IH; simpl; by constructor.
  - induction IH as [|[k x] kvs' Hx _ IHkvs]; simpl; by constructor.
Qed.

Lemma json_image_tuple_free v : tuple_free v → json_image v = v.
Proof.
  induction v as [| | |l IH|l IH|kvs IH] using pyval_nested_ind; simpl;
    try done.
  - intros Hl. f_equal.
    induction IH as [|x l' Hx _ IHl]; simpl in *; [done|].
    apply andb_prop_elim in Hl as [??]. rewrite Hx, IHl; done.
  - intros Hl. f_equal.
    induction IH as [|[k x] l' Hx _ IHl]; simpl in *; [done|].
    apply andb_prop_elim in Hl as [??]. rewrite Hx, IHl; done.
Qed.

Lemma json_image_idemp v : json_image (json_image v) = json_image v.
Proof.
  induction v as [| | |l IH|l IH|kvs IH] using pyval_nested_ind; simpl;
    try done.
  - f_equal. induction IH as [|x l' Hx _ IHl]; simpl; [done|]. by rewrite Hx, IHl.
  - f_equal. induction IH as [|x l' Hx _ IHl]; simpl; [done|]. by rewrite Hx, IHl.
  - f_equal. induction IH as [|[k x] l' Hx _ IHl]; simpl in *; [done|].
    by rewrite Hx, IHl.
Qed.

(** Saving overwrites whatever the file held. *)
Lemma save_snapshot_overwrites s l h f1 f2 :
  save_snapshot s l h f1 = save_snapshot s l h f2.
Proof. done. Qed.

Lemma getitem_field doc k :
  has_field doc k → ∃ v, getitem doc (PStr k) = Ok v.
Proof.
  destruct doc; simpl; try done.
  intros [v Hv]%bool_decide_unpack. exists v. by rewrite Hv.
Qed.

Lemma getitem_no_field doc k :
  ¬ has_field doc k → ∃ e, getitem doc (PStr k) = Raise e.
Proof.
  destruct doc as [| |s| | |kvs]; simpl; eauto.
  intros Hk. destruct (dict_lookup k kvs) as [v|] eqn:E; [|eauto].
  destruct Hk. apply bool_decide_pack. eauto.
Qed.

End snapshot_store.

(** C3. Snapshot round trip: whatever the three collections and the
    previous state of the file, [load_snapshot] right after
    [save_snapshot] returns, without error, the three collections as
    JSON reads them back, each structurally equal to the one saved
    (a tuple comes back as a list of the same items). *)
Theorem snapshot_round_trip (S L H : pyval) (f : file) :
  load_snapshot (save_snapshot S L H f).1
    = (Ok (json_image S, json_image L, json_image H), [])
  ∧ struct_eq S (json_image S)
  ∧ struct_eq L (json_image L)
  ∧ struct_eq H (json_image H).
Proof.
  split; [done|].
  repeat split; apply struct_eq_json_image.
Qed.

(** A document with the three fields loads as it is, unvalidated. *)
Lemma load_snapshot_fields (doc : pyval) :
  has_field doc "switches" → has_field doc "links" → has_field doc "host_links" →
  ∃ s l h, getitem doc (PStr "switches") = Ok s
    ∧ getitem doc (PStr "links") = Ok l
    ∧ getitem doc (PStr "host_links") = Ok h
    ∧ load_snapshot (Document doc) = (Ok (s, l, h), []).
Proof.
  intros [s Hs]%getitem_field [l Hl]%getitem_field [h Hh]%getitem_field.
  exists s, l, h. repeat split; [done..|].
  unfold load_snapshot. simpl. by rewrite Hs, Hl, Hh.
Qed.

(** C9. Every load failure (missing file, malformed content, a
    document lacking one of [switches], [links], [host_links]) makes
    [load_snapshot] return three empty lists without raising, after
    printing the error; the caller then reports that no valid snapshot
    is available. *)
Theorem load_snapshot_failure_is_soft (f : file) :
  load_failure f →
  ∃ e, load_snapshot f = (Ok (PList [], PList [], PList []), [ErrorLoadingSnapshot e])
       ∧ replay_entry f = (Ok None, [ErrorLoadingSnapshot e; NoValidSnapshot]).
Proof.
  intros Hf.
  assert (∃ e, (snapshot ← json_load f;
                switches ← getitem snapshot (PStr "switches");
                links ← getitem snapshot (PStr "links");
                host_links ← getitem snapshot (PStr "host_links");
                mret (switches, links, host_links)) = Raise e) as [e He].
  { destruct f as [| |doc]; simpl in *; [by eexists..|].
    destruct (decide (has_field doc "switches")) as [H1|H1];
      [|apply getitem_no_field in H1 as [e ->]; by eexists].
    destruct (getitem_field _ _ H1) as [v1 ->]; simpl.
    destruct (decide (has_field doc "links")) as [H2|H2];
      [|apply getitem_no_field in H2 as [e ->]; by eexists].
    destruct (getitem_field _ _ H2) as [v2 ->]; simpl.
    destruct (decide (has_field doc "host_links")) as [H3|H3];
      [|apply getitem_no_field in H3 as [e ->]; by eexists].
    by destruct Hf. }
  exists e. unfold replay_entry, load_snapshot. rewrite He.
  by destruct e.
Qed.

Lemma load_snapshot_failure_is_soft_witness :
  ∃ e, load_snapshot (Document (PDict [("switches", PList [PInt 1]); ("links", PList [])]))
       = (Ok (PList [], PList [], PList []), [ErrorLoadingSnapshot e])
     ∧ replay_entry (Document (PDict [("switches", PList [PInt 1]); ("links", PList [])]))
       = (Ok None, [ErrorLoadingSnapshot e; NoValidSnapshot]).
Proof.
  apply (load_snapshot_failure_is_soft
           (Document (PDict [("switches", PList [PInt 1]); ("links", PList [])]))).
  simpl. intros (_ & _ & H). exact H.
Defined.

(** ** Link canonicalizer *)

Lemma tuple_lt_asym a b : tuple_lt a b = true → tuple_lt b a = false.
Proof.
  destruct a as [a1 a2], b as [b1 b2]. unfold tuple_lt. simpl.
  destruct (Z.ltb_spec a1 b1), (Z.ltb_spec b1 a1), (Z.eqb_spec a1 b1),
    (Z.eqb_spec b1 a1), (Z.ltb_spec a2 b2), (Z.ltb_spec b2 a2);
    simpl; try done; lia.
Qed.

Lemma tuple_lt_total a b : tuple_lt a b = false → tuple_lt b a = false → a = b.
Proof.
  destruct a as [a1 a2], b as [b1 b2]. unfold tuple_lt. simpl.
  destruct (Z.ltb_spec a1 b1), (Z.ltb_spec b1 a1), (Z.eqb_spec a1 b1),
    (Z.eqb_spec b1 a1), (Z.ltb_spec a2 b2), (Z.ltb_spec b2 a2);
    simpl; try done; intros _ _; f_equal; lia.
Qed.

Lemma tuple_lt_trans a b c :
  tuple_lt a b = true → tuple_lt b c = true → tuple_lt a c = true.
Proof.
  destruct a as [a1 a2], b as [b1 b2], c as [c1 c2]. unfold tuple_lt. simpl.
  rewrite !orb_true_iff, !andb_true_iff, !Z.ltb_lt, !Z.eqb_eq. lia.
Qed.

Lemma sorted_pair_comm a b : sorted_pair a b = sorted_pair b a.
Proof.
  unfold sorted_pair.
  destruct (tuple_lt b a) eqn:Hba, (tuple_lt a b) eqn:Hab; try done.
  - apply tuple_lt_asym in Hba. congruence.
  - by rewrite (tuple_lt_total _ _ Hab Hba).
Qed.

Lemma canonical_reverse_link link : canonical (reverse_link link) = canonical link.
Proof. unfold canonical. simpl. apply sorted_pair_comm. Qed.

(** The loop inserts the same tuples whichever way the links are
    reported. *)
Lemma canonical_reverse_where mask links :
  canonical <$> reverse_where mask links = canonical <$> links.
Proof.
  revert mask. induction links as [|link links IH]; intros mask; simpl; [done|].
  destruct mask as [|[] mask]; [done|..]; rewrite !fmap_cons, IH; [|done].
  by rewrite canonical_reverse_link.
Qed.

Lemma unique_links_acc (acc : gset CanonLink) links :
  foldl (λ acc link, acc ∪ {[ canonical link ]}) acc links = acc ∪ unique_links links.
Proof.
  unfold unique_links. revert acc.
  induction links as [|link links IH] using rev_ind; intros acc; simpl.
  - set_solver.
  - rewrite !foldl_app. simpl. rewrite IH. set_solver.
Qed.

Lemma elem_of_unique_links c links :
  c ∈ unique_links links ↔ ∃ link, link ∈ links ∧ c = canonical link.
Proof.
  induction links as [|link links IH] using rev_ind.
  - unfold unique_links. simpl. set_solver.
  - unfold unique_links in *. rewrite foldl_app. simpl.
    rewrite elem_of_union, IH, elem_of_singleton. set_solver.
Qed.

Lemma unique_links_reverse_where mask links :
  unique_links (reverse_where mask links) = unique_links links.
Proof.
  apply set_eq. intros c. rewrite !elem_of_unique_links.
  revert mask. induction links as [|link links IH]; intros mask; simpl; [done|].
  destruct mask as [|[] mask]; [reflexivity|..].
  - split.
    + intros (l & [->|Hl]%elem_of_cons & ->).
      * exists link. split; [left|]. by rewrite canonical_reverse_link.
      * destruct (proj1 (IH mask)) as (l' & ? & ?); [by eauto|].
        exists l'. split; [by right|done].
    + intros (l & [->|Hl]%elem_of_cons & ->).
      * exists (reverse_link link). split; [left|]. by rewrite canonical_reverse_link.
      * destruct (proj2 (IH mask)) as (l' & ? & ?); [by eauto|].
        exists l'. split; [by right|done].
  - split.
    + intros (l & [->|Hl]%elem_of_cons & ->).
      * exists link. split; [left|done].
      * destruct (proj1 (IH mask)) as (l' & ? & ?); [by eauto|].
        exists l'. split; [by right|done].
    + intros (l & [->|Hl]%elem_of_cons & ->).
      * exists link. split; [left|done].
      * destruct (proj2 (IH mask)) as (l' & ? & ?); [by eauto|].
        exists l'. split; [by right|done].
Qed.

(** Every canonical link of the output stands for a raw link of the
    input, and the output lists no link twice. *)
Lemma elem_of_deduplicate_links c links :
  c ∈ deduplicate_links links ↔ ∃ link, link ∈ links ∧ c = canonical link.
Proof. unfold deduplicate_links. by rewrite elem_of_elements, elem_of_unique_links. Qed.

Lemma NoDup_deduplicate_links links : NoDup (deduplicate_links links).
Proof. apply (NoDup_elements (unique_links links)). Qed.

(** C5. Reporting any of the raw links in the opposite direction does
    not change the canonical tuples inserted, hence neither the
    canonical set nor the list made of it; the two
    opposite reports of the link between switch 1 port 1 and switch 2
    port 1 collapse to that one link. *)
Theorem deduplicate_links_direction_free (mask : list bool) (links : list RawLink) :
  canonical <$> reverse_where mask links = canonical <$> links
  ∧ unique_links (reverse_where mask links) = unique_links links
  ∧ deduplicate_links (reverse_where mask links) = deduplicate_links links
  ∧ deduplicate_links [raw_link 1 1 2 1; raw_link 2 1 1 1] = [((1, 1), (2, 1))].
Proof.
  split; [apply canonical_reverse_where|].
  split; [apply unique_links_reverse_where|].
  split; [unfold deduplicate_links; by rewrite unique_links_reverse_where|].
  vm_compute. reflexivity.
Qed.

(** ** Snapshot capture *)

Lemma deduplicate_links_cons link links :
  ∃ c cs, deduplicate_links (link :: links) = c :: cs.
Proof.
  destruct (deduplicate_links (link :: links)) as [|c cs] eqn:E; [|by eauto].
  assert (canonical link ∈ deduplicate_links (link :: links)) as Hin.
  { apply elem_of_deduplicate_links. exists link. split; [left|done]. }
  rewrite E in Hin. by apply not_elem_of_nil in Hin.
Qed.

(** A canonical link is a tuple: subscripting it with ["src"] raises. *)
Lemma build_switch_ports_canon c rest :
  build_switch_ports (py_of_canon_link c :: rest) = Raise TypeError.
Proof. done. Qed.

(** On raw links as the service reports them the first loop succeeds. *)
Lemma build_switch_ports_raw (links : list RawLink) :
  ∃ d, build_switch_ports (py_of_raw_link <$> links) = Ok d.
Proof.
  unfold build_switch_ports. generalize (∅ : gmap pyval (gset pyval)).
  induction links as [|link links IH]; intros d; simpl; [by eauto|].
  unfold switch_ports_step, endpoint_field, ports_ensure, ports_add. simpl.
  destruct (d !! PInt (dpid (src link))) eqn:E1; simpl.
  - destruct (d !! PInt (dpid (dst link))) eqn:E2; simpl.
    + rewrite E1. simpl.
      destruct (decide (PInt (dpid (src link)) = PInt (dpid (dst link)))) as [Heq|Hne].
      * rewrite Heq, lookup_insert_eq. apply IH.
      * rewrite lookup_insert_ne, E2 by done. apply IH.
    + rewrite lookup_insert_ne, E1 by congruence. simpl.
      rewrite lookup_insert_ne, lookup_insert_eq by congruence. apply IH.
  - destruct (<[PInt (dpid (src link)):=∅]> d !! PInt (dpid (dst link))) eqn:E2; simpl.
    + rewrite lookup_insert_eq. simpl.
      destruct (decide (PInt (dpid (src link)) = PInt (dpid (dst link)))) as [Heq|Hne].
      * rewrite Heq, lookup_insert_eq. apply IH.
      * rewrite lookup_insert_ne, E2 by done. apply IH.
    + destruct (decide (PInt (dpid (src link)) = PInt (dpid (dst link)))) as [Heq|Hne].
      * rewrite Heq, lookup_insert_eq in E2. done.
      * rewrite lookup_insert_ne, lookup_insert_eq by congruence. simpl.
        rewrite lookup_insert_ne, lookup_insert_eq by congruence. apply IH.
Qed.

(** C2. In snapshot mode with no host mapping captured yet, a fetched
    link list that is not empty makes the capture raise [TypeError]:
    the canonical links handed to [initialize_host_mapping] are tuples,
    which it subscripts with ["src"]; no mapping is produced and
    nothing is saved. *)
Theorem capture_snapshot_raises (switches : list Z) (link : RawLink)
    (links : list RawLink) (hosts : list pyval) (f : file) :
  initialize_host_mapping (py_of_canon_link <$> deduplicate_links (link :: links)) hosts
    = Raise TypeError
  ∧ capture_snapshot None switches (link :: links) hosts f = Raise TypeError.
Proof.
  unfold capture_snapshot.
  destruct (deduplicate_links_cons link links) as (c & cs & ->).
  unfold initialize_host_mapping. rewrite fmap_cons, build_switch_ports_canon.
  done.
Qed.

(** With a mapping already captured (by the real-time synchronizer) the
    same capture goes through. *)
Lemma capture_snapshot_cached m switches links hosts f :
  ∃ f' out, capture_snapshot (Some m) switches links hosts f = Ok (Some m, f', out).
Proof. unfold capture_snapshot. simpl. eauto. Qed.

(** ** Sorting *)

Section sorting.
Context {A : Type} (lt : A → A → bool).

Lemma insert_sorted_perm x l : insert_sorted lt x l ≡ₚ x :: l.
Proof.
  induction l as [|y l IH]; simpl; [done|].
  destruct (lt y x); [|done].
  rewrite IH. apply Permutation_swap.
Qed.

Lemma py_sorted_perm l : py_sorted lt l ≡ₚ l.
Proof.
  induction l as [|x l IH]; simpl; [done|].
  by rewrite insert_sorted_perm, IH.
Qed.

Lemma py_sorted_length l : length (py_sorted lt l) = length l.
Proof. by rewrite py_sorted_perm. Qed.

Lemma elem_of_py_sorted x l : x ∈ py_sorted lt l ↔ x ∈ l.
Proof. by rewrite py_sorted_perm. Qed.

Hypothesis lt_asym : ∀ a b, lt a b = true → lt b a = false.
Hypothesis lt_neg_trans : ∀ a b c, lt b a = false → lt c b = false → lt c a = false.

Lemma insert_sorted_sorted x l :
  StronglySorted (not_after lt) l → StronglySorted (not_after lt) (insert_sorted lt x l).
Proof.
  induction 1 as [|y l Hl IH Hy]; simpl.
  - repeat constructor.
  - destruct (lt y x) eqn:Hyx.
    + constructor; [done|].
      rewrite insert_sorted_perm. constructor; [|done].
      by apply lt_asym.
    + constructor; [by constructor|].
      constructor; [done|].
      eapply Forall_impl; [exact Hy|].
      intros z Hz. unfold not_after in *. by eapply lt_neg_trans.
Qed.

Lemma py_sorted_sorted l : StronglySorted (not_after lt) (py_sorted lt l).
Proof.
  induction l as [|x l IH]; simpl; [constructor|].
  by apply insert_sorted_sorted.
Qed.

End sorting.

(** ** Host attachment mapper *)

Lemma mapM_res_Forall2 {A B} (f : A → res B) l ks :
  mapM f l = Ok ks ↔ Forall2 (λ x k, f x = Ok k) l ks.
Proof.
  revert ks. induction l as [|x l IH]; intros ks; simpl.
  - split; [intros [= <-]; constructor|by inversion 1].
  - destruct (f x) as [y|e] eqn:Hx; simpl.
    + destruct (mapM f l) as [k|e] eqn:Hl; simpl.
      * split.
        -- intros [= <-]. constructor; [done|]. by apply IH.
        -- inversion 1 as [|??? ks' Hy Hk]; simplify_eq.
           apply IH in Hk. unfold mret, res_ret. congruence.
      * split; [done|].
        inversion 1 as [|??? ks' Hy Hk]; simplify_eq.
        apply IH in Hk. done.
    + split; [done|]. inversion 1; congruence.
Qed.

Lemma host_keys_readable hosts keys :
  mapM host_key hosts = Ok keys →
  Forall (λ h, host_key h = Ok (key_of h)) hosts ∧ keys = key_of <$> hosts.
Proof.
  rewrite mapM_res_Forall2. induction 1 as [|h k hosts keys Hh _ [IH1 IH2]]; [done|].
  assert (key_of h = k) as Hk by (unfold key_of; by rewrite Hh).
  split.
  - constructor; [by rewrite Hk|done].
  - rewrite fmap_cons, Hk. by f_equal.
Qed.

Lemma host_keys_of_readable hosts :
  Forall (λ h, host_key h = Ok (key_of h)) hosts →
  mapM host_key hosts = Ok (key_of <$> hosts).
Proof.
  intros H. apply mapM_res_Forall2.
  induction H; simpl; by constructor.
Qed.

Lemma zip_key_of hosts :
  zip (key_of <$> hosts) hosts = (λ h, (key_of h, h)) <$> hosts.
Proof. induction hosts as [|h hosts IH]; [done|]. cbn. f_equal. exact IH. Qed.

Lemma sorted_hosts_readable hosts :
  Forall (λ h, host_key h = Ok (key_of h)) hosts →
  sorted_hosts hosts = Ok (py_sorted_by_key ((λ h, (key_of h, h)) <$> hosts)).
Proof.
  intros H. unfold sorted_hosts. rewrite (host_keys_of_readable _ H).
  by rewrite <-zip_key_of.
Qed.

Lemma keyed_lt_asym {A} (a b : (Z * Z) * A) :
  tuple_lt a.1 b.1 = true → tuple_lt b.1 a.1 = false.
Proof. apply tuple_lt_asym. Qed.

Lemma keyed_lt_neg_trans {A} (a b c : (Z * Z) * A) :
  tuple_lt b.1 a.1 = false → tuple_lt c.1 b.1 = false → tuple_lt c.1 a.1 = false.
Proof.
  destruct a as [[a1 a2] ?], b as [[b1 b2] ?], c as [[c1 c2] ?].
  unfold tuple_lt. simpl.
  rewrite !orb_false_iff, !andb_false_iff, !Z.ltb_ge, !Z.eqb_neq. lia.
Qed.

(** Two entries of a list with pairwise distinct keys that carry the
    same key are the same entry. *)
Lemma NoDup_fst_eq {K V} (l : list (K * V)) x y :
  NoDup (l.*1) → x ∈ l → y ∈ l → x.1 = y.1 → x = y.
Proof.
  induction l as [|z l IH]; simpl; [by intros _ ?%not_elem_of_nil|].
  intros [Hz Hl]%NoDup_cons [->|Hx]%elem_of_cons [->|Hy]%elem_of_cons Heq;
    [done| | |by apply IH].
  - destruct Hz. rewrite Heq. by apply list_elem_of_fmap_2.
  - destruct Hz. rewrite <-Heq. by apply list_elem_of_fmap_2.
Qed.

(** With pairwise distinct keys the sorted order does not depend on
    the order of arrival. *)
Lemma py_sorted_by_key_perm {A} (l1 l2 : list ((Z * Z) * A)) :
  NoDup (l1.*1) → l1 ≡ₚ l2 → py_sorted_by_key l2 = py_sorted_by_key l1.
Proof.
  intros Hnd Hperm. unfold py_sorted_by_key. f_equal.
  eapply (StronglySorted_unique_strong
            (not_after (λ a b : (Z * Z) * A, tuple_lt a.1 b.1))).
  - intros x1 x2 H1 H2 Hle1 Hle2. unfold not_after in *.
    rewrite elem_of_py_sorted in H1, H2. rewrite <-Hperm in H1.
    apply (NoDup_fst_eq l1); [done..|].
    symmetry. by apply tuple_lt_total.
  - apply py_sorted_sorted; [apply keyed_lt_asym|apply keyed_lt_neg_trans].
  - apply py_sorted_sorted; [apply keyed_lt_asym|apply keyed_lt_neg_trans].
  - by rewrite !py_sorted_perm.
Qed.

Lemma sorted_hosts_perm hosts hosts' keys :
  mapM host_key hosts = Ok keys → NoDup keys → hosts ≡ₚ hosts' →
  sorted_hosts hosts' = sorted_hosts hosts.
Proof.
  intros [Hr ->]%host_keys_readable Hnd Hperm.
  assert (Forall (λ h, host_key h = Ok (key_of h)) hosts') as Hr'
    by by rewrite <-Hperm.
  rewrite !sorted_hosts_readable by done. f_equal.
  apply py_sorted_by_key_perm.
  - by rewrite <-list_fmap_compose.
  - by apply fmap_Permutation.
Qed.

Lemma mapping_step_key d st h :
  mapping_step d st h =
    (k ← host_key h;
     if port_in_use d k.1 k.2 then mret st
     else
       mac ← getitem h (PStr "mac");
       mret (st.1 ++ [{| host_name := host_label st.2; host_mac := Some mac;
                         switch_dpid := k.1; hl_port_no := k.2 |}],
             st.2 + 1)).
Proof.
  unfold mapping_step, host_key.
  destruct (getitem h (PStr "attached_switch")) as [a|]; simpl; [|done].
  destruct (int_of a) as [sw|]; simpl; [|done].
  destruct (getitem h (PStr "attached_port")) as [b|]; simpl; [|done].
  by destruct (int_of b) as [pt|].
Qed.

(** The two mappers run the same loop body. *)
Lemma filter_step_mapping_step d st h : filter_step d st h = mapping_step d st h.
Proof.
  unfold mapping_step, filter_step.
  destruct (getitem h (PStr "attached_switch")) as [a|]; simpl; [|done].
  destruct (int_of a) as [sw|]; simpl; [|done].
  destruct (getitem h (PStr "attached_port")) as [b|]; simpl; [|done].
  destruct (int_of b) as [pt|]; simpl; [|done].
  unfold port_is_free, port_in_use.
  destruct (d !! PInt sw) as [ports|]; [|done].
  by destruct (bool_decide (PInt pt ∈ ports)).
Qed.

Lemma for_each_ext {A S} (f g : S → A → res S) s l :
  (∀ s x, f s x = g s x) → for_each f s l = for_each g s l.
Proof.
  intros Hfg. revert s. induction l as [|x l IH]; intros s; simpl; [done|].
  rewrite Hfg. destruct (g s x); simpl; auto.
Qed.

Lemma filter_host_links_initialize links hosts :
  filter_host_links links hosts = initialize_host_mapping links hosts.
Proof.
  unfold filter_host_links, initialize_host_mapping.
  destruct (build_switch_ports links) as [d|]; simpl; [|done].
  destruct (sorted_hosts hosts) as [ordered|]; simpl; [|done].
  by rewrite (for_each_ext _ _ _ _ (filter_step_mapping_step d)).
Qed.

(** What the naming loop appends: records named by consecutive
    counters, attached where a subsequence of the hosts is. *)
Lemma mapping_loop d l : ∀ acc c acc' c',
  for_each (mapping_step d) (acc, c) l = Ok (acc', c') →
  ∃ recs, acc' = acc ++ recs
    ∧ (∀ i hl, recs !! i = Some hl → host_name hl = host_label (c + Z.of_nat i))
    ∧ attachment <$> recs `sublist_of` key_of <$> l.
Proof.
  induction l as [|h l IH]; intros acc c acc' c'; simpl.
  - intros [= <- <-]. exists []. rewrite app_nil_r. split; [done|].
    split; [by intros ??; rewrite lookup_nil|constructor].
  - rewrite mapping_step_key. unfold key_of.
    destruct (host_key h) as [[sw pt]|]; simpl; [|done].
    destruct (port_in_use d sw pt).
    + simpl. intros (recs & -> & Hn & Hs)%IH.
      exists recs. repeat split; [done|]. by constructor.
    + destruct (getitem h (PStr "mac")) as [mac|]; simpl; [|done].
      intros (recs & -> & Hn & Hs)%IH.
      eexists (_ :: recs). rewrite <-app_assoc. split; [done|]. split.
      * intros [|i] hl; simpl.
        -- intros [= <-]. simpl. f_equal. lia.
        -- intros Hi%Hn. rewrite Hi. f_equal. lia.
      * by constructor.
Qed.

Lemma StronglySorted_sublist {A} (R : relation A) l1 l2 :
  l1 `sublist_of` l2 → StronglySorted R l2 → StronglySorted R l1.
Proof.
  induction 1 as [|x l1 l2 Hsub IH|x l1 l2 Hsub IH]; [done|..].
  - intros [Hl Hx]%StronglySorted_inv. constructor; [by apply IH|].
    apply Forall_forall. intros y Hy. rewrite Forall_forall in Hx.
    eapply Hx, elem_of_sublist; done.
  - intros [Hl Hx]%StronglySorted_inv. by apply IH.
Qed.

Lemma StronglySorted_strict (ks : list (Z * Z)) :
  StronglySorted (not_after tuple_lt) ks → NoDup ks →
  StronglySorted (λ a b, tuple_lt a b = true) ks.
Proof.
  induction 1 as [|k ks Hks IH Hk]; [constructor|].
  intros [Hnin Hnd]%NoDup_cons. constructor; [by apply IH|].
  apply Forall_forall. intros k' Hk'. rewrite Forall_forall in Hk.
  destruct (tuple_lt k k') eqn:E; [done|].
  destruct Hnin. by rewrite (tuple_lt_total k k' E (Hk _ Hk')).
Qed.

Lemma keys_of_sorted_hosts hosts :
  key_of <$> py_sorted_by_key ((λ h, (key_of h, h)) <$> hosts)
  = (py_sorted (λ a b : (Z * Z) * pyval, tuple_lt a.1 b.1)
       ((λ h, (key_of h, h)) <$> hosts)).*1.
Proof.
  unfold py_sorted_by_key.
  assert (Forall (λ p : (Z * Z) * pyval, key_of p.2 = p.1)
            (py_sorted (λ a b : (Z * Z) * pyval, tuple_lt a.1 b.1)
               ((λ h, (key_of h, h)) <$> hosts))) as Hall.
  { apply Forall_forall. intros [k h] Hin; simpl.
    rewrite elem_of_py_sorted in Hin.
    apply list_elem_of_fmap in Hin as (h' & [= -> ->] & _). done. }
  induction Hall as [|p l Hp _ IH]; [done|].
  rewrite !fmap_cons, Hp. by f_equal.
Qed.

Lemma sorted_hosts_strict hosts :
  NoDup (key_of <$> hosts) →
  StronglySorted (λ a b, tuple_lt a b = true)
    (key_of <$> py_sorted_by_key ((λ h, (key_of h, h)) <$> hosts)).
Proof.
  intros Hnd. rewrite keys_of_sorted_hosts. apply StronglySorted_strict.
  - apply (StronglySorted_fmap _
             (not_after (λ a b : (Z * Z) * pyval, tuple_lt a.1 b.1))); [done|].
    apply py_sorted_sorted; [apply keyed_lt_asym|apply keyed_lt_neg_trans].
  - rewrite py_sorted_perm, <-list_fmap_compose. done.
Qed.

Lemma StronglySorted_attachment out :
  StronglySorted (λ a b, tuple_lt a b = true) (attachment <$> out) →
  StronglySorted attached_before out.
Proof.
  induction out as [|hl out IH]; simpl; [constructor|].
  intros [Hl Hx]%StronglySorted_inv. constructor; [by apply IH|].
  by rewrite Forall_fmap in Hx.
Qed.

Lemma initialize_host_mapping_perm links hosts hosts' keys :
  mapM host_key hosts = Ok keys → NoDup keys → hosts ≡ₚ hosts' →
  initialize_host_mapping links hosts' = initialize_host_mapping links hosts.
Proof.
  intros Hkeys Hnd Hperm. unfold initialize_host_mapping.
  by rewrite (sorted_hosts_perm _ _ _ Hkeys Hnd Hperm).
Qed.

Lemma initialize_host_mapping_names links hosts keys out :
  mapM host_key hosts = Ok keys → NoDup keys →
  initialize_host_mapping links hosts = Ok out →
  (∀ i hl, out !! i = Some hl → host_name hl = host_label (Z.of_nat i + 1))
  ∧ StronglySorted attached_before out.
Proof.
  intros [Hr ->]%host_keys_readable Hnd. unfold initialize_host_mapping.
  destruct (build_switch_ports links) as [d|]; simpl; [|done].
  rewrite (sorted_hosts_readable _ Hr). simpl.
  destruct (for_each _ _ _) as [[acc c]|] eqn:Hloop; simpl; [|done].
  intros [= <-].
  apply mapping_loop in Hloop as (recs & -> & Hn & Hs). simpl. split.
  - intros i hl Hi. rewrite (Hn _ _ Hi). f_equal. lia.
  - apply StronglySorted_attachment.
    eapply StronglySorted_sublist; [exact Hs|].
    by apply sorted_hosts_strict.
Qed.

(** Whatever the keys, the records come out in ascending, possibly
    equal, [(switch, port)] order. *)
Lemma initialize_host_mapping_ascending links hosts out :
  initialize_host_mapping links hosts = Ok out →
  StronglySorted (not_after tuple_lt) (attachment <$> out).
Proof.
  unfold initialize_host_mapping.
  destruct (build_switch_ports links) as [d|]; simpl; [|done].
  destruct (sorted_hosts hosts) as [ordered|] eqn:Hsorted; simpl; [|done].
  destruct (for_each _ _ _) as [[acc c]|] eqn:Hloop; simpl; [|done].
  intros [= <-].
  apply mapping_loop in Hloop as (recs & -> & _ & Hs). simpl.
  eapply StronglySorted_sublist; [exact Hs|].
  unfold sorted_hosts in Hsorted.
  destruct (mapM host_key hosts) as [keys|] eqn:Hkeys; simpl in Hsorted; [|done].
  injection Hsorted as <-.
  apply host_keys_readable in Hkeys as [_ ->].
  rewrite zip_key_of, keys_of_sorted_hosts.
  apply (StronglySorted_fmap _
           (not_after (λ a b : (Z * Z) * pyval, tuple_lt a.1 b.1))); [done|].
  apply py_sorted_sorted; [apply keyed_lt_asym|apply keyed_lt_neg_trans].
Qed.

(** C4 (as the code has it).  For raw hosts whose [(attached switch,
    attached port)] keys are readable and pairwise distinct, both
    mappers return the same result for every permutation of the host
    list, they agree with each other, and the records they return are
    named [h1], [h2], ... in strictly ascending [(switch, port)]
    order. *)
Theorem host_naming_deterministic (links hosts hosts' : list pyval)
    (keys : list (Z * Z)) :
  mapM host_key hosts = Ok keys → NoDup keys → hosts ≡ₚ hosts' →
  initialize_host_mapping links hosts' = initialize_host_mapping links hosts
  ∧ filter_host_links links hosts' = filter_host_links links hosts
  ∧ filter_host_links links hosts = initialize_host_mapping links hosts
  ∧ ∀ out, initialize_host_mapping links hosts = Ok out →
      (∀ i hl, out !! i = Some hl → host_name hl = host_label (Z.of_nat i + 1))
      ∧ StronglySorted attached_before out.
Proof.
  intros Hkeys Hnd Hperm. repeat split.
  - by eapply initialize_host_mapping_perm.
  - rewrite !filter_host_links_initialize. by eapply initialize_host_mapping_perm.
  - apply filter_host_links_initialize.
  - by eapply initialize_host_mapping_names.
  - by eapply initialize_host_mapping_names.
Qed.

Lemma host_naming_deterministic_witness :
  let a := py_host "00:00:00:00:00:01" (PStr "1") (PStr "3") in
  let b := py_host "00:00:00:00:00:02" (PStr "2") (PStr "3") in
  let links := [py_of_raw_link (raw_link 1 1 2 1)] in
  initialize_host_mapping links [b; a] = initialize_host_mapping links [a; b]
  ∧ filter_host_links links [b; a] = filter_host_links links [a; b]
  ∧ filter_host_links links [a; b] = initialize_host_mapping links [a; b]
  ∧ ∀ out, initialize_host_mapping links [a; b] = Ok out →
      (∀ i hl, out !! i = Some hl → host_name hl = host_label (Z.of_nat i + 1))
      ∧ StronglySorted attached_before out.
Proof.
  intros a b links.
  apply (host_naming_deterministic links [a; b] [b; a] [(1, 3); (2, 3)]).
  - reflexivity.
  - apply (bool_decide_unpack _). vm_compute. reflexivity.
  - apply Permutation_swap.
Defined.

(** C4 as stated fails: two hosts seen on the same switch port are
    named in their order of arrival, so a permutation of the raw host
    list changes which MAC is [h1]. *)
Lemma host_naming_arrival_order :
  let a := py_host "00:00:00:00:00:01" (PStr "1") (PStr "3") in
  let b := py_host "00:00:00:00:00:02" (PStr "1") (PStr "3") in
  [a; b] ≡ₚ [b; a]
  ∧ initialize_host_mapping [] [a; b]
    = Ok [ {| host_name := "h1"; host_mac := Some (PStr "00:00:00:00:00:01");
              switch_dpid := 1; hl_port_no := 3 |};
           {| host_name := "h2"; host_mac := Some (PStr "00:00:00:00:00:02");
              switch_dpid := 1; hl_port_no := 3 |} ]
  ∧ initialize_host_mapping [] [b; a]
    = Ok [ {| host_name := "h1"; host_mac := Some (PStr "00:00:00:00:00:02");
              switch_dpid := 1; hl_port_no := 3 |};
           {| host_name := "h2"; host_mac := Some (PStr "00:00:00:00:00:01");
              switch_dpid := 1; hl_port_no := 3 |} ]
  ∧ initialize_host_mapping [] [a; b] ≠ initialize_host_mapping [] [b; a]
  ∧ filter_host_links [] [a; b] ≠ filter_host_links [] [b; a].
Proof.
  intros a b.
  assert (initialize_host_mapping [] [a; b] ≠ initialize_host_mapping [] [b; a]) as Hne.
  { intros H. vm_compute in H. discriminate H. }
  split; [apply Permutation_swap|].
  split; [vm_compute; reflexivity|].
  split; [vm_compute; reflexivity|].
  split; [exact Hne|].
  by rewrite !filter_host_links_initialize.
Qed.

(** ** Replay engine: link up and link down *)

Lemma attaches_pairs hl src dst :
  attaches hl src dst ↔
    (NStr (host_name hl), NInt (switch_dpid hl)) = (src, dst)
    ∨ (NStr (host_name hl), NInt (switch_dpid hl)) = (dst, src).
Proof. unfold attaches. split; intros [?|?]; [left|right|left|right]; naive_solver. Qed.

(** The fact loops find the first matching fact, if there is one. *)
Lemma find_switch_fact_None facts s d :
  find_switch_fact facts s d = None ↔
    ¬ ∃ fact, fact ∈ facts ∧ id_pair fact.1.1 fact.2.1 = id_pair s d.
Proof.
  induction facts as [|fact facts IH]; simpl.
  - split; [|done]. intros _ (? & ?%not_elem_of_nil & _). done.
  - destruct (decide _) as [Hj|Hj].
    + split; [done|]. intros []. exists fact. split; [left|done].
    + rewrite IH. split.
      * intros Hn (f & [->|Hf]%elem_of_cons & Hjf); [done|]. apply Hn. eauto.
      * intros Hn (f & Hf & Hjf). apply Hn. exists f. split; [by right|done].
Qed.

Lemma find_switch_fact_Some facts s d port :
  find_switch_fact facts s d = Some port ↔
    ∃ before fact after,
      facts = before ++ fact :: after
      ∧ Forall (λ f, id_pair f.1.1 f.2.1 ≠ id_pair s d) before
      ∧ id_pair fact.1.1 fact.2.1 = id_pair s d
      ∧ port = src_side_port fact s.
Proof.
  revert port. induction facts as [|fact facts IH]; intros port; simpl.
  - split; [done|]. intros (before & ? & ? & E & _). by destruct before.
  - destruct (decide _) as [Hj|Hj].
    + split.
      * intros [= <-]. exists [], fact, facts. by repeat split.
      * intros ([|f before] & fact' & after & E & Hb & Hj' & ->);
          simpl in E; injection E as <- ->.
        -- done.
        -- by apply Forall_cons in Hb as [? _].
    + rewrite IH. split.
      * intros (before & fact' & after & -> & Hb & Hj' & ->).
        exists (fact :: before), fact', after. split; [done|].
        split; [by constructor|done].
      * intros ([|f before] & fact' & after & E & Hb & Hj' & ->);
          simpl in E; injection E as <- ->; [done|].
        apply Forall_cons in Hb as [_ Hb]. by exists before, fact', after.
Qed.

Lemma find_host_fact_None snapshot src dst :
  find_host_fact snapshot src dst = None ↔
    ¬ ∃ hl, hl ∈ snapshot ∧ attaches hl src dst.
Proof.
  induction snapshot as [|hl snapshot IH]; simpl.
  - split; [|done]. intros _ (? & ?%not_elem_of_nil & _). done.
  - destruct (decide _) as [Hj|Hj].
    + split; [done|]. intros []. exists hl. split; [left|done].
    + rewrite IH. split.
      * intros Hn (f & [->|Hf]%elem_of_cons & Hjf); [done|]. apply Hn. eauto.
      * intros Hn (f & Hf & Hjf). apply Hn. exists f. split; [by right|done].
Qed.

Lemma find_host_fact_Some snapshot src dst port :
  find_host_fact snapshot src dst = Some port ↔
    ∃ before hl after,
      snapshot = before ++ hl :: after
      ∧ Forall (λ x, ¬ attaches x src dst) before
      ∧ attaches hl src dst
      ∧ port = hl_port_no hl.
Proof.
  revert port. induction snapshot as [|hl snapshot IH]; intros port; simpl.
  - split; [done|]. intros (before & ? & ? & E & _). by destruct before.
  - destruct (decide _) as [Hj|Hj].
    + split.
      * intros [= <-]. exists [], hl, snapshot. by repeat split.
      * intros ([|f before] & hl' & after & E & Hb & Hj' & ->);
          simpl in E; injection E as <- ->.
        -- done.
        -- by apply Forall_cons in Hb as [? _].
    + rewrite IH. split.
      * intros (before & hl' & after & -> & Hb & Hj' & ->).
        exists (hl :: before), hl', after. split; [done|].
        split; [by constructor|done].
      * intros ([|f before] & hl' & after & E & Hb & Hj' & ->);
          simpl in E; injection E as <- ->; [done|].
        apply Forall_cons in Hb as [_ Hb]. by exists before, hl', after.
Qed.

(** No fact pairs two host names: a record's switch id is an integer. *)
Lemma find_host_fact_two_hosts snapshot h1 h2 :
  find_host_fact snapshot (NStr h1) (NStr h2) = None.
Proof.
  apply find_host_fact_None. intros (hl & _ & [[_ ?]|[_ ?]]); done.
Qed.

Lemma lookup_fact_None facts snapshot src dst :
  lookup_fact facts snapshot src dst = None ↔ ¬ in_ground_truth facts snapshot src dst.
Proof.
  unfold lookup_fact, in_ground_truth.
  destruct src, dst; rewrite ?find_switch_fact_None, ?find_host_fact_None; try done;
    by setoid_rewrite attaches_pairs.
Qed.

(** C1. When the ground-truth facts are captured and the edge between
    the two parsed endpoints is not among them, [add_link] returns the
    replay state as it was (graph nodes and edges, tracked links and
    host links) and prints the "not connected in original topology"
    message. *)
Theorem add_link_rejects_unknown_edge (st : Replay) (source destination : string)
    (src dst : node) (facts : list CanonLink) (snapshot : list HostLink) :
  parse_endpoint source = Ok src →
  parse_endpoint destination = Ok dst →
  ¬ in_ground_truth facts snapshot src dst →
  add_link st source destination (Some facts) snapshot
    = Ok (st, [NotConnected (node_type src) src (node_type dst) dst]).
Proof.
  intros Hsrc Hdst Hgt%lookup_fact_None. unfold add_link. rewrite Hsrc, Hdst. simpl.
  unfold lookup_fact in Hgt. destruct src, dst; simpl; by rewrite Hgt.
Qed.

Lemma add_link_rejects_unknown_edge_witness :
  add_link scenario "1" "3" (Some scenario_facts) scenario_hosts
    = Ok (scenario, [NotConnected "switch" (NInt 1) "switch" (NInt 3)]).
Proof.
  apply (add_link_rejects_unknown_edge scenario "1" "3" (NInt 1) (NInt 3)).
  - reflexivity.
  - reflexivity.
  - apply lookup_fact_None. vm_compute. reflexivity.
Defined.

(** Without captured facts ([initial_switch_links] still [None]) a
    switch-to-switch link-up does not reject: it raises. *)
Lemma add_link_without_facts st source destination s d snapshot :
  parse_endpoint source = Ok (NInt s) →
  parse_endpoint destination = Ok (NInt d) →
  add_link st source destination None snapshot = Raise TypeError.
Proof. intros Hs Hd. unfold add_link. by rewrite Hs, Hd. Qed.

(** A token that is neither a host name nor an integer changes nothing. *)
Lemma add_link_invalid_input st source destination facts snapshot :
  parse_endpoint source = Raise ValueError ∨
  (∃ src, parse_endpoint source = Ok src) ∧ parse_endpoint destination = Raise ValueError →
  add_link st source destination facts snapshot = Ok (st, [InvalidInput]).
Proof.
  unfold add_link. intros [->|[[src ->] ->]]; done.
Qed.

(** What a valid link-up does to the replay state. *)
Lemma add_link_valid st source destination src dst facts snapshot :
  parse_endpoint source = Ok src →
  parse_endpoint destination = Ok dst →
  in_ground_truth facts snapshot src dst →
  ∃ port, lookup_fact facts snapshot src dst = Some port ∧
    add_link st source destination (Some facts) snapshot =
      Ok (match src, dst with
          | NInt s, NInt d =>
              let links' := links st ++ [((s, Some port), (d, None))] in
              {| G := visualize_topology (add_edge src dst (G st))
                        (switches st) links' (host_links st);
                 switches := switches st; links := links';
                 host_links := host_links st |}
          | NStr h, NInt sw | NInt sw, NStr h =>
              let host_links' :=
                host_links st ++ [{| host_name := h; host_mac := None;
                                     switch_dpid := sw; hl_port_no := port |}] in
              {| G := visualize_topology (add_edge src dst (G st))
                        (switches st) (links st) host_links';
                 switches := switches st; links := links st;
                 host_links := host_links' |}
          | NStr _, NStr _ => st
          end, [LinkAdded src dst]).
Proof.
  intros Hsrc Hdst Hgt.
  destruct (lookup_fact facts snapshot src dst) as [port|] eqn:Hl;
    [|by apply lookup_fact_None in Hl].
  exists port. split; [done|].
  unfold add_link. rewrite Hsrc, Hdst. simpl. unfold lookup_fact in Hl.
  destruct src as [s|h], dst as [d|h']; simpl; rewrite Hl; simpl; try done.
  by rewrite find_host_fact_two_hosts in Hl.
Qed.

(** C8 (as the code has it).  A valid link-up between two switches
    appends [((src, p), (dst, None))], where [p] is the port that the
    first matching fact records on the [src] side: the port of the
    [dst] side is not kept.  A valid link-up between a host and a
    switch appends the first matching record of the host-links
    snapshot, port included, without its MAC. *)
Theorem add_link_reconstructed_record (st : Replay) (source destination : string)
    (src dst : node) (facts : list CanonLink) (snapshot : list HostLink) :
  parse_endpoint source = Ok src →
  parse_endpoint destination = Ok dst →
  in_ground_truth facts snapshot src dst →
  ∃ st', add_link st source destination (Some facts) snapshot
           = Ok (st', [LinkAdded src dst])
    ∧ match src, dst with
      | NInt s, NInt d =>
          ∃ before fact after,
            facts = before ++ fact :: after
            ∧ Forall (λ f, id_pair f.1.1 f.2.1 ≠ id_pair s d) before
            ∧ id_pair fact.1.1 fact.2.1 = id_pair s d
            ∧ links st' = links st ++ [((s, Some (src_side_port fact s)), (d, None))]
            ∧ host_links st' = host_links st
      | _, _ =>
          ∃ before hl after,
            snapshot = before ++ hl :: after
            ∧ Forall (λ x, ¬ attaches x src dst) before
            ∧ attaches hl src dst
            ∧ host_links st' = host_links st ++ [without_mac hl]
            ∧ links st' = links st
      end.
Proof.
  intros Hsrc Hdst Hgt.
  destruct (add_link_valid st _ _ _ _ _ _ Hsrc Hdst Hgt) as (port & Hl & ->).
  eexists. split; [done|]. unfold lookup_fact in Hl.
  destruct src as [s|h], dst as [d|h']; simpl.
  - apply find_switch_fact_Some in Hl as (before & fact & after & -> & Hb & Hj & ->).
    by exists before, fact, after.
  - apply find_host_fact_Some in Hl as (before & hl & after & -> & Hb & Hj & ->).
    exists before, hl, after. repeat split; try done.
    unfold without_mac. destruct Hj as [[[= ?] [= ?]]|[[= ?] [= ?]]]. by subst.
  - apply find_host_fact_Some in Hl as (before & hl & after & -> & Hb & Hj & ->).
    exists before, hl, after. repeat split; try done.
    unfold without_mac. destruct Hj as [[[= ?] [= ?]]|[[= ?] [= ?]]]. by subst.
  - by rewrite find_host_fact_two_hosts in Hl.
Qed.

Lemma add_link_reconstructed_record_witness :
  ∃ st', add_link scenario "2" "1" (Some scenario_facts) scenario_hosts
           = Ok (st', [LinkAdded (NInt 2) (NInt 1)])
    ∧ ∃ before fact after,
        scenario_facts = before ++ fact :: after
        ∧ Forall (λ f, id_pair f.1.1 f.2.1 ≠ id_pair 2 1) before
        ∧ id_pair fact.1.1 fact.2.1 = id_pair 2 1
        ∧ links st' = links scenario ++ [((2, Some (src_side_port fact 2)), (1, None))]
        ∧ host_links st' = host_links scenario.
Proof.
  apply (add_link_reconstructed_record scenario "2" "1" (NInt 2) (NInt 1)).
  - reflexivity.
  - reflexivity.
  - exists ((1, 1), (2, 1)). split; [by left|]. vm_compute. reflexivity.
Defined.

(** C8 as stated fails for two switches: the appended record does not
    carry the port information of the matching fact, since the port of
    the destination side is replaced by [None]. *)
Lemma add_link_drops_dst_port :
  (λ r : Replay * list output, links r.1)
    <$> add_link scenario "1" "2" (Some scenario_facts) scenario_hosts
    = Ok [((1, Some 1), (2, Some 1)); ((1, Some 1), (2, None))]
  ∧ find_switch_fact scenario_facts 1 2 = Some 1
  ∧ ¬ same_port_information ((1, Some 1), (2, None)) ((1, 1), (2, 1)).
Proof.
  split; [vm_compute; reflexivity|].
  split; [vm_compute; reflexivity|].
  intros [H|H]; discriminate H.
Qed.

(** ** Link down *)

(** C10. A link-down between two switches that are joined in the graph
    keeps exactly the tracked link records whose unordered pair of
    switch ids differs from the removed pair, whatever their ports: all
    parallel records between the two switches go at once.  The host
    links are left alone. *)
Theorem remove_link_drops_all_parallel (st : Replay) (source destination : string)
    (s d : Z) (all_hosts : list string) :
  parse_endpoint source = Ok (NInt s) →
  parse_endpoint destination = Ok (NInt d) →
  has_edge (G st) (NInt s) (NInt d) →
  ∃ st', remove_link st source destination all_hosts
           = Ok (st', [LinkRemoved (NInt s) (NInt d)])
    ∧ links st' = filter (λ l, id_pair l.1.1 l.2.1 ≠ id_pair s d) (links st)
    ∧ (∀ l, l ∈ links st' ↔ l ∈ links st ∧ id_pair l.1.1 l.2.1 ≠ id_pair s d)
    ∧ (∀ p1 p2 q1 q2,
         (((s, p1), (d, p2)) ∉ links st') ∧ (((d, q1), (s, q2)) ∉ links st'))
    ∧ host_links st' = host_links st
    ∧ switches st' = switches st.
Proof.
  intros Hs Hd He. unfold remove_link. rewrite Hs, Hd. simpl.
  destruct (has_edge (G st) (NInt s) (NInt d)); [|done].
  eexists. split; [done|]. simpl. split; [done|]. split; [|split; [|done]].
  - intros l. by rewrite list_elem_of_filter, (comm and).
  - intros p1 p2 q1 q2. rewrite !list_elem_of_filter. unfold joins, id_pair. simpl.
    split; intros [Hne _]; apply Hne; set_solver.
Qed.

Lemma remove_link_drops_all_parallel_witness :
  ∃ st', remove_link parallel_scenario "1" "2" ["h1"; "h2"]
           = Ok (st', [LinkRemoved (NInt 1) (NInt 2)])
    ∧ links st' = filter (λ l, id_pair l.1.1 l.2.1 ≠ id_pair 1 2) (links parallel_scenario)
    ∧ (∀ l, l ∈ links st' ↔ l ∈ links parallel_scenario ∧ id_pair l.1.1 l.2.1 ≠ id_pair 1 2)
    ∧ (∀ p1 p2 q1 q2,
         (((1, p1), (2, p2)) ∉ links st') ∧ (((2, q1), (1, q2)) ∉ links st'))
    ∧ host_links st' = host_links parallel_scenario
    ∧ switches st' = switches parallel_scenario.
Proof.
  apply (remove_link_drops_all_parallel parallel_scenario "1" "2" 1 2 ["h1"; "h2"]).
  - reflexivity.
  - reflexivity.
  - vm_compute. exact I.
Defined.

(** Both parallel records of [parallel_scenario] go with one link-down. *)
Lemma remove_link_parallel_example :
  (λ r : Replay * list output, links r.1)
    <$> remove_link parallel_scenario "1" "2" ["h1"; "h2"] = Ok [].
Proof. vm_compute. reflexivity. Qed.

(** ** The graph drawn from the tracked collections *)

Lemma graph_eq g1 g2 : nodes g1 = nodes g2 → adj g1 = adj g2 → g1 = g2.
Proof. destruct g1, g2; simpl; by intros -> ->. Qed.

Lemma add_node_known n g : n ∈ nodes g → add_node n g = g.
Proof. intros Hn. apply graph_eq; simpl; [set_solver|done]. Qed.

(** The last loop of [visualize_topology] adds nodes that are already
    there: it leaves the graph as it is. *)
Lemma isolated_hosts_loop g ns :
  (∀ n, n ∈ ns → n ∈ nodes g) →
  foldl (λ g' n,
           if is_host_node n && bool_decide (elements (neighbors g' n) = [])
           then add_node n g' else g') g ns = g.
Proof.
  induction ns as [|n ns IH]; intros Hns; simpl; [done|].
  assert (n ∈ nodes g) as Hn by (apply Hns; left).
  rewrite (add_node_known n g Hn).
  destruct (_ && _); apply IH; intros n' Hn'; apply Hns; by right.
Qed.

Lemma add_nodes_from_spec ns g :
  nodes (add_nodes_from ns g) = nodes g ∪ list_to_set ns
  ∧ adj (add_nodes_from ns g) = adj g.
Proof.
  unfold add_nodes_from. revert g.
  induction ns as [|n ns IH]; intros g; simpl.
  - split; [set_solver|done].
  - destruct (IH (add_node n g)) as [-> ->]. simpl. split; [set_solver|done].
Qed.

Lemma add_edges_from_app es1 es2 g :
  add_edges_from (es1 ++ es2) g = add_edges_from es2 (add_edges_from es1 g).
Proof. unfold add_edges_from. by rewrite foldl_app. Qed.

Lemma elem_of_adj_add_edges_from es g e :
  e ∈ adj (add_edges_from es g) ↔ e ∈ adj g ∨ ∃ e0, e0 ∈ es ∧ same_edge e e0.
Proof.
  unfold add_edges_from, same_edge. revert g.
  induction es as [|[u v] es IH]; intros g; simpl.
  - split; [by left|]. intros [?|(? & ?%not_elem_of_nil & _)]; done.
  - rewrite IH. simpl. rewrite !elem_of_union, !elem_of_singleton. split.
    + intros [[He|[->| ->]]|(e0 & He0 & Hs)].
      * by left.
      * right. exists (u, v). split; [left|by left].
      * right. exists (u, v). split; [left|by right].
      * right. exists e0. split; [by right|done].
    + intros [He|(e0 & [->|He0]%elem_of_cons & Hs)].
      * by left; left.
      * left; right. destruct Hs as [->| ->]; [by left|by right].
      * right. by exists e0.
Qed.

Lemma elem_of_nodes_add_edges_from es g n :
  n ∈ nodes (add_edges_from es g) ↔
    n ∈ nodes g ∨ ∃ e0, e0 ∈ es ∧ (n = e0.1 ∨ n = e0.2).
Proof.
  unfold add_edges_from. revert g.
  induction es as [|[u v] es IH]; intros g; simpl.
  - split; [by left|]. intros [?|(? & ?%not_elem_of_nil & _)]; done.
  - rewrite IH. simpl. rewrite !elem_of_union, !elem_of_singleton. split.
    + intros [[Hn|[->| ->]]|(e0 & He0 & Hs)].
      * by left.
      * right. exists (u, v). split; [left|by left].
      * right. exists (u, v). split; [left|by right].
      * right. exists e0. split; [by right|done].
    + intros [Hn|(e0 & [->|He0]%elem_of_cons & Hs)].
      * by left; left.
      * left; right. simpl in Hs. destruct Hs as [->| ->]; [by left|by right].
      * right. by exists e0.
Qed.

Lemma host_links_loop hls g :
  foldl (λ g hl,
           let host_node := NStr (host_name hl) in
           let switch_node := NInt (switch_dpid hl) in
           add_edge switch_node host_node (add_node host_node g)) g hls
  = add_edges_from (host_edge <$> hls) g.
Proof.
  unfold add_edges_from. revert g.
  induction hls as [|hl hls IH]; intros g; simpl; [done|].
  rewrite IH. f_equal. apply graph_eq; simpl; [set_solver|done].
Qed.

(** The graph after [visualize_topology]: the switches as nodes, then
    one edge per tracked record. *)
Lemma visualize_topology_spec g sw lks hls :
  visualize_topology g sw lks hls
  = add_edges_from (topology_edges lks hls) (add_nodes_from sw empty_graph).
Proof.
  unfold visualize_topology, topology_edges.
  rewrite isolated_hosts_loop.
  - by rewrite host_links_loop, add_edges_from_app.
  - intros n. by rewrite elem_of_elements.
Qed.

Lemma visualize_topology_clears g g' sw lks hls :
  visualize_topology g sw lks hls = visualize_topology g' sw lks hls.
Proof. by rewrite !visualize_topology_spec. Qed.

Lemma elem_of_adj_visualize g sw lks hls e :
  e ∈ adj (visualize_topology g sw lks hls) ↔
    ∃ e0, e0 ∈ topology_edges lks hls ∧ same_edge e e0.
Proof.
  rewrite visualize_topology_spec, elem_of_adj_add_edges_from.
  destruct (add_nodes_from_spec sw empty_graph) as [_ ->]. simpl.
  split; [intros [?%not_elem_of_empty|?]; done|by right].
Qed.

Lemma elem_of_nodes_visualize g sw lks hls n :
  n ∈ nodes (visualize_topology g sw lks hls) ↔
    n ∈ sw ∨ ∃ e, e ∈ adj (visualize_topology g sw lks hls) ∧ e.1 = n.
Proof.
  setoid_rewrite elem_of_adj_visualize.
  rewrite visualize_topology_spec, elem_of_nodes_add_edges_from.
  destruct (add_nodes_from_spec sw empty_graph) as [-> _]. simpl.
  rewrite elem_of_union, elem_of_list_to_set. split.
  - intros [[?%not_elem_of_empty|?]|(e0 & He0 & [->| ->])]; [done|by left|..].
    + right. exists e0. split; [|done]. exists e0. split; [done|by left].
    + right. exists (e0.2, e0.1). split; [|done]. exists e0. split; [done|by right].
  - intros [?|(e & (e0 & He0 & [->| ->]) & <-)].
    + by left; right.
    + right. exists e0. split; [done|by left].
    + right. exists e0. split; [done|by right].
Qed.

(** Rebuild completeness: every switch is a node, every host is a node
    joined to its switch. *)
Lemma visualize_topology_complete g sw lks hls :
  (∀ n, n ∈ sw → has_node (visualize_topology g sw lks hls) n)
  ∧ (∀ hl, hl ∈ hls →
       has_node (visualize_topology g sw lks hls) (NStr (host_name hl))
       ∧ has_edge (visualize_topology g sw lks hls)
           (NInt (switch_dpid hl)) (NStr (host_name hl))
       ∧ has_edge (visualize_topology g sw lks hls)
           (NStr (host_name hl)) (NInt (switch_dpid hl))).
Proof.
  split.
  - intros n Hn. apply bool_decide_pack, elem_of_nodes_visualize. by left.
  - intros hl Hhl.
    assert (host_edge hl ∈ topology_edges lks hls) as Hin.
    { unfold topology_edges. apply elem_of_app. right. by apply list_elem_of_fmap_2. }
    assert ((NStr (host_name hl), NInt (switch_dpid hl))
              ∈ adj (visualize_topology g sw lks hls)) as Hback.
    { apply elem_of_adj_visualize. exists (host_edge hl). split; [done|by right]. }
    repeat split; apply bool_decide_pack; [|by (apply elem_of_adj_visualize;
      exists (host_edge hl); split; [done|by left])|done].
    apply elem_of_nodes_visualize. right. by eexists.
Qed.

(** Two edge lists that differ by dropping every record of one edge and
    listing that edge once again draw the same graph, when the edge was
    drawn to begin with. *)
Lemma redraw_same_graph g g' sw lks hls lks' hls' (u v : node) :
  (u, v) ∈ adj (visualize_topology g sw lks hls) →
  (∀ e, e ∈ topology_edges lks' hls' ↔
        (e ∈ topology_edges lks hls ∧ ¬ same_edge e (u, v)) ∨ e = (u, v)) →
  nodes (visualize_topology g' sw lks' hls') = nodes (visualize_topology g sw lks hls)
  ∧ adj (visualize_topology g' sw lks' hls') = adj (visualize_topology g sw lks hls).
Proof.
  intros Huv Hes.
  assert (adj (visualize_topology g' sw lks' hls') = adj (visualize_topology g sw lks hls))
    as Hadj.
  { apply set_eq. intros e.
    apply elem_of_adj_visualize in Huv as (e1 & He1 & Huv).
    rewrite !elem_of_adj_visualize. split.
    - intros (e0 & [[He0 _]| ->]%Hes & Hs); [by exists e0|].
      exists e1. split; [done|].
      destruct e1 as [a b]. unfold same_edge in *. simpl in *.
      destruct Hs as [->| ->], Huv as [[= -> ->]|[= -> ->]];
        [by left|by right|by right|by left].
    - intros (e0 & He0 & Hs).
      destruct (decide (same_edge e0 (u, v))) as [Huv'|Huv'].
      + exists (u, v). split; [apply Hes; by right|].
        destruct Hs as [->| ->], Huv' as [->| ->]; simpl;
          first [by left|by right].
      + exists e0. split; [|done]. apply Hes. by left. }
  split; [|done].
  apply set_eq. intros n. rewrite !elem_of_nodes_visualize. by rewrite Hadj.
Qed.

(** ** Link down followed by link up *)

Lemma id_pair_eq a b s d :
  id_pair a b = id_pair s d ↔ (a = s ∧ b = d) ∨ (a = d ∧ b = s).
Proof.
  unfold id_pair. split.
  - intros H.
    assert (a ∈ ({[s; d]} : gset Z)) as Ha by (rewrite <-H; set_solver).
    assert (b ∈ ({[s; d]} : gset Z)) as Hb by (rewrite <-H; set_solver).
    assert (s ∈ ({[a; b]} : gset Z)) as Hs by (rewrite H; set_solver).
    assert (d ∈ ({[a; b]} : gset Z)) as Hd by (rewrite H; set_solver).
    set_solver.
  - intros [[-> ->]|[-> ->]]; set_solver.
Qed.

Lemma joins_same_edge l s d :
  joins l s d ↔ same_edge (link_edge l) (NInt s, NInt d).
Proof.
  unfold joins, same_edge, link_edge. rewrite id_pair_eq. simpl.
  split; intros [H|H]; [left|right|left|right]; naive_solver.
Qed.

Lemma attaches_same_edge hl src dst h sw :
  (src, dst) = (NStr h, NInt sw) ∨ (src, dst) = (NInt sw, NStr h) →
  attaches hl src dst ↔ same_edge (host_edge hl) (NInt sw, NStr h).
Proof.
  unfold attaches, same_edge, host_edge. simpl.
  intros [[= -> ->]|[= -> ->]]; split; intros [H|H]; naive_solver.
Qed.

Lemma host_edge_not_switch_edge hl s d :
  ¬ same_edge (host_edge hl) (NInt s, NInt d).
Proof. intros [H|H]; discriminate H. Qed.

Lemma link_edge_not_host_edge l sw h :
  ¬ same_edge (link_edge l) (NInt sw, NStr h).
Proof. intros [H|H]; discriminate H. Qed.

Lemma topology_edges_switch_relinked lks hls s d port e :
  e ∈ topology_edges (filter (λ l, ¬ joins l s d) lks ++ [((s, Some port), (d, None))]) hls
  ↔ (e ∈ topology_edges lks hls ∧ ¬ same_edge e (NInt s, NInt d)) ∨ e = (NInt s, NInt d).
Proof.
  unfold topology_edges.
  rewrite fmap_app, !elem_of_app, !list_elem_of_fmap. simpl.
  setoid_rewrite list_elem_of_filter. setoid_rewrite list_elem_of_singleton.
  split.
  - intros [[(l & -> & Hj & Hl)|(l & -> & ->)]|(hl & -> & Hhl)].
    + left. split; [left; by exists l|]. by rewrite <-joins_same_edge.
    + by right.
    + left. split; [right; by exists hl|]. apply host_edge_not_switch_edge.
  - intros [[Hin Hne]| ->];
      [|left; right; by exists ((s, Some port), (d, None))].
    destruct Hin as [(l & -> & Hl)|(hl & -> & Hhl)].
    + left; left. exists l. split; [done|]. split; [|done].
      by rewrite joins_same_edge.
    + right. by exists hl.
Qed.

Lemma topology_edges_host_relinked lks hls src dst h sw port e :
  (src, dst) = (NStr h, NInt sw) ∨ (src, dst) = (NInt sw, NStr h) →
  e ∈ topology_edges lks
        (filter (λ hl, ¬ attaches hl src dst) hls
         ++ [{| host_name := h; host_mac := None; switch_dpid := sw; hl_port_no := port |}])
  ↔ (e ∈ topology_edges lks hls ∧ ¬ same_edge e (NInt sw, NStr h)) ∨ e = (NInt sw, NStr h).
Proof.
  intros Hshape. unfold topology_edges.
  rewrite fmap_app, !elem_of_app, !list_elem_of_fmap. simpl.
  setoid_rewrite list_elem_of_filter. setoid_rewrite list_elem_of_singleton.
  split.
  - intros [(l & -> & Hl)|[(hl & -> & Hj & Hhl)|(hl & -> & ->)]].
    + left. split; [left; by exists l|]. apply link_edge_not_host_edge.
    + left. split; [right; by exists hl|].
      by rewrite <-(attaches_same_edge _ _ _ _ _ Hshape).
    + by right.
  - intros [[Hin Hne]| ->];
      [|right; right;
        by exists {| host_name := h; host_mac := None; switch_dpid := sw;
                     hl_port_no := port |}].
    destruct Hin as [(l & -> & Hl)|(hl & -> & Hhl)].
    + left. by exists l.
    + right; left. exists hl. split; [done|]. split; [|done].
      by rewrite (attaches_same_edge _ _ _ _ _ Hshape).
Qed.

(** The replay invariant holds at the start and after each operation. *)
Lemma replay_of_in_sync sw lks hls : in_sync (replay_of sw lks hls).
Proof. unfold in_sync, replay_of. simpl. apply visualize_topology_clears. Qed.

Lemma remove_link_in_sync st source destination all_hosts st' out :
  in_sync st →
  remove_link st source destination all_hosts = Ok (st', out) → in_sync st'.
Proof.
  intros Hsync. unfold remove_link.
  destruct (parse_endpoint source) as [src|[]]; simpl;
    try (intros [= <- _]; done); try done.
  destruct (parse_endpoint destination) as [dst|[]]; simpl;
    try (intros [= <- _]; done); try done.
  destruct (has_edge (G st) src dst); [|by intros [= <- _]].
  destruct src, dst; simpl; intros [= <- _]; unfold in_sync; simpl;
    apply visualize_topology_clears.
Qed.

Lemma add_link_in_sync st source destination facts snapshot st' out :
  in_sync st →
  add_link st source destination facts snapshot = Ok (st', out) → in_sync st'.
Proof.
  intros Hsync. unfold add_link.
  destruct (parse_endpoint source) as [src|[]]; simpl;
    try (intros [= <- _]; done); try done.
  destruct (parse_endpoint destination) as [dst|[]]; simpl;
    try (intros [= <- _]; done); try done.
  destruct src as [s|h], dst as [d|h']; simpl.
  - destruct facts as [facts|]; simpl; [|done].
    destruct (find_switch_fact facts s d); simpl; intros [= <- _]; [|done].
    unfold in_sync; simpl. apply visualize_topology_clears.
  - destruct (find_host_fact _ _ _); simpl; intros [= <- _]; [|done].
    unfold in_sync; simpl. apply visualize_topology_clears.
  - destruct (find_host_fact _ _ _); simpl; intros [= <- _]; [|done].
    unfold in_sync; simpl. apply visualize_topology_clears.
  - destruct (find_host_fact _ _ _); simpl; by intros [= <- _].
Qed.

(** Every state of a replay session is in sync. *)
Lemma replay_state_in_sync facts snapshot st :
  replay_state facts snapshot st → in_sync st.
Proof.
  induction 1 as [sw lks hls|st ? ? ? st' out _ IH Hdown|st ? ? st' out _ IH Hup].
  - apply replay_of_in_sync.
  - by eapply remove_link_in_sync.
  - by eapply add_link_in_sync.
Qed.

(** C7. In the replay loop, where the graph is the one drawn from the
    tracked collections, a link-down of an edge that is in the graph
    and among the ground-truth facts, followed by a link-up of the same
    edge, both succeed and give back the node set and the edge set the
    graph had before. *)
Theorem link_down_then_up_restores (st : Replay) (source destination : string)
    (src dst : node) (facts : list CanonLink) (snapshot : list HostLink)
    (all_hosts : list string) :
  in_sync st →
  parse_endpoint source = Ok src →
  parse_endpoint destination = Ok dst →
  in_ground_truth facts snapshot src dst →
  has_edge (G st) src dst →
  ∃ st1 st2,
    remove_link st source destination all_hosts = Ok (st1, [LinkRemoved src dst])
    ∧ add_link st1 source destination (Some facts) snapshot
        = Ok (st2, [LinkAdded src dst])
    ∧ nodes (G st2) = nodes (G st)
    ∧ adj (G st2) = adj (G st).
Proof.
  intros Hsync Hsrc Hdst Hgt He.
  assert (∃ st1, remove_link st source destination all_hosts
                   = Ok (st1, [LinkRemoved src dst])
            ∧ switches st1 = switches st
            ∧ match src, dst with
              | NInt s, NInt d =>
                  links st1 = filter (λ l, ¬ joins l s d) (links st)
                  ∧ host_links st1 = host_links st
              | _, _ =>
                  links st1 = links st
                  ∧ host_links st1 = filter (λ hl, ¬ attaches hl src dst) (host_links st)
              end) as (st1 & Hdown & Hsw & Hcoll).
  { unfold remove_link. rewrite Hsrc, Hdst. simpl.
    destruct (has_edge (G st) src dst); [|done].
    destruct src, dst; simpl; eexists; (split; [done|]); by simpl. }
  destruct (add_link_valid st1 _ _ _ _ _ _ Hsrc Hdst Hgt) as (port & Hl & Hup).
  exists st1. eexists. split; [done|]. split; [exact Hup|].
  apply bool_decide_unpack in He. rewrite Hsync in He. rewrite Hsync.
  destruct src as [s|h], dst as [d|h']; simpl.
  - destruct Hcoll as [-> ->]. rewrite Hsw.
    eapply redraw_same_graph; [exact He|].
    intros e. apply topology_edges_switch_relinked.
  - destruct Hcoll as [-> ->]. rewrite Hsw.
    eapply (redraw_same_graph _ _ _ _ _ _ _ (NInt s) (NStr h')); [exact He|].
    intros e. apply topology_edges_host_relinked. by right.
  - destruct Hcoll as [-> ->]. rewrite Hsw.
    eapply (redraw_same_graph _ _ _ _ _ _ _ (NInt d) (NStr h)).
    + apply elem_of_adj_visualize in He as (e0 & He0 & Hs).
      apply elem_of_adj_visualize. exists e0. split; [done|].
      destruct e0 as [a b]. unfold same_edge in *. simpl in *.
      destruct Hs as [[= <- <-]|[= <- <-]]; [by right|by left].
    + intros e. apply topology_edges_host_relinked. by left.
  - unfold lookup_fact in Hl. by rewrite find_host_fact_two_hosts in Hl.
Qed.

Lemma link_down_then_up_restores_witness :
  ∃ st1 st2,
    remove_link scenario "h1" "1" ["h1"; "h2"]
      = Ok (st1, [LinkRemoved (NStr "h1") (NInt 1)])
    ∧ add_link st1 "h1" "1" (Some scenario_facts) scenario_hosts
        = Ok (st2, [LinkAdded (NStr "h1") (NInt 1)])
    ∧ nodes (G st2) = nodes (G scenario)
    ∧ adj (G st2) = adj (G scenario).
Proof.
  apply (link_down_then_up_restores scenario "h1" "1" (NStr "h1") (NInt 1)).
  - apply replay_of_in_sync.
  - reflexivity.
  - reflexivity.
  - eexists. split; [by left|]. left. reflexivity.
  - vm_compute. exact I.
Defined.

(** ** Reachability *)

Lemma elem_of_expand g seen v :
  v ∈ expand g seen ↔ v ∈ seen ∨ ∃ u, u ∈ seen ∧ (u, v) ∈ adj g.
Proof.
  unfold expand. rewrite elem_of_union, elem_of_map.
  setoid_rewrite elem_of_filter. split.
  - intros [?|([a b] & -> & Ha & Hab)]; [by left|right]. by exists a.
  - intros [?|(u & Hu & Huv)]; [by left|right]. by exists (u, v).
Qed.

Lemma expand_incl g seen : seen ⊆ expand g seen.
Proof. intros v Hv. apply elem_of_expand. by left. Qed.

Lemma search_incl k g seen : seen ⊆ search k g seen.
Proof.
  revert seen. induction k as [|k IH]; intros seen; simpl; [done|].
  etrans; [apply expand_incl|apply IH].
Qed.

Lemma search_sound k g seen v :
  v ∈ search k g seen → ∃ u, u ∈ seen ∧ rtc (edge_rel g) u v.
Proof.
  revert seen. induction k as [|k IH]; intros seen; simpl.
  - intros Hv. by exists v.
  - intros (u' & [Hu'|(u & Hu & Huu')]%elem_of_expand & Hpath)%IH.
    + by exists u'.
    + exists u. split; [done|]. by eapply rtc_l.
Qed.

Lemma search_fixed k g seen : expand g seen = seen → search k g seen = seen.
Proof. intros Hfix. induction k as [|k IH]; simpl; [done|]. by rewrite Hfix. Qed.

Lemma closed_under_paths g (seen : gset node) u v :
  expand g seen = seen → u ∈ seen → rtc (edge_rel g) u v → v ∈ seen.
Proof.
  intros Hfix Hu Hpath. induction Hpath as [|u w v Huw _ IH]; [done|].
  apply IH. rewrite <-Hfix. apply elem_of_expand. right. by exists u.
Qed.

(** Each round either finds a new node or the search is over. *)
Lemma search_progress k g seen :
  expand g (search k g seen) = search k g seen
  ∨ (size seen + k ≤ size (search k g seen))%nat.
Proof.
  revert seen. induction k as [|k IH]; intros seen; simpl.
  - right. lia.
  - destruct (decide (expand g seen = seen)) as [Hfix|Hne].
    + left. rewrite Hfix, search_fixed by done. done.
    + destruct (IH (expand g seen)) as [?|Hsize]; [by left|right].
      assert (seen ⊂ expand g seen) as Hlt.
      { split; [apply expand_incl|]. intros Hsub. apply Hne.
        apply set_eq. intros x. split; [apply Hsub|apply expand_incl]. }
      apply subset_size in Hlt. lia.
Qed.

Lemma size_list_to_set_le (l : list node) :
  (size (list_to_set l : gset node) ≤ length l)%nat.
Proof.
  induction l as [|x l IH].
  - by rewrite list_to_set_nil, size_empty.
  - rewrite list_to_set_cons, size_union_alt, size_singleton. simpl.
    assert (size ((list_to_set l : gset node) ∖ {[x]}) ≤ size (list_to_set l : gset node))%nat
      by (apply subseteq_size; set_solver).
    lia.
Qed.

Lemma search_bound k g seen :
  search k g seen ⊆ seen ∪ set_map snd (adj g).
Proof.
  revert seen. induction k as [|k IH]; intros seen; simpl; [set_solver|].
  etrans; [apply IH|]. intros v [Hv|Hv]%elem_of_union; [|set_solver].
  apply elem_of_expand in Hv as [?|(u & _ & Huv)]; [set_solver|].
  apply elem_of_union_r, elem_of_map. by exists (u, v).
Qed.

Lemma search_complete g u :
  expand g (search (S (size (adj g))) g {[ u ]}) = search (S (size (adj g))) g {[ u ]}.
Proof.
  destruct (search_progress (S (size (adj g))) g {[ u ]}) as [?|Hsize]; [done|].
  exfalso.
  pose proof (subseteq_size _ _ (search_bound (S (size (adj g))) g {[ u ]})) as Hle.
  rewrite size_union_alt, size_singleton in Hle. rewrite size_singleton in Hsize.
  assert (size (set_map snd (adj g) ∖ {[u]} : gset node) ≤ size (adj g))%nat; [|lia].
  etrans; [apply subseteq_size, (subseteq_difference_l _ _ _ (reflexivity _))|].
  unfold set_map. etrans; [apply size_list_to_set_le|].
  by rewrite length_fmap.
Qed.

(** [has_path] finds exactly the chains of edges. *)
Lemma has_path_correct g u v : has_path g u v ↔ rtc (edge_rel g) u v.
Proof.
  unfold has_path. rewrite bool_decide_spec. split.
  - intros (u' & ->%elem_of_singleton & Hpath)%search_sound. done.
  - intros Hpath. eapply closed_under_paths; [apply search_complete| |done].
    apply search_incl. by apply elem_of_singleton.
Qed.

(** The graphs drawn by [visualize_topology] are undirected. *)
Lemma visualize_topology_undirected g sw lks hls :
  undirected (visualize_topology g sw lks hls).
Proof.
  intros u v (e0 & He0 & Hs)%elem_of_adj_visualize.
  apply elem_of_adj_visualize. exists e0. split; [done|].
  destruct e0 as [a b]. unfold same_edge in *. simpl in *.
  destruct Hs as [[= -> ->]|[= -> ->]]; [by right|by left].
Qed.

(** In an undirected graph a path can be walked back. *)
Lemma path_exists_sym g u v : undirected g → path_exists g u v → path_exists g v u.
Proof.
  intros Hg (Hu & Hv & Hpath). repeat split; [done..|].
  clear Hu Hv. induction Hpath as [|u w v Huw _ IH]; [done|].
  eapply rtc_r; [exact IH|]. by apply Hg.
Qed.

(** A pair gets an answer exactly when its two hosts are distinct and
    a path joins them. *)
Lemma answers_iff g src dst :
  answers g src dst ↔ src ≠ dst ∧ path_exists g (NStr src) (NStr dst).
Proof.
  unfold answers, path_exists, has_node.
  rewrite !bool_decide_spec, has_path_correct. done.
Qed.

(** ** Pingall *)

Lemma bind_Permutation_pointwise {A B} (f g : A → list B) l :
  (∀ x, f x ≡ₚ g x) → l ≫= f ≡ₚ l ≫= g.
Proof.
  intros Hfg. induction l as [|x l IH]; [done|].
  rewrite !bind_cons. by rewrite Hfg, IH.
Qed.

Lemma ordered_pairs_Permutation l l' :
  l ≡ₚ l' → ordered_pairs l ≡ₚ ordered_pairs l'.
Proof.
  intros Hl. unfold ordered_pairs. etrans.
  - apply (bind_Permutation_pointwise _ (λ src, l' ≫= λ dst, [(src, dst)])).
    intros src. by rewrite Hl.
  - by rewrite Hl.
Qed.

Lemma successful_pairs_Permutation g l l' :
  l ≡ₚ l' → successful_pairs g l = successful_pairs g l'.
Proof.
  intros Hl. unfold successful_pairs.
  by rewrite (ordered_pairs_Permutation _ _ Hl).
Qed.

Lemma length_filter_row g src (hosts : list string) :
  length (filter (λ p : string * string, answers g p.1 p.2)
            (hosts ≫= λ dst, [(src, dst)]))
  = length (filter (answers g src) hosts).
Proof.
  induction hosts as [|dst hosts IH]; [done|].
  rewrite bind_cons, filter_app, length_app, IH. simpl.
  rewrite !filter_cons, filter_nil. simpl.
  destruct (decide (answers g src dst)); simpl; lia.
Qed.

(** The counter of [pingall] counts the ordered pairs with an answer. *)
Lemma count_rows g (hosts srcs : list string) acc :
  foldl (λ acc (row : string * list string), acc + Z.of_nat (length row.2)) acc
    ((λ src, (src, filter (answers g src) hosts)) <$> srcs)
  = acc + Z.of_nat (length (filter (λ p : string * string, answers g p.1 p.2)
                              (srcs ≫= λ src, hosts ≫= λ dst, [(src, dst)]))).
Proof.
  revert acc. induction srcs as [|src srcs IH]; intros acc.
  - cbn. lia.
  - rewrite fmap_cons, bind_cons, filter_app, length_app, length_filter_row.
    cbn [foldl]. rewrite IH. cbn [snd]. lia.
Qed.

Lemma Qc_loss_formula (s t : Qc) :
  (Qc_of_Z 100 - s / t * Qc_of_Z 100 = Qc_of_Z 100 * (1 - s / t))%Qc.
Proof. ring. Qed.

(** C6. [pingall] counts [|hosts| * (|hosts| - 1)] ordered pairs; the
    pairs it counts as successful are the pairs of distinct hosts
    between which a path exists in the graph; with two hosts or more
    the packet loss is [100 * (1 - successful / total)] (in exact
    rational arithmetic), with fewer it is 0. *)
Theorem pingall_packet_loss (g : Graph) (all_hosts : list string) :
  let r := pingall g all_hosts in
  let n := Z.of_nat (length all_hosts) in
  total_pings r = n * (n - 1)
  ∧ successful_pings r = successful_pairs g all_hosts
  ∧ (∀ src dst, answers g src dst ↔ src ≠ dst ∧ path_exists g (NStr src) (NStr dst))
  ∧ packet_loss_percentage r =
      if decide (2 ≤ n)
      then (Qc_of_Z 100
            * (1 - Qc_of_Z (successful_pairs g all_hosts) / Qc_of_Z (n * (n - 1))))%Qc
      else Qc_of_Z 0.
Proof.
  intros r n.
  assert (total_pings r = n * (n - 1)) as Htotal.
  { unfold r, pingall, n. simpl. by rewrite py_sorted_length. }
  assert (successful_pings r = successful_pairs g all_hosts) as Hsucc.
  { unfold r, pingall. simpl. rewrite count_rows.
    rewrite <-(successful_pairs_Permutation g _ _ (py_sorted_perm String.ltb all_hosts)).
    unfold successful_pairs, ordered_pairs. lia. }
  split; [done|]. split; [done|]. split; [apply answers_iff|].
  assert (packet_loss_percentage r =
            if 0 <? total_pings r
            then (Qc_of_Z 100 - Qc_of_Z (successful_pings r) / Qc_of_Z (total_pings r)
                                * Qc_of_Z 100)%Qc
            else Qc_of_Z 0) as -> by done.
  rewrite Htotal, Hsucc.
  destruct (decide (2 ≤ n)) as [Hn|Hn].
  - assert (0 <? n * (n - 1) = true) as -> by (apply Z.ltb_lt; nia).
    apply Qc_loss_formula.
  - assert (0 <? n * (n - 1) = false) as -> by (apply Z.ltb_ge; nia).
    done.
Qed.

(** The pingall scenario of the design document: both hosts reach each
    other, 2 of 2 pairs, no loss. *)
Lemma pingall_scenario :
  pingall (G scenario) ["h1"; "h2"]
  = {| rows := [("h1", ["h2"]); ("h2", ["h1"])];
       successful_pings := 2; total_pings := 2;
       packet_loss_percentage := Qc_of_Z 0 |}.
Proof. vm_compute. reflexivity. Qed.

(** The partition scenario: with the link between the switches down,
    no host reaches the other and the loss is 100%. *)
Lemma pingall_partition_scenario :
  (λ r : Replay * list output, pingall (G r.1) ["h1"; "h2"])
    <$> remove_link scenario "1" "2" ["h1"; "h2"]
  = Ok {| rows := [("h1", []); ("h2", [])];
          successful_pings := 0; total_pings := 2;
          packet_loss_percentage := Qc_of_Z 100 |}.
Proof. vm_compute. reflexivity. Qed.

(** After a host's link goes down the host is no longer a node of the
    redrawn graph, and comes back with the link. *)
Lemma host_link_down_removes_host_node :
  (λ r : Replay * list output, has_node (G r.1) (NStr "h1"))
    <$> remove_link scenario "h1" "1" ["h1"; "h2"] = Ok false.
Proof. vm_compute. reflexivity. Qed.

(** * Further properties of the code *)

(** ** Redrawing the graph *)

(** X1. After [visualize_topology] the graph holds exactly what the
    three collections say, whatever it held before: the nodes are the
    switches and the ends of the records, the edges are the records
    read in either direction. *)
Theorem redraw_exact (g : Graph) (sw : list node) (lks : list SwitchLink)
    (hls : list HostLink) :
  (∀ n, has_node (visualize_topology g sw lks hls) n ↔
        (n ∈ sw)
        ∨ (∃ l, l ∈ lks ∧ (n = NInt l.1.1 ∨ n = NInt l.2.1))
        ∨ (∃ hl, hl ∈ hls ∧ (n = NInt (switch_dpid hl) ∨ n = NStr (host_name hl))))
  ∧ (∀ u v, has_edge (visualize_topology g sw lks hls) u v ↔
        (∃ l, l ∈ lks ∧ ((u, v) = (NInt l.1.1, NInt l.2.1)
                          ∨ (u, v) = (NInt l.2.1, NInt l.1.1)))
        ∨ (∃ hl, hl ∈ hls ∧ ((u, v) = (NInt (switch_dpid hl), NStr (host_name hl))
                              ∨ (u, v) = (NStr (host_name hl), NInt (switch_dpid hl))))).
Proof.
  split.
  - intros n. unfold has_node. rewrite bool_decide_spec.
    rewrite visualize_topology_spec, elem_of_nodes_add_edges_from.
    destruct (add_nodes_from_spec sw empty_graph) as [-> _]. simpl.
    rewrite elem_of_union, elem_of_list_to_set. unfold topology_edges.
    setoid_rewrite elem_of_app. setoid_rewrite list_elem_of_fmap. split.
    + intros [[?%not_elem_of_empty|?]|(e0 & [(l & -> & Hl)|(hl & -> & Hhl)] & Hn)];
        [done|by left|right; left; by exists l|right; right; by exists hl].
    + intros [?|[(l & Hl & Hn)|(hl & Hhl & Hn)]]; [by left; right|right..].
      * exists (link_edge l). split; [left; by exists l|done].
      * exists (host_edge hl). split; [right; by exists hl|done].
  - intros u v. unfold has_edge. rewrite bool_decide_spec, elem_of_adj_visualize.
    unfold topology_edges, same_edge.
    setoid_rewrite elem_of_app. setoid_rewrite list_elem_of_fmap. split.
    + intros (e0 & [(l & -> & Hl)|(hl & -> & Hhl)] & He);
        [left; by exists l|right; by exists hl].
    + intros [(l & Hl & He)|(hl & Hhl & He)].
      * exists (link_edge l). split; [left; by exists l|done].
      * exists (host_edge hl). split; [right; by exists hl|done].
Qed.

(** X2. A redrawn graph is well formed: every edge is there in both
    directions and joins two nodes of the graph. *)
Theorem redraw_well_formed (g : Graph) (sw : list node) (lks : list SwitchLink)
    (hls : list HostLink) (u v : node) :
  has_edge (visualize_topology g sw lks hls) u v
  → has_edge (visualize_topology g sw lks hls) v u
    ∧ has_node (visualize_topology g sw lks hls) u
    ∧ has_node (visualize_topology g sw lks hls) v.
Proof.
  unfold has_edge, has_node. rewrite !bool_decide_spec. intros He.
  assert ((v, u) ∈ adj (visualize_topology g sw lks hls)) as He'
    by by apply visualize_topology_undirected.
  split; [done|].
  split; apply elem_of_nodes_visualize; right;
    [by exists (u, v)|by exists (v, u)].
Qed.

Lemma redraw_well_formed_witness :
  has_edge (G scenario) (NStr "h1") (NInt 1)
  ∧ has_node (G scenario) (NInt 1)
  ∧ has_node (G scenario) (NStr "h1").
Proof.
  apply (redraw_well_formed empty_graph [NInt 1; NInt 2]
           (tracked_of_canon <$> scenario_facts) scenario_hosts (NInt 1) (NStr "h1")).
  vm_compute. exact I.
Defined.

(** X3. Throughout a replay session (start, then any link-down and
    link-up actions, accepted or not) the graph is the drawing of the
    tracked collections. *)
Theorem replay_session_in_sync (facts : option (list CanonLink))
    (snapshot : list HostLink) (st : Replay) :
  replay_state facts snapshot st →
  G st = visualize_topology empty_graph (switches st) (links st) (host_links st).
Proof.
  intros Hst%replay_state_in_sync. unfold in_sync in Hst.
  rewrite Hst at 1. apply visualize_topology_clears.
Qed.

Lemma replay_session_in_sync_witness :
  G scenario
  = visualize_topology empty_graph (switches scenario) (links scenario)
      (host_links scenario).
Proof.
  apply (replay_session_in_sync (Some scenario_facts) scenario_hosts scenario).
  apply replay_start.
Defined.

(** ** Link down *)

Lemma parse_endpoint_cases token :
  (∃ n, parse_endpoint token = Ok n) ∨ parse_endpoint token = Raise ValueError.
Proof.
  unfold parse_endpoint, int_of_str. destruct (startswith_h token); [by eauto|].
  destruct (match strip _ with [] => _ | _ => _ end); simpl; eauto.
Qed.

(** X4. [remove_link] never raises.  Either it reports invalid input
    or a missing link and returns the state as it was, or both tokens
    parse, the edge is in the graph and it reports the removal; the
    switch list never changes and the tracked collections only lose
    records. *)
Theorem remove_link_outcomes (st : Replay) (source destination : string)
    (all_hosts : list string) :
  ∃ st' out,
    remove_link st source destination all_hosts = Ok (st', out)
    ∧ ((st' = st ∧ (out = [InvalidInput] ∨ out = [LinkDoesNotExist]))
       ∨ ∃ src dst, parse_endpoint source = Ok src
           ∧ parse_endpoint destination = Ok dst
           ∧ has_edge (G st) src dst
           ∧ out = [LinkRemoved src dst])
    ∧ switches st' = switches st
    ∧ links st' `sublist_of` links st
    ∧ host_links st' `sublist_of` host_links st.
Proof.
  unfold remove_link.
  destruct (parse_endpoint_cases source) as [[src ->]| ->]; simpl;
    [|exists st; eexists; split; [done|]; split; [left; by eauto|done]].
  destruct (parse_endpoint_cases destination) as [[dst ->]| ->]; simpl;
    [|exists st; eexists; split; [done|]; split; [left; by eauto|done]].
  destruct (has_edge (G st) src dst) eqn:He;
    [|exists st; eexists; split; [done|]; split; [left; by eauto|done]].
  destruct src as [s|h], dst as [d|h']; simpl; eexists; eexists;
    (split; [done|]); (split; [right; do 2 eexists; by rewrite He|]); simpl;
    repeat split; try done; apply sublist_filter.
Qed.

Lemma same_edge_sym e e0 : same_edge e e0 → same_edge e0 e.
Proof.
  destruct e as [a b], e0 as [c d]. unfold same_edge. simpl.
  intros [[= -> ->]|[= -> ->]]; by eauto.
Qed.

Lemma same_edge_trans e1 e2 e3 : same_edge e1 e2 → same_edge e2 e3 → same_edge e1 e3.
Proof.
  destruct e1 as [a b], e2 as [c d], e3 as [x y]. unfold same_edge. simpl.
  intros [[= -> ->]|[= -> ->]] [[= -> ->]|[= -> ->]]; by eauto.
Qed.

Lemma same_edge_swap u v : same_edge (u, v) (v, u).
Proof. by right. Qed.

Lemma link_edge_not_host_pair l h h' : ¬ same_edge (link_edge l) (NStr h, NStr h').
Proof. intros [H|H]; discriminate H. Qed.

Lemma host_edge_not_host_pair hl h h' : ¬ same_edge (host_edge hl) (NStr h, NStr h').
Proof. intros [H|H]; discriminate H. Qed.

(** Dropping the records of one edge drops that edge from the drawing
    and nothing else. *)
Lemma redraw_without_edge g g' sw lks hls lks' hls' (uv : node * node) :
  (∀ e0, e0 ∈ topology_edges lks' hls' ↔
         e0 ∈ topology_edges lks hls ∧ ¬ same_edge e0 uv) →
  ∀ e, e ∈ adj (visualize_topology g' sw lks' hls') ↔
       e ∈ adj (visualize_topology g sw lks hls) ∧ ¬ same_edge e uv.
Proof.
  intros Hes e. rewrite !elem_of_adj_visualize. split.
  - intros (e0 & [He0 Hne]%Hes & Hs). split; [by exists e0|].
    intros Hs'. apply Hne. eapply same_edge_trans; [|exact Hs'].
    by apply same_edge_sym.
  - intros [(e0 & He0 & Hs) Hne]. exists e0. split; [|done].
    apply Hes. split; [done|]. intros Hs'. apply Hne.
    by eapply same_edge_trans.
Qed.

Lemma topology_edges_switch_filtered lks hls s d e0 :
  e0 ∈ topology_edges (filter (λ l, ¬ joins l s d) lks) hls
  ↔ e0 ∈ topology_edges lks hls ∧ ¬ same_edge e0 (NInt s, NInt d).
Proof.
  unfold topology_edges. rewrite !elem_of_app, !list_elem_of_fmap.
  setoid_rewrite list_elem_of_filter. split.
  - intros [(l & -> & Hj & Hl)|(hl & -> & Hhl)].
    + split; [left; by exists l|]. by rewrite <-joins_same_edge.
    + split; [right; by exists hl|]. apply host_edge_not_switch_edge.
  - intros [[(l & -> & Hl)|(hl & -> & Hhl)] Hne].
    + left. exists l. split; [done|]. split; [|done]. by rewrite joins_same_edge.
    + right. by exists hl.
Qed.

Lemma topology_edges_host_filtered lks hls src dst h sw e0 :
  (src, dst) = (NStr h, NInt sw) ∨ (src, dst) = (NInt sw, NStr h) →
  e0 ∈ topology_edges lks (filter (λ hl, ¬ attaches hl src dst) hls)
  ↔ e0 ∈ topology_edges lks hls ∧ ¬ same_edge e0 (NInt sw, NStr h).
Proof.
  intros Hshape. unfold topology_edges. rewrite !elem_of_app, !list_elem_of_fmap.
  setoid_rewrite list_elem_of_filter. split.
  - intros [(l & -> & Hl)|(hl & -> & Hj & Hhl)].
    + split; [left; by exists l|]. apply link_edge_not_host_edge.
    + split; [right; by exists hl|].
      by rewrite <-(attaches_same_edge _ _ _ _ _ Hshape).
  - intros [[(l & -> & Hl)|(hl & -> & Hhl)] Hne].
    + left. by exists l.
    + right. exists hl. split; [done|]. split; [|done].
      by rewrite (attaches_same_edge _ _ _ _ _ Hshape).
Qed.

Lemma topology_edges_host_pair_filtered lks hls h h' e0 :
  e0 ∈ topology_edges lks (filter (λ hl, ¬ attaches hl (NStr h) (NStr h')) hls)
  ↔ e0 ∈ topology_edges lks hls ∧ ¬ same_edge e0 (NStr h, NStr h').
Proof.
  unfold topology_edges. rewrite !elem_of_app, !list_elem_of_fmap.
  setoid_rewrite list_elem_of_filter. split.
  - intros [(l & -> & Hl)|(hl & -> & Hj & Hhl)].
    + split; [left; by exists l|]. apply link_edge_not_host_pair.
    + split; [right; by exists hl|]. apply host_edge_not_host_pair.
  - intros [[(l & -> & Hl)|(hl & -> & Hhl)] Hne].
    + left. by exists l.
    + right. exists hl. split; [done|]. split; [|done].
      intros [[_ [=]]|[_ [=]]].
Qed.

(** The edges of the graph after an accepted link-down. *)
Lemma remove_link_adj st st' source destination src dst all_hosts :
  in_sync st →
  remove_link st source destination all_hosts = Ok (st', [LinkRemoved src dst]) →
  ∀ e, e ∈ adj (G st') ↔ e ∈ adj (G st) ∧ ¬ same_edge e (src, dst).
Proof.
  intros Hsync Hdown.
  destruct (remove_link_outcomes st source destination all_hosts)
    as (st0 & out & Hrun & Hout & _).
  rewrite Hdown in Hrun. injection Hrun as <- <-.
  destruct Hout as [[_ [[=]|[=]]]|(src' & dst' & Hsrc & Hdst & He & [= <- <-])].
  unfold remove_link in Hdown. rewrite Hsrc, Hdst in Hdown. simpl in Hdown.
  destruct (has_edge (G st) src dst); [|done]. intros e. rewrite Hsync.
  destruct src as [s|h], dst as [d|h']; simpl in Hdown; injection Hdown as <-; simpl.
  - apply redraw_without_edge. intros e0. apply topology_edges_switch_filtered.
  - apply redraw_without_edge. intros e0. apply topology_edges_host_filtered. by right.
  - etrans.
    { apply (redraw_without_edge (G st) _ _ (links st) (host_links st) _ _
               (NInt d, NStr h)).
      intros e0. apply topology_edges_host_filtered. by left. }
    split; intros [? Hne]; (split; [done|]); intros Hs; apply Hne;
      (eapply same_edge_trans; [exact Hs|apply same_edge_swap]).
  - apply redraw_without_edge. intros e0. apply topology_edges_host_pair_filtered.
Qed.

(** X5. After an accepted link-down in the replay loop the edge is
    gone in both directions, and every other edge is where it was. *)
Theorem remove_link_removes_only_that_edge (st st' : Replay)
    (source destination : string) (src dst : node) (all_hosts : list string) :
  in_sync st →
  remove_link st source destination all_hosts = Ok (st', [LinkRemoved src dst]) →
  has_edge (G st') src dst = false
  ∧ has_edge (G st') dst src = false
  ∧ ∀ u v, ¬ same_edge (u, v) (src, dst) →
           has_edge (G st') u v = has_edge (G st) u v.
Proof.
  intros Hsync Hdown.
  pose proof (remove_link_adj _ _ _ _ _ _ _ Hsync Hdown) as Hadj.
  unfold has_edge. repeat split.
  - apply bool_decide_eq_false. rewrite Hadj. intros [_ Hne]. apply Hne. by left.
  - apply bool_decide_eq_false. rewrite Hadj. intros [_ Hne]. apply Hne. by right.
  - intros u v Hne. apply bool_decide_ext. rewrite Hadj. naive_solver.
Qed.

Lemma remove_link_removes_only_that_edge_witness :
  ∃ st', remove_link scenario "1" "2" ["h1"; "h2"]
           = Ok (st', [LinkRemoved (NInt 1) (NInt 2)])
    ∧ has_edge (G st') (NInt 1) (NInt 2) = false
    ∧ has_edge (G st') (NInt 2) (NInt 1) = false
    ∧ ∀ u v, ¬ same_edge (u, v) (NInt 1, NInt 2) →
             has_edge (G st') u v = has_edge (G scenario) u v.
Proof.
  eexists. split; [vm_compute; reflexivity|].
  apply (remove_link_removes_only_that_edge scenario _ "1" "2" (NInt 1) (NInt 2)
           ["h1"; "h2"]).
  - apply replay_of_in_sync.
  - vm_compute. reflexivity.
Defined.

(** X6. The host does not "remain in the graph": after an accepted
    link-down between a host and its switch, a host that is not listed
    among the switches and has no record on another switch is no
    longer a node of the graph, listed in [all_hosts] or not. *)
Theorem remove_link_drops_host_node (st st' : Replay) (source destination : string)
    (src dst : node) (h : string) (sw : Z) (all_hosts : list string) :
  (src, dst) = (NStr h, NInt sw) ∨ (src, dst) = (NInt sw, NStr h) →
  remove_link st source destination all_hosts = Ok (st', [LinkRemoved src dst]) →
  NStr h ∉ switches st →
  (∀ hl, hl ∈ host_links st → host_name hl = h → switch_dpid hl = sw) →
  has_node (G st') (NStr h) = false
  ∧ ∀ hl, hl ∈ host_links st' → host_name hl ≠ h.
Proof.
  intros Hshape Hdown Hsw Hone.
  destruct (remove_link_outcomes st source destination all_hosts)
    as (st0 & out & Hrun & Hout & _).
  rewrite Hdown in Hrun. injection Hrun as <- <-.
  destruct Hout as [[_ [[=]|[=]]]|(src' & dst' & Hsrc & Hdst & He & [= <- <-])].
  unfold remove_link in Hdown. rewrite Hsrc, Hdst in Hdown. simpl in Hdown.
  destruct (has_edge (G st) src dst); [|done].
  assert (host_links st' = filter (λ hl, ¬ attaches hl src dst) (host_links st)
          ∧ G st' = visualize_topology empty_graph (switches st) (links st)
                      (host_links st')) as [Hhls HG].
  { destruct Hshape as [[= -> ->]|[= -> ->]]; simpl in Hdown;
      injection Hdown as <-; simpl; (split; [done|]); apply visualize_topology_clears. }
  assert (∀ hl, hl ∈ host_links st' → host_name hl ≠ h) as Hgone.
  { intros hl. rewrite Hhls, list_elem_of_filter. intros [Hna Hhl] Hname.
    apply Hna. pose proof (Hone hl Hhl Hname) as Hsw'. unfold attaches.
    destruct Hshape as [[= -> ->]|[= -> ->]]; [left|right]; by rewrite Hname, Hsw'. }
  split; [|done].
  apply bool_decide_eq_false. rewrite HG. intros Hn.
  apply (bool_decide_pack _) in Hn. apply redraw_exact in Hn.
  destruct Hn as [?|[(l & _ & [[=]|[=]])|(hl & Hhl & [[=]|[= Hname]])]]; [done|].
  by apply (Hgone hl).
Qed.

Lemma remove_link_drops_host_node_witness :
  ∃ st', remove_link scenario "h1" "1" ["h1"; "h2"]
           = Ok (st', [LinkRemoved (NStr "h1") (NInt 1)])
    ∧ has_node (G st') (NStr "h1") = false
    ∧ ∀ hl, hl ∈ host_links st' → host_name hl ≠ "h1".
Proof.
  eexists. split; [vm_compute; reflexivity|].
  apply (remove_link_drops_host_node scenario _ "h1" "1" (NStr "h1") (NInt 1) "h1" 1
           ["h1"; "h2"]).
  - by left.
  - vm_compute. reflexivity.
  - apply (bool_decide_unpack _). vm_compute. exact I.
  - intros hl Hhl Hname. apply (bool_decide_unpack _) in Hhl || idtac.
    unfold scenario, replay_of, scenario_hosts in Hhl. simpl in Hhl.
    apply elem_of_cons in Hhl as [->|Hhl]; [reflexivity|].
    apply elem_of_cons in Hhl as [->|Hhl]; [discriminate Hname|].
    by apply not_elem_of_nil in Hhl.
Defined.

(** ** Link up *)

(** X7. With [initial_switch_links] never captured (a session that did
    not run the real-time mode), a link-up between two switches escapes
    [add_link] as a [TypeError], whatever the topology: the state is not
    returned at all. *)
Theorem add_link_needs_captured_facts (st : Replay) (source destination : string)
    (s d : Z) (snapshot : list HostLink) :
  parse_endpoint source = Ok (NInt s) →
  parse_endpoint destination = Ok (NInt d) →
  add_link st source destination None snapshot = Raise TypeError.
Proof. intros Hs Hd. unfold add_link. by rewrite Hs, Hd. Qed.

Lemma add_link_needs_captured_facts_witness :
  add_link scenario "1" "2" None scenario_hosts = Raise TypeError.
Proof.
  apply (add_link_needs_captured_facts scenario "1" "2" 1 2 scenario_hosts);
    reflexivity.
Defined.

Lemma in_ground_truth_cases facts snapshot src dst :
  (∃ port, lookup_fact facts snapshot src dst = Some port
           ∧ in_ground_truth facts snapshot src dst)
  ∨ (lookup_fact facts snapshot src dst = None
     ∧ ¬ in_ground_truth facts snapshot src dst).
Proof.
  destruct (lookup_fact facts snapshot src dst) as [port|] eqn:Hl.
  - left. exists port. split; [done|]. unfold lookup_fact, in_ground_truth in *.
    destruct src as [s|h], dst as [d|h'].
    + apply find_switch_fact_Some in Hl as (before & fact & after & -> & _ & Hj & _).
      exists fact. split; [|done]. apply elem_of_app. right. by left.
    + apply find_host_fact_Some in Hl as (before & hl & after & -> & _ & Hj & _).
      exists hl. split; [apply elem_of_app; right; by left|]. by apply attaches_pairs.
    + apply find_host_fact_Some in Hl as (before & hl & after & -> & _ & Hj & _).
      exists hl. split; [apply elem_of_app; right; by left|]. by apply attaches_pairs.
    + by rewrite find_host_fact_two_hosts in Hl.
  - right. split; [done|]. by apply lookup_fact_None.
Qed.

(** X8. With the facts captured, [add_link] never raises.  Either it
    reports invalid input or an edge unknown to the ground truth and
    returns the state as it was, or both tokens parse, the edge is a
    ground-truth fact and it reports the addition; the switch list
    never changes and the tracked collections only gain records at the
    end. *)
Theorem add_link_outcomes (st : Replay) (source destination : string)
    (facts : list CanonLink) (snapshot : list HostLink) :
  ∃ st' out,
    add_link st source destination (Some facts) snapshot = Ok (st', out)
    ∧ ((st' = st
        ∧ (out = [InvalidInput]
           ∨ ∃ src dst, parse_endpoint source = Ok src
               ∧ parse_endpoint destination = Ok dst
               ∧ ¬ in_ground_truth facts snapshot src dst
               ∧ out = [NotConnected (node_type src) src (node_type dst) dst]))
       ∨ ∃ src dst, parse_endpoint source = Ok src
           ∧ parse_endpoint destination = Ok dst
           ∧ in_ground_truth facts snapshot src dst
           ∧ out = [LinkAdded src dst])
    ∧ switches st' = switches st
    ∧ links st `prefix_of` links st'
    ∧ host_links st `prefix_of` host_links st'.
Proof.
  destruct (parse_endpoint_cases source) as [[src Hsrc]|Hsrc];
    [|exists st; eexists; unfold add_link; rewrite Hsrc; simpl;
      split; [done|]; split; [left; by eauto|done]].
  destruct (parse_endpoint_cases destination) as [[dst Hdst]|Hdst];
    [|exists st; eexists; unfold add_link; rewrite Hsrc, Hdst; simpl;
      split; [done|]; split; [left; by eauto|done]].
  destruct (in_ground_truth_cases facts snapshot src dst)
    as [(port' & _ & Hgt)|[Hnone Hgt]].
  - destruct (add_link_valid st _ _ _ _ _ _ Hsrc Hdst Hgt) as (port & Hl & ->).
    eexists; eexists. split; [done|]. split; [right; by eauto 10|].
    destruct src as [s|h], dst as [d|h']; simpl; repeat split; try done;
      by apply prefix_app_r.
  - exists st, [NotConnected (node_type src) src (node_type dst) dst]. split.
    + unfold add_link. rewrite Hsrc, Hdst. simpl. unfold lookup_fact in Hnone.
      destruct src, dst; simpl; by rewrite Hnone.
    + split; [left; split; [done|right]; by eauto 10|done].
Qed.

Lemma redraw_with_edge g g' sw lks hls lks' hls' (uv : node * node) :
  (∀ e0, e0 ∈ topology_edges lks' hls' ↔ e0 ∈ topology_edges lks hls ∨ e0 = uv) →
  ∀ e, e ∈ adj (visualize_topology g' sw lks' hls') ↔
       e ∈ adj (visualize_topology g sw lks hls) ∨ same_edge e uv.
Proof.
  intros Hes e. rewrite !elem_of_adj_visualize. split.
  - intros (e0 & [He0| ->]%Hes & Hs); [left; by exists e0|by right].
  - intros [(e0 & He0 & Hs)|Hs].
    + exists e0. split; [|done]. apply Hes. by left.
    + exists uv. split; [|done]. apply Hes. by right.
Qed.

(** The edges of the graph after an accepted link-up. *)
Lemma add_link_adj st st' source destination src dst facts snapshot :
  in_sync st →
  add_link st source destination (Some facts) snapshot = Ok (st', [LinkAdded src dst]) →
  (∀ e, e ∈ adj (G st') ↔ e ∈ adj (G st) ∨ same_edge e (src, dst))
  ∧ (length (links st') + length (host_links st')
     = S (length (links st) + length (host_links st)))%nat.
Proof.
  intros Hsync Hup. unfold in_sync in Hsync.
  destruct (add_link_outcomes st source destination facts snapshot)
    as (st0 & out & Hrun & Hout & _).
  rewrite Hup in Hrun. injection Hrun as <- <-.
  destruct Hout as [[_ [[=]|(? & ? & _ & _ & _ & [=])]]
                   |(src' & dst' & Hsrc & Hdst & Hgt & [= <- <-])].
  destruct (add_link_valid st _ _ _ _ _ _ Hsrc Hdst Hgt) as (port & Hl & Hup').
  rewrite Hup in Hup'. injection Hup' as ->.
  destruct src as [s|h], dst as [d|h']; simpl.
  - split; [|rewrite length_app; simpl; lia].
    intros e. rewrite Hsync at 2.
    apply (redraw_with_edge _ _ _ _ _ _ _ (NInt s, NInt d)).
    intros e0. unfold topology_edges. rewrite fmap_app, !elem_of_app. simpl.
    rewrite list_elem_of_singleton. unfold link_edge at 2. simpl. tauto.
  - split; [|rewrite length_app; simpl; lia].
    intros e. rewrite Hsync at 2.
    apply (redraw_with_edge _ _ _ _ _ _ _ (NInt s, NStr h')).
    intros e0. unfold topology_edges. rewrite fmap_app, !elem_of_app. simpl.
    rewrite list_elem_of_singleton. unfold host_edge at 2. simpl. tauto.
  - split; [|rewrite length_app; simpl; lia].
    intros e. rewrite Hsync at 2. etrans.
    { apply (redraw_with_edge (G st) _ _ (links st) (host_links st) _ _
               (NInt d, NStr h)).
      intros e0. unfold topology_edges. rewrite fmap_app, !elem_of_app. simpl.
      rewrite list_elem_of_singleton. unfold host_edge at 2. simpl. tauto. }
    split; (intros [?|Hs]; [by left|right]);
      (eapply same_edge_trans; [exact Hs|apply same_edge_swap]).
  - unfold lookup_fact in Hl. by rewrite find_host_fact_two_hosts in Hl.
Qed.

(** X9. After an accepted link-up in the replay loop the edge is in the
    graph in both directions and every edge that was there still is;
    one record is appended to the tracked collections each time, also
    when the edge was up already. *)
Theorem add_link_adds_only_that_edge (st st' : Replay) (source destination : string)
    (src dst : node) (facts : list CanonLink) (snapshot : list HostLink) :
  in_sync st →
  add_link st source destination (Some facts) snapshot = Ok (st', [LinkAdded src dst]) →
  has_edge (G st') src dst = true
  ∧ has_edge (G st') dst src = true
  ∧ (∀ u v, ¬ same_edge (u, v) (src, dst) →
            has_edge (G st') u v = has_edge (G st) u v)
  ∧ (∀ u v, has_edge (G st) u v → has_edge (G st') u v)
  ∧ (length (links st') + length (host_links st')
     = S (length (links st) + length (host_links st)))%nat.
Proof.
  intros Hsync Hup.
  destruct (add_link_adj _ _ _ _ _ _ _ _ Hsync Hup) as [Hadj Hlen].
  unfold has_edge. repeat split; [..|done].
  - apply bool_decide_eq_true. rewrite Hadj. right. by left.
  - apply bool_decide_eq_true. rewrite Hadj. right. by right.
  - intros u v Hne. apply bool_decide_ext. rewrite Hadj. naive_solver.
  - intros u v. rewrite !bool_decide_spec, Hadj. by left.
Qed.

Lemma add_link_adds_only_that_edge_witness :
  ∃ st', add_link scenario "1" "2" (Some scenario_facts) scenario_hosts
           = Ok (st', [LinkAdded (NInt 1) (NInt 2)])
    ∧ has_edge (G st') (NInt 1) (NInt 2) = true
    ∧ has_edge (G st') (NInt 2) (NInt 1) = true
    ∧ (∀ u v, ¬ same_edge (u, v) (NInt 1, NInt 2) →
              has_edge (G st') u v = has_edge (G scenario) u v)
    ∧ (∀ u v, has_edge (G scenario) u v → has_edge (G st') u v)
    ∧ (length (links st') + length (host_links st')
       = S (length (links scenario) + length (host_links scenario)))%nat.
Proof.
  eexists. split; [vm_compute; reflexivity|].
  apply (add_link_adds_only_that_edge scenario _ "1" "2" (NInt 1) (NInt 2)
           scenario_facts scenario_hosts).
  - apply replay_of_in_sync.
  - vm_compute. reflexivity.
Defined.

(** ** The host attachment mapper on every input *)

(** X10. [filter_host_links] and [initialize_host_mapping] are the same
    function: on every input they return the same records or raise the
    same exception. *)
Theorem mappers_agree (links hosts : list pyval) :
  filter_host_links links hosts = initialize_host_mapping links hosts.
Proof. apply filter_host_links_initialize. Qed.

Lemma host_label_inj c1 c2 : host_label c1 = host_label c2 → c1 = c2.
Proof.
  unfold host_label. intros H. cbn in H. injection H as H.
  apply (inj pretty). exact H.
Qed.

Lemma initialize_host_mapping_loop links hosts out :
  initialize_host_mapping links hosts = Ok out →
  ∃ d ordered c,
    build_switch_ports links = Ok d
    ∧ sorted_hosts hosts = Ok ordered
    ∧ for_each (mapping_step d) ([], 1) ordered = Ok (out, c).
Proof.
  unfold initialize_host_mapping.
  destruct (build_switch_ports links) as [d|]; simpl; [|done].
  destruct (sorted_hosts hosts) as [ordered|]; simpl; [|done].
  destruct (for_each _ _ _) as [[acc c]|] eqn:Hloop; simpl; [|done].
  intros [= <-]. by exists d, ordered, c.
Qed.

Lemma sorted_hosts_Ok hosts ordered :
  sorted_hosts hosts = Ok ordered →
  Forall (λ h, host_key h = Ok (key_of h)) hosts
  ∧ ordered = py_sorted_by_key ((λ h, (key_of h, h)) <$> hosts)
  ∧ ordered ≡ₚ hosts.
Proof.
  unfold sorted_hosts.
  destruct (mapM host_key hosts) as [keys|] eqn:Hkeys; simpl; [|done].
  intros [= <-]. apply host_keys_readable in Hkeys as [Hr ->].
  split; [done|]. rewrite zip_key_of. split; [done|].
  unfold py_sorted_by_key. rewrite py_sorted_perm, <-list_fmap_compose.
  by rewrite list_fmap_id.
Qed.

(** X11. Whatever the input, the records returned by the mapper are
    named [h1], [h2], ... in list order, no name is given twice, they
    come in ascending [(switch, port)] order (equal for hosts on one
    port), and there are at most as many as raw hosts. *)
Theorem host_names_consecutive (links hosts : list pyval) (out : list HostLink) :
  initialize_host_mapping links hosts = Ok out →
  (∀ i hl, out !! i = Some hl → host_name hl = host_label (Z.of_nat i + 1))
  ∧ NoDup (host_name <$> out)
  ∧ StronglySorted (not_after tuple_lt) (attachment <$> out)
  ∧ (length out ≤ length hosts)%nat.
Proof.
  intros Hout.
  pose proof (initialize_host_mapping_ascending _ _ _ Hout) as Hasc.
  apply initialize_host_mapping_loop in Hout as (d & ordered & c & _ & Hsorted & Hloop).
  apply mapping_loop in Hloop as (recs & -> & Hn & Hs). simpl in *.
  assert (∀ i hl, recs !! i = Some hl → host_name hl = host_label (Z.of_nat i + 1))
    as Hnames.
  { intros i hl Hi. rewrite (Hn _ _ Hi). f_equal. lia. }
  split; [done|]. split; [|split; [done|]].
  - apply NoDup_alt. intros i j name.
    rewrite !list_lookup_fmap.
    destruct (recs !! i) as [hi|] eqn:Hi; simpl; [|done].
    destruct (recs !! j) as [hj|] eqn:Hj; simpl; [|done].
    intros [= <-] [= Heq].
    rewrite (Hnames _ _ Hi), (Hnames _ _ Hj) in Heq.
    apply host_label_inj in Heq. lia.
  - apply sorted_hosts_Ok in Hsorted as (_ & _ & Hperm).
    apply sublist_length in Hs. rewrite !length_fmap in Hs.
    by rewrite <-Hperm.
Qed.

Lemma host_names_consecutive_witness :
  let a := py_host "00:00:00:00:00:01" (PStr "1") (PStr "3") in
  let b := py_host "00:00:00:00:00:02" (PStr "1") (PStr "3") in
  let out := [ {| host_name := "h1"; host_mac := Some (PStr "00:00:00:00:00:01");
                  switch_dpid := 1; hl_port_no := 3 |};
               {| host_name := "h2"; host_mac := Some (PStr "00:00:00:00:00:02");
                  switch_dpid := 1; hl_port_no := 3 |} ] in
  (∀ i hl, out !! i = Some hl → host_name hl = host_label (Z.of_nat i + 1))
  ∧ NoDup (host_name <$> out)
  ∧ StronglySorted (not_after tuple_lt) (attachment <$> out)
  ∧ (length out ≤ 2)%nat.
Proof.
  intros a b out.
  apply (host_names_consecutive [] [a; b] out).
  vm_compute. reflexivity.
Defined.

Lemma mapM_res_fails {A B} (f : A → res B) l x e' :
  x ∈ l → f x = Raise e' → ∃ e, mapM f l = Raise e.
Proof.
  intros Hx Hfx. induction l as [|y l IH]; [by apply not_elem_of_nil in Hx|].
  simpl. destruct (f y) as [b|e] eqn:Hy; simpl; [|by eauto].
  apply elem_of_cons in Hx as [->|Hx]; [congruence|].
  destruct (IH Hx) as [e ->]. simpl. by eauto.
Qed.

(** X14. One raw host whose attached switch or port cannot be read as
    an integer makes the whole mapping raise, wherever it stands in the
    list and even if its port is a switch-link port: no record is
    returned for the other hosts. *)
Theorem unreadable_host_fails_mapping (links hosts : list pyval) (h : pyval)
    (e' : exn) :
  h ∈ hosts → host_key h = Raise e' →
  ∃ e, initialize_host_mapping links hosts = Raise e
       ∧ filter_host_links links hosts = Raise e.
Proof.
  intros Hh Hkey. rewrite filter_host_links_initialize.
  unfold initialize_host_mapping.
  destruct (build_switch_ports links) as [d|e]; simpl; [|by eauto].
  unfold sorted_hosts.
  destruct (mapM_res_fails host_key hosts h e' Hh Hkey) as [e ->]. simpl. by eauto.
Qed.

Lemma unreadable_host_fails_mapping_witness :
  ∃ e, initialize_host_mapping []
         [py_host "00:00:00:00:00:01" (PStr "1") (PStr "3");
          py_host "00:00:00:00:00:02" (PStr "s2") (PStr "3")] = Raise e
       ∧ filter_host_links []
           [py_host "00:00:00:00:00:01" (PStr "1") (PStr "3");
            py_host "00:00:00:00:00:02" (PStr "s2") (PStr "3")] = Raise e.
Proof.
  apply (unreadable_host_fails_mapping [] _
           (py_host "00:00:00:00:00:02" (PStr "s2") (PStr "3")) ValueError).
  - right. left.
  - vm_compute. reflexivity.
Defined.

(** *** Which hosts are recorded *)

Lemma ports_ensure_int a d :
  ∃ d1, ports_ensure (PInt a) d = Ok d1
    ∧ is_Some (d1 !! PInt a)
    ∧ (∀ k, is_Some (d !! k) → is_Some (d1 !! k))
    ∧ ∀ sw p, port_in_use d1 sw p = port_in_use d sw p.
Proof.
  unfold ports_ensure. simpl. destruct (d !! PInt a) as [s|] eqn:E.
  - exists d. rewrite E. by eauto.
  - eexists. split; [done|]. split; [by rewrite lookup_insert_eq|]. split.
    + intros k Hk. destruct (decide (k = PInt a)) as [->|Hne].
      * by rewrite lookup_insert_eq.
      * by rewrite lookup_insert_ne.
    + intros sw p. unfold port_in_use.
      destruct (decide (sw = a)) as [->|Hne].
      * rewrite lookup_insert_eq, E. apply bool_decide_eq_false. set_solver.
      * rewrite lookup_insert_ne by congruence. done.
Qed.

Lemma ports_add_int a q d :
  is_Some (d !! PInt a) →
  ∃ d2, ports_add (PInt a) (PInt q) d = Ok d2
    ∧ (∀ k, is_Some (d !! k) → is_Some (d2 !! k))
    ∧ ∀ sw p, port_in_use d2 sw p
              = port_in_use d sw p || bool_decide ((sw, p) = (a, q)).
Proof.
  intros [s E]. unfold ports_add. simpl. rewrite E.
  eexists. split; [done|]. split.
  - intros k Hk. destruct (decide (k = PInt a)) as [->|Hne].
    + by rewrite lookup_insert_eq.
    + by rewrite lookup_insert_ne.
  - intros sw p. unfold port_in_use. destruct (decide (sw = a)) as [->|Hne].
    + rewrite lookup_insert_eq, E.
      destruct (decide (p = q)) as [->|Hpq].
      * rewrite (bool_decide_eq_true_2 (_ = _)) by done.
        rewrite orb_true_r. apply bool_decide_eq_true. set_solver.
      * rewrite (bool_decide_eq_false_2 (_ = _)) by congruence.
        rewrite orb_false_r. apply bool_decide_ext. set_solver.
    + rewrite lookup_insert_ne by congruence.
      rewrite (bool_decide_eq_false_2 (_ = _)) by congruence.
      by rewrite orb_false_r.
Qed.

Lemma res_bind_Ok {A B} (f : A → res B) (a : A) : Ok a ≫= f = f a.
Proof. done. Qed.

Lemma switch_ports_step_raw d link :
  ∃ d', switch_ports_step d (py_of_raw_link link) = Ok d'
    ∧ ∀ sw p, port_in_use d' sw p
              = port_in_use d sw p
                || bool_decide ((sw, p) = (dpid (src link), port_no (src link)))
                || bool_decide ((sw, p) = (dpid (dst link), port_no (dst link))).
Proof.
  assert (switch_ports_step d (py_of_raw_link link) =
            (d1 ← ports_ensure (PInt (dpid (src link))) d;
             d2 ← ports_ensure (PInt (dpid (dst link))) d1;
             d3 ← ports_add (PInt (dpid (src link))) (PInt (port_no (src link))) d2;
             ports_add (PInt (dpid (dst link))) (PInt (port_no (dst link))) d3)) as ->
    by done.
  destruct (ports_ensure_int (dpid (src link)) d) as (d1 & -> & Hs1 & Hk1 & Hu1).
  rewrite res_bind_Ok.
  destruct (ports_ensure_int (dpid (dst link)) d1) as (d2 & -> & Hs2 & Hk2 & Hu2).
  rewrite res_bind_Ok.
  destruct (ports_add_int (dpid (src link)) (port_no (src link)) d2)
    as (d3 & -> & Hk3 & Hu3); [by apply Hk2|].
  rewrite res_bind_Ok.
  destruct (ports_add_int (dpid (dst link)) (port_no (dst link)) d3)
    as (d4 & -> & Hk4 & Hu4); [by apply Hk3|].
  exists d4. split; [done|]. intros sw p. by rewrite Hu4, Hu3, Hu2, Hu1.
Qed.

Lemma elem_of_link_ports links sw p :
  (sw, p) ∈ link_ports links ↔
    ∃ l, l ∈ links ∧ ((sw, p) = (dpid (src l), port_no (src l))
                      ∨ (sw, p) = (dpid (dst l), port_no (dst l))).
Proof.
  unfold link_ports. rewrite elem_of_list_to_set, list_elem_of_bind.
  split; intros (l & H1 & H2); exists l.
  - split; [done|]. set_solver.
  - split; [|done]. set_solver.
Qed.

(** On raw links the first loop records exactly their ends. *)
Lemma build_switch_ports_link_ports links :
  ∃ d, build_switch_ports (py_of_raw_link <$> links) = Ok d
    ∧ ∀ sw p, port_in_use d sw p ↔ (sw, p) ∈ link_ports links.
Proof.
  unfold build_switch_ports.
  cut (∀ d0, ∃ d, for_each switch_ports_step d0 (py_of_raw_link <$> links) = Ok d
         ∧ ∀ sw p, port_in_use d sw p ↔
                   port_in_use d0 sw p ∨ (sw, p) ∈ link_ports links).
  { intros H. destruct (H ∅) as (d & Hd & Hu). exists d. split; [done|].
    intros sw p. rewrite Hu. unfold port_in_use at 1. rewrite lookup_empty.
    naive_solver. }
  induction links as [|link links IH]; intros d0.
  - exists d0. split; [done|]. intros sw p. rewrite elem_of_link_ports.
    split; [by left|]. intros [?|(l & ?%not_elem_of_nil & _)]; done.
  - rewrite fmap_cons. simpl.
    destruct (switch_ports_step_raw d0 link) as (d1 & -> & Hu1). simpl.
    destruct (IH d1) as (d & -> & Hu). exists d. split; [done|].
    intros sw p. rewrite Hu, Hu1, !elem_of_link_ports.
    rewrite !orb_True, !bool_decide_spec. split.
    + intros [[[?|?]|?]|(l & Hl & Hp)]; [by left|right..].
      * exists link. split; [left|by left].
      * exists link. split; [left|by right].
      * exists l. split; [by right|done].
    + intros [?|(l & [->|Hl]%elem_of_cons & Hp)].
      * by left; left; left.
      * left. destruct Hp; [left; by right|by right].
      * right. by exists l.
Qed.

(** What the naming loop records: one record per host whose port is
    free, in order, with the host's attachment and MAC. *)
Lemma mapping_loop_exact d l : ∀ acc c acc' c',
  for_each (mapping_step d) (acc, c) l = Ok (acc', c') →
  ∃ recs, acc' = acc ++ recs
    ∧ Forall2 (λ hl h, attachment hl = key_of h
                       ∧ ∃ mac, getitem h (PStr "mac") = Ok mac
                                ∧ host_mac hl = Some mac)
        recs (filter (λ h, ¬ port_in_use d (key_of h).1 (key_of h).2) l).
Proof.
  induction l as [|h l IH]; intros acc c acc' c'; simpl.
  - intros [= <- <-]. exists []. rewrite app_nil_r. split; [done|constructor].
  - rewrite mapping_step_key, filter_cons.
    assert (∀ k, host_key h = Ok k → key_of h = k) as Hk
      by (intros k Hk; unfold key_of; by rewrite Hk).
    destruct (host_key h) as [[sw pt]|] eqn:Hkey; simpl; [|done].
    rewrite (Hk _ eq_refl). simpl.
    destruct (port_in_use d sw pt) eqn:Huse.
    + simpl. intros (recs & -> & HF)%IH. by exists recs.
    + destruct (getitem h (PStr "mac")) as [mac|] eqn:Hmac; simpl; [|done].
      intros (recs & -> & HF)%IH.
      eexists (_ :: recs). rewrite <-app_assoc. split; [done|].
      constructor; [|done].
      split; [by rewrite (Hk _ eq_refl)|]. by exists mac.
Qed.

(** X12. On raw links as the service reports them, the mapper records
    a host exactly when its attachment is not one end of a link: no
    record sits on a switch-link port, and every raw host on another
    port has a record with its attachment and its MAC. *)
Theorem mapper_records_host_facing_ports (links : list RawLink) (hosts : list pyval)
    (out : list HostLink) :
  initialize_host_mapping (py_of_raw_link <$> links) hosts = Ok out →
  (∀ hl, hl ∈ out → attachment hl ∉ link_ports links)
  ∧ (∀ h, h ∈ hosts → key_of h ∉ link_ports links →
          ∃ hl mac, hl ∈ out ∧ attachment hl = key_of h
                    ∧ getitem h (PStr "mac") = Ok mac ∧ host_mac hl = Some mac).
Proof.
  intros (d & ordered & c & Hd & Hsorted & Hloop)%initialize_host_mapping_loop.
  destruct (build_switch_ports_link_ports links) as (d' & Hd' & Huse).
  rewrite Hd in Hd'. injection Hd' as <-.
  apply sorted_hosts_Ok in Hsorted as (_ & _ & Hperm).
  apply mapping_loop_exact in Hloop as (recs & -> & HF). simpl. split.
  - intros hl [i Hi]%list_elem_of_lookup.
    destruct (Forall2_lookup_l _ _ _ _ _ HF Hi) as (h & Hh & Hatt & _).
    apply list_elem_of_lookup_2, list_elem_of_filter in Hh as [Hfree _].
    rewrite Hatt. intros Hin. apply Hfree, Huse. by destruct (key_of h).
  - intros h Hh Hfree.
    assert (h ∈ filter (λ h, ¬ port_in_use d (key_of h).1 (key_of h).2) ordered)
      as [j Hj]%list_elem_of_lookup.
    { apply list_elem_of_filter. split; [|by rewrite Hperm].
      intros Hin%Huse. apply Hfree. by destruct (key_of h). }
    destruct (Forall2_lookup_r _ _ _ _ _ HF Hj) as (hl & Hhl & Hatt & mac & Hmac & Hm).
    exists hl, mac. split; [by eapply list_elem_of_lookup_2|done].
Qed.

Lemma mapper_records_host_facing_ports_witness :
  let hosts := [py_host "00:00:00:00:00:01" (PStr "1") (PStr "3");
                py_host "00:00:00:00:00:09" (PStr "1") (PStr "1")] in
  let out := [ {| host_name := "h1"; host_mac := Some (PStr "00:00:00:00:00:01");
                  switch_dpid := 1; hl_port_no := 3 |} ] in
  (∀ hl, hl ∈ out → attachment hl ∉ link_ports [raw_link 1 1 2 1])
  ∧ (∀ h, h ∈ hosts → key_of h ∉ link_ports [raw_link 1 1 2 1] →
          ∃ hl mac, hl ∈ out ∧ attachment hl = key_of h
                    ∧ getitem h (PStr "mac") = Ok mac ∧ host_mac hl = Some mac).
Proof.
  intros hosts out.
  apply (mapper_records_host_facing_ports [raw_link 1 1 2 1] hosts out).
  vm_compute. reflexivity.
Defined.

Lemma readable_host_key h : readable_host h → host_key h = Ok (key_of h).
Proof. intros [[k Hk] _]. unfold key_of. by rewrite Hk. Qed.

Lemma mapping_loop_total d l : ∀ st,
  Forall readable_host l → ∃ st', for_each (mapping_step d) st l = Ok st'.
Proof.
  induction l as [|h l IH]; intros st Hl; simpl; [by eauto|].
  apply Forall_cons in Hl as [Hh Hl].
  rewrite mapping_step_key, (readable_host_key _ Hh). simpl.
  destruct Hh as [_ [mac Hmac]].
  destruct (port_in_use _ _ _); simpl; [by apply IH|].
  rewrite Hmac. simpl. by apply IH.
Qed.

(** X13. On raw links as the service reports them and raw hosts whose
    attached switch, attached port and MAC can be read, the mapper
    returns a mapping: it does not raise. *)
Theorem mapper_total_on_readable_input (links : list RawLink) (hosts : list pyval) :
  Forall readable_host hosts →
  ∃ out, initialize_host_mapping (py_of_raw_link <$> links) hosts = Ok out
         ∧ filter_host_links (py_of_raw_link <$> links) hosts = Ok out.
Proof.
  intros Hr. rewrite filter_host_links_initialize. unfold initialize_host_mapping.
  destruct (build_switch_ports_link_ports links) as (d & -> & _). simpl.
  assert (Forall (λ h, host_key h = Ok (key_of h)) hosts) as Hkeys
    by (eapply Forall_impl; [exact Hr|apply readable_host_key]).
  rewrite (sorted_hosts_readable _ Hkeys). simpl.
  destruct (mapping_loop_total d
              (py_sorted_by_key ((λ h, (key_of h, h)) <$> hosts)) ([], 1))
    as [[acc c] ->]; [|by eexists].
  assert (py_sorted_by_key ((λ h, (key_of h, h)) <$> hosts) ≡ₚ hosts) as ->; [|done].
  unfold py_sorted_by_key. rewrite py_sorted_perm, <-list_fmap_compose.
  by rewrite list_fmap_id.
Qed.

Lemma mapper_total_on_readable_input_witness :
  ∃ out, initialize_host_mapping (py_of_raw_link <$> [raw_link 1 1 2 1])
           [py_host "00:00:00:00:00:01" (PStr "1") (PInt 3)] = Ok out
         ∧ filter_host_links (py_of_raw_link <$> [raw_link 1 1 2 1])
             [py_host "00:00:00:00:00:01" (PStr "1") (PInt 3)] = Ok out.
Proof.
  apply (mapper_total_on_readable_input [raw_link 1 1 2 1]
           [py_host "00:00:00:00:00:01" (PStr "1") (PInt 3)]).
  repeat constructor.
  - exists (1, 3). vm_compute. reflexivity.
  - exists (PStr "00:00:00:00:00:01"). reflexivity.
Defined.

(** ** The link canonicalizer on every input *)

Lemma canonical_ordered link : tuple_lt (canonical link).2 (canonical link).1 = false.
Proof.
  unfold canonical, sorted_pair.
  destruct (tuple_lt (dpid (dst link), port_no (dst link))
              (dpid (src link), port_no (src link))) eqn:E; simpl; [|done].
  by apply tuple_lt_asym.
Qed.

(** X15. The list returned by [deduplicate_links] holds no link twice,
    holds exactly the canonical forms of the raw links, each with its
    ends in ascending order, and is no longer than the input. *)
Theorem deduplicate_links_canonical (links : list RawLink) :
  NoDup (deduplicate_links links)
  ∧ (∀ c, c ∈ deduplicate_links links ↔ ∃ l, l ∈ links ∧ c = canonical l)
  ∧ Forall (λ c, tuple_lt c.2 c.1 = false) (deduplicate_links links)
  ∧ (length (deduplicate_links links) ≤ length links)%nat.
Proof.
  split; [apply NoDup_deduplicate_links|].
  split; [intros c; apply elem_of_deduplicate_links|]. split.
  - apply Forall_forall. intros c (l & _ & ->)%elem_of_deduplicate_links.
    apply canonical_ordered.
  - rewrite <-(length_fmap canonical links). apply submseteq_length.
    apply NoDup_submseteq; [apply NoDup_deduplicate_links|].
    intros c (l & Hl & ->)%elem_of_deduplicate_links.
    by apply list_elem_of_fmap_2.
Qed.



(** ** Integers written by [str] and read back by [int] *)

Lemma pretty_N_char_digit x :
  (x < 10)%N →
  digit_of (pretty_N_char x) = Some (Z.of_N x)
  ∧ is_space (pretty_N_char x) = false
  ∧ pretty_N_char x ≠ "-"%char ∧ pretty_N_char x ≠ "+"%char.
Proof.
  intros Hx.
  assert (x = 0 ∨ x = 1 ∨ x = 2 ∨ x = 3 ∨ x = 4 ∨ x = 5 ∨ x = 6 ∨ x = 7
          ∨ x = 8 ∨ x = 9)%N as Hcases by lia.
  repeat (destruct Hcases as [->|Hcases]); try subst x; by vm_compute.
Qed.

(** The characters [pretty_N_go] puts in front are decimal digits, and
    [digits] reads them back. *)
Lemma pretty_N_go_chars x s :
  ∃ pre, string_to_list (pretty_N_go x s) = pre ++ string_to_list s
    ∧ Forall (λ c, is_space c = false ∧ c ≠ "-"%char ∧ c ≠ "+"%char) pre
    ∧ ((0 < x)%N → pre ≠ []).
Proof.
  revert s. induction (N.lt_wf_0 x) as [x _ IH]; intros s.
  assert (x = 0 ∨ 0 < x)%N as [->|Hx] by lia.
  - exists []. rewrite pretty_N_go_0. split; [done|]. split; [constructor|lia].
  - rewrite pretty_N_go_step by done.
    destruct (IH (x `div` 10)%N (N.div_lt x 10 Hx eq_refl)
                (String (pretty_N_char (x `mod` 10)) s)) as (pre & -> & Hpre & _).
    exists (pre ++ [pretty_N_char (x `mod` 10)%N]).
    rewrite <-app_assoc. split; [done|]. split.
    + apply Forall_app. split; [done|]. constructor; [|constructor].
      by destruct (pretty_N_char_digit (x `mod` 10)%N) as (_ & ? & ? & ?);
        [apply N.mod_lt|].
    + intros _. by destruct pre.
Qed.

Lemma digits_pretty_N_go x s prev :
  (0 < x)%N →
  digits 0 prev (string_to_list (pretty_N_go x s))
  = digits (Z.of_N x) true (string_to_list s).
Proof.
  revert s prev. induction (N.lt_wf_0 x) as [x _ IH]; intros s prev Hx.
  rewrite pretty_N_go_step by done.
  destruct (pretty_N_char_digit (x `mod` 10)%N) as (Hd & _); [by apply N.mod_lt|].
  destruct (N.eq_0_gt_0_cases (x `div` 10)) as [Hq|Hq].
  - rewrite Hq, pretty_N_go_0. cbn [string_to_list String.list_ascii_of_string digits].
    rewrite Hd. f_equal.
    pose proof (N.div_mod x 10). lia.
  - rewrite IH by (done || by apply N.div_lt).
    cbn [string_to_list String.list_ascii_of_string digits].
    rewrite Hd. f_equal.
    pose proof (N.div_mod x 10). lia.
Qed.

Lemma lstrip_no_space l : Forall (λ c, is_space c = false) l → lstrip l = l.
Proof. destruct 1 as [|c l Hc _]; simpl; [done|]. by rewrite Hc. Qed.

Lemma strip_no_space l : Forall (λ c, is_space c = false) l → strip l = l.
Proof.
  intros Hl. unfold strip. rewrite (lstrip_no_space l Hl).
  rewrite lstrip_no_space by by apply Forall_rev.
  apply rev_involutive.
Qed.

Lemma int_of_str_positive p : int_of_str (pretty (Zpos p)) = Ok (Zpos p).
Proof.
  change (pretty (Zpos p)) with (pretty_N_go (Npos p) "").
  unfold int_of_str.
  destruct (pretty_N_go_chars (Npos p) "") as (pre & Hpre & Hall & Hne).
  pose proof (digits_pretty_N_go (Npos p) "" false eq_refl) as Hval.
  rewrite Hpre in Hval |- *. simpl in Hval |- *. rewrite app_nil_r in Hval |- *.
  rewrite strip_no_space by (eapply Forall_impl; [exact Hall|]; by intros ? [? _]).
  destruct pre as [|c rest]; [by destruct Hne|].
  apply Forall_cons in Hall as [(_ & Hm & Hp) _].
  rewrite !bool_decide_eq_false_2 by done. by rewrite Hval.
Qed.

Lemma int_of_str_pretty (n : Z) : int_of_str (pretty n) = Ok n.
Proof.
  destruct n as [|p|p].
  - by vm_compute.
  - apply int_of_str_positive.
  - change (pretty (Zneg p)) with ("-" +:+ pretty_N_go (Npos p) "").
    unfold int_of_str.
    destruct (pretty_N_go_chars (Npos p) "") as (pre & Hpre & Hall & Hne).
    pose proof (digits_pretty_N_go (Npos p) "" false eq_refl) as Hval.
    change (string_to_list ("-" +:+ pretty_N_go (N.pos p) ""))
      with ("-"%char :: string_to_list (pretty_N_go (N.pos p) "")).
    rewrite Hpre in Hval |- *. simpl in Hval |- *. rewrite app_nil_r in Hval |- *.
    rewrite strip_no_space.
    + rewrite bool_decide_eq_true_2 by done. by rewrite Hval.
    + constructor; [done|]. eapply Forall_impl; [exact Hall|]. by intros ? [? _].
Qed.

(** X20. [int(str(n))] is [n]: the decimal string the controller stores
    for a switch id or a port is read back by the mapper as the same
    integer. *)
Theorem int_of_str_py_str (n : Z) : int_of_str (py_str n) = Ok n.
Proof. unfold py_str. apply int_of_str_pretty. Qed.

(** ** Pingall on every graph *)

Lemma sum_rows_bound (rows : list (string * list string)) (m : nat) (a : Z) :
  Forall (λ row, (length row.2 ≤ m)%nat) rows →
  a ≤ foldl (λ acc (row : string * list string), acc + Z.of_nat (length row.2)) a rows
    ≤ a + Z.of_nat (length rows * m).
Proof.
  intros Hrows. revert a. induction Hrows as [|row rows Hrow _ IH]; intros a; simpl.
  - lia.
  - specialize (IH (a + Z.of_nat (length row.2))). lia.
Qed.

Lemma Qc_of_Z_le a b : a ≤ b → (Qc_of_Z a <= Qc_of_Z b)%Qc.
Proof.
  intros H. unfold Qcle, Qc_of_Z. simpl. rewrite !Qred_correct.
  by rewrite <-Zle_Qle.
Qed.

Lemma Qc_of_Z_lt a b : a < b → (Qc_of_Z a < Qc_of_Z b)%Qc.
Proof.
  intros H. unfold Qclt, Qc_of_Z. simpl. rewrite !Qred_correct.
  by rewrite <-Zlt_Qlt.
Qed.

Lemma Qc_ratio_bounds (s t : Qc) :
  (0 <= s)%Qc → (s <= t)%Qc → (0 < t)%Qc → (0 <= s / t ∧ s / t <= 1)%Qc.
Proof.
  intros Hs Hst Ht.
  assert (s / t * t = s)%Qc as Hq
    by (rewrite Qcmult_comm; apply Qcmult_div_r; by apply Qclt_not_eq in Ht).
  split; apply (Qcmult_lt_0_le_reg_r _ _ t Ht); rewrite Hq.
  - by rewrite Qcmult_0_l.
  - by rewrite Qcmult_1_l.
Qed.

(** X17. The counters of [pingall] are consistent on every graph and
    host list: between 0 and the total number of ordered pairs are
    successful, so the packet loss lies between 0 and 100. *)
Theorem pingall_loss_bounds (g : Graph) (all_hosts : list string) :
  0 ≤ successful_pings (pingall g all_hosts) ≤ total_pings (pingall g all_hosts)
  ∧ (Qc_of_Z 0 <= packet_loss_percentage (pingall g all_hosts))%Qc
  ∧ (packet_loss_percentage (pingall g all_hosts) <= Qc_of_Z 100)%Qc.
Proof.
  set (hosts := py_sorted String.ltb all_hosts).
  set (rows0 := (λ src, (src, filter (answers g src) hosts)) <$> hosts).
  assert (0 ≤ successful_pings (pingall g all_hosts)
            ≤ total_pings (pingall g all_hosts)) as Hcount.
  { unfold pingall. simpl. fold hosts. fold rows0.
    assert (Forall (λ row : string * list string,
                      (length row.2 ≤ length hosts - 1)%nat) rows0) as Hrows.
    { apply Forall_fmap, Forall_forall. intros src Hsrc. simpl.
      assert (length (filter (answers g src) hosts) < length hosts)%nat; [|lia].
      apply (length_filter_lt _ _ src); [done|]. by intros [? _]. }
    pose proof (sum_rows_bound rows0 (length hosts - 1) 0 Hrows) as Hsum.
    unfold rows0 in Hsum at 3. rewrite length_fmap in Hsum.
    destruct (length hosts) as [|n]; simpl in *; nia. }
  split; [done|].
  assert (packet_loss_percentage (pingall g all_hosts) =
            if 0 <? total_pings (pingall g all_hosts)
            then (Qc_of_Z 100 - Qc_of_Z (successful_pings (pingall g all_hosts))
                                / Qc_of_Z (total_pings (pingall g all_hosts))
                                * Qc_of_Z 100)%Qc
            else Qc_of_Z 0) as -> by done.
  destruct (Z.ltb_spec 0 (total_pings (pingall g all_hosts))) as [Ht|Ht];
    [|split; [apply Qcle_refl|by apply Qc_of_Z_le]].
  destruct (Qc_ratio_bounds (Qc_of_Z (successful_pings (pingall g all_hosts)))
              (Qc_of_Z (total_pings (pingall g all_hosts)))) as [Hq0 Hq1].
  { apply (Qc_of_Z_le 0). lia. }
  { apply Qc_of_Z_le. lia. }
  { by apply (Qc_of_Z_lt 0). }
  set (q := (Qc_of_Z (successful_pings (pingall g all_hosts))
             / Qc_of_Z (total_pings (pingall g all_hosts)))%Qc) in *.
  assert (0 <= Qc_of_Z 100)%Qc as H100 by by apply (Qc_of_Z_le 0).
  change (Qc_of_Z 0) with 0%Qc.
  assert (q * Qc_of_Z 100 <= Qc_of_Z 100)%Qc as Hle.
  { rewrite <-(Qcmult_1_l (Qc_of_Z 100)) at 2. by apply Qcmult_le_compat_r. }
  assert (0 <= q * Qc_of_Z 100)%Qc as Hge.
  { rewrite <-(Qcmult_0_l (Qc_of_Z 100)). by apply Qcmult_le_compat_r. }
  split.
  - apply Qcle_minus_iff in Hle. unfold Qcminus. exact Hle.
  - apply Qcle_minus_iff.
    replace (Qc_of_Z 100 + - (Qc_of_Z 100 - q * Qc_of_Z 100))%Qc
      with (q * Qc_of_Z 100)%Qc by ring.
    exact Hge.
Qed.

Lemma elem_of_pingall_rows g all_hosts src r :
  (src, r) ∈ rows (pingall g all_hosts)
  ↔ src ∈ all_hosts ∧ r = filter (answers g src) (py_sorted String.ltb all_hosts).
Proof.
  unfold pingall. simpl. rewrite list_elem_of_fmap. split.
  - intros (s & [= -> ->] & Hs). by apply elem_of_py_sorted in Hs.
  - intros [Hs ->]. exists src. split; [done|]. by apply elem_of_py_sorted.
Qed.

(** X18. On an undirected graph (the replay graph always is one) the
    report of [pingall] is symmetric: when [dst] is listed as reachable
    from [src], the row of [dst] lists [src]. *)
Theorem pingall_symmetric (g : Graph) (all_hosts : list string)
    (src dst : string) (r : list string) :
  undirected g →
  (src, r) ∈ rows (pingall g all_hosts) →
  dst ∈ r →
  ∃ r', (dst, r') ∈ rows (pingall g all_hosts) ∧ src ∈ r'.
Proof.
  intros Hg [Hsrc ->]%elem_of_pingall_rows [Hans Hdst]%list_elem_of_filter.
  apply elem_of_py_sorted in Hdst.
  exists (filter (answers g dst) (py_sorted String.ltb all_hosts)). split.
  - by apply elem_of_pingall_rows.
  - apply list_elem_of_filter. split; [|by apply elem_of_py_sorted].
    apply answers_iff in Hans as [Hne Hpath]. apply answers_iff.
    split; [done|]. by apply path_exists_sym.
Qed.

Lemma pingall_symmetric_witness :
  ∃ r', ("h2", r') ∈ rows (pingall (G scenario) ["h1"; "h2"]) ∧ "h1" ∈ r'.
Proof.
  apply (pingall_symmetric (G scenario) ["h1"; "h2"] "h1" "h2" ["h2"]).
  - apply visualize_topology_undirected.
  - vm_compute. apply list_elem_of_here.
  - apply list_elem_of_here.
Defined.

(** ** Capture followed by replay *)

Lemma json_image_ints (zs : list Z) : map json_image (PInt <$> zs) = PInt <$> zs.
Proof.
  induction zs as [|z zs IH]; [done|].
  change (PInt z :: map json_image (PInt <$> zs) = PInt z :: (PInt <$> zs)).
  by f_equal.
Qed.

(** X19. A capture that completes is always saved, but the replay that
    follows accepts it only when the switch list is not empty: the
    snapshot of an empty network is reported as "no valid snapshot",
    and any other comes back with the switches as saved and the links
    and host links as JSON reads them back. *)
Theorem capture_then_replay (cached : option (list HostLink))
    (switches : list Z) (links : list RawLink) (hosts : list pyval) (f f' : file)
    (mapping : list HostLink) (out : list output) :
  capture_snapshot cached switches links hosts f = Ok (Some mapping, f', out) →
  out = [SnapshotSaved]
  ∧ replay_entry f' =
      if decide (switches = []) then (Ok None, [NoValidSnapshot])
      else (Ok (Some (PList (PInt <$> switches),
                      json_image (PList (py_of_canon_link <$> deduplicate_links links)),
                      json_image (PList (py_of_host_link <$> mapping)))), []).
Proof.
  unfold capture_snapshot. intros Hcap.
  assert (f' = json_dump (PDict [("switches", PList (PInt <$> switches));
                                 ("links", PList (py_of_canon_link <$> deduplicate_links links));
                                 ("host_links", PList (py_of_host_link <$> mapping))])
          ∧ out = [SnapshotSaved]) as [-> ->].
  { destruct cached as [m|]; simpl in Hcap.
    - by injection Hcap as -> <- <-.
    - destruct (initialize_host_mapping _ hosts) as [m|e]; simpl in Hcap; [|done].
      by injection Hcap as -> <- <-. }
  split; [done|].
  unfold replay_entry, load_snapshot, json_dump. simpl.
  rewrite json_image_ints.
  destruct switches as [|s switches]; [done|].
  by rewrite decide_False.
Qed.

Lemma capture_then_replay_witness :
  [SnapshotSaved] = [SnapshotSaved]
  ∧ replay_entry (Document (PDict [("switches", PList []); ("links", PList []);
                                 ("host_links", PList [])]))
  = (Ok None, [NoValidSnapshot]).
Proof.
  apply (capture_then_replay None [] [] [] NoFile
           (Document (PDict [("switches", PList []); ("links", PList []);
                             ("host_links", PList [])])) [] [SnapshotSaved]).
  vm_compute. reflexivity.
Defined.

(** ** The controller application *)

Lemma run_controller_cons c ev evs :
  run_controller c (ev :: evs) = run_controller (packet_in_handler c ev).1 evs.
Proof. done. Qed.

Lemma run_controller_snoc c evs ev :
  run_controller c (evs ++ [ev]) = (packet_in_handler (run_controller c evs) ev).1.
Proof. unfold run_controller. by rewrite foldl_snoc. Qed.

Lemma dict_lookup_snoc k l k' v :
  dict_lookup k (l ++ [(k', v)])
  = match dict_lookup k l with
    | Some x => Some x
    | None => if decide (k = k') then Some v else None
    end.
Proof.
  induction l as [|[k0 v0] l IH]; simpl; [done|].
  by destruct (decide (k = k0)).
Qed.

Lemma dict_lookup_elem_of k v l : dict_lookup k l = Some v → (k, v) ∈ l.
Proof.
  induction l as [|[k0 v0] l IH]; simpl; [done|].
  destruct (decide (k = k0)) as [->|_].
  - intros [= ->]. apply list_elem_of_here.
  - intros H. apply list_elem_of_further. by apply IH.
Qed.

Lemma first_seen_cons mac ev evs :
  first_seen mac (ev :: evs)
  = if decide (pi_ethertype ev ≠ ETH_TYPE_LLDP ∧ pi_src ev = mac)
    then Some ev else first_seen mac evs.
Proof.
  unfold first_seen. rewrite filter_cons. by destruct (decide _).
Qed.

Lemma first_seen_src mac evs ev :
  first_seen mac evs = Some ev →
  ev ∈ evs ∧ pi_ethertype ev ≠ ETH_TYPE_LLDP ∧ pi_src ev = mac.
Proof.
  intros H%head_Some_elem_of. apply list_elem_of_filter in H. tauto.
Qed.

(** The entries of [hosts] after a run: those that were there, and for
    each MAC that was not, the attachment of the first packet seen
    from it. *)
Lemma hosts_run_controller evs : ∀ c mac info,
  (mac, info) ∈ hosts (run_controller c evs)
  ↔ (mac, info) ∈ hosts c
    ∨ (dict_lookup mac (hosts c) = None
       ∧ ∃ ev, first_seen mac evs = Some ev
               ∧ info = host_info (pi_dpid ev) (pi_in_port ev)).
Proof.
  induction evs as [|ev evs IH]; intros c mac info.
  { simpl. split; [by left|]. by intros [?|(_ & ? & [=] & _)]. }
  rewrite run_controller_cons, IH, first_seen_cons. clear IH.
  unfold packet_in_handler.
  destruct (decide (pi_ethertype ev = ETH_TYPE_LLDP)) as [Hl|Hl]; simpl.
  { rewrite decide_False by tauto. done. }
  destruct (dict_lookup (pi_src ev) (hosts c)) as [v|] eqn:Hsrc; simpl.
  - destruct (decide (_ ∧ pi_src ev = mac)) as [[_ <-]|Hne]; [|done].
    rewrite Hsrc. naive_solver.
  - rewrite dict_lookup_snoc, elem_of_app, list_elem_of_singleton.
    destruct (decide (_ ∧ pi_src ev = mac)) as [[_ <-]|Hne].
    + rewrite Hsrc, decide_True by done. naive_solver.
    + rewrite decide_False by (intros ->; tauto).
      destruct (dict_lookup mac (hosts c)); naive_solver.
Qed.

(** X21. A host is registered where its first packet came in, and the
    record is never updated: for every sequence of packet-in events,
    [GET /v1.0/topology/hosts] lists a MAC exactly when a non-LLDP
    packet from it was seen, with the switch and port of the first
    one, whatever later packets say. *)
Theorem host_registered_at_first_sight (evs : list PacketIn) (mac : string) :
  getitem (list_hosts (run_controller new_controller evs)) (PStr mac)
  = match first_seen mac evs with
    | Some ev => Ok (host_info (pi_dpid ev) (pi_in_port ev))
    | None => Raise KeyError
    end.
Proof.
  unfold list_hosts. simpl.
  destruct (dict_lookup mac (hosts (run_controller new_controller evs)))
    as [info|] eqn:Hmac.
  - apply dict_lookup_elem_of, hosts_run_controller in Hmac
      as [Hin|(_ & ev & -> & ->)]; [|done].
    simpl in Hin. by apply elem_of_nil in Hin.
  - destruct (first_seen mac evs) as [ev|] eqn:Hfirst; [|done].
    assert ((mac, host_info (pi_dpid ev) (pi_in_port ev))
              ∈ hosts (run_controller new_controller evs)) as Hin
      by (apply hosts_run_controller; right; eauto).
    clear Hfirst. revert Hin Hmac.
    generalize (hosts (run_controller new_controller evs))
               (host_info (pi_dpid ev) (pi_in_port ev)).
    intros l v. induction l as [|[k0 v0] l IH]; simpl.
    + by intros ?%elem_of_nil.
    + destruct (decide (mac = k0)) as [->|Hne]; [done|].
      intros [[= ? ?]|Hin]%elem_of_cons; [done|]. by apply IH.
Qed.

(** ** From the controller to the mapper *)

Lemma mapM_total_omap {A B} (f : A → option B) (l : list A) :
  Forall (λ x, is_Some (f x)) l → mapM f l = Some (omap f l).
Proof.
  induction 1 as [|x l [y Hy] _ IH]; simpl; [done|].
  by rewrite Hy, IH.
Qed.

Lemma hosts_are_records evs mac info :
  (mac, info) ∈ hosts (run_controller new_controller evs) →
  ∃ ev, first_seen mac evs = Some ev
        ∧ info = host_info (pi_dpid ev) (pi_in_port ev).
Proof.
  intros [Hin|(_ & ev & ? & ?)]%hosts_run_controller; [|by eauto].
  simpl in Hin. by apply elem_of_nil in Hin.
Qed.

Lemma host_key_registered mac d p :
  host_key (py_host mac (PStr (py_str d)) (PStr (py_str p))) = Ok (d, p).
Proof.
  unfold host_key, py_host, py_str. simpl.
  rewrite !int_of_str_pretty. done.
Qed.

(** X22. What the visualizer fetches from the controller can always be
    read: the hosts that [fetch_hosts] builds from the body of
    [GET /v1.0/topology/hosts] are exactly one record per MAC seen,
    carrying the MAC and, as decimal strings that the sort key reads
    back as the same integers, the switch and the port of the first
    packet from it. *)
Theorem controller_hosts_fetched (evs : list PacketIn) (h : pyval) :
  h ∈ fetch_hosts (Some (list_hosts (run_controller new_controller evs)))
  ↔ ∃ ev, first_seen (pi_src ev) evs = Some ev
          ∧ h = py_host (pi_src ev) (PStr (py_str (pi_dpid ev)))
                  (PStr (py_str (pi_in_port ev)))
          ∧ getitem h (PStr "mac") = Ok (PStr (pi_src ev))
          ∧ host_key h = Ok (pi_dpid ev, pi_in_port ev).
Proof.
  unfold fetch_hosts, list_hosts. simpl.
  rewrite mapM_total_omap; simpl.
  - rewrite list_elem_of_omap. split.
    + intros ([mac info] & Hin & Hfmt).
      apply hosts_are_records in Hin as (ev & Hfirst & ->).
      pose proof (first_seen_src _ _ _ Hfirst) as (_ & _ & <-).
      exists ev. injection Hfmt as <-.
      repeat split; [done|]. apply host_key_registered.
    + intros (ev & Hfirst & -> & _).
      exists (pi_src ev, host_info (pi_dpid ev) (pi_in_port ev)). split; [|done].
      apply hosts_run_controller. right. split; [done|]. eauto.
  - apply Forall_forall. intros [mac info] (ev & _ & ->)%hosts_are_records.
    by eexists.
Qed.

(** X23. One entry of the response that lacks [attached_switch] or
    [attached_port] loses every host: [fetch_hosts] returns the empty
    list, not the hosts of the other entries. *)
Theorem fetch_hosts_one_bad_entry (entries : list (string * pyval))
    (mac : string) (info : pyval) (e : exn) :
  (mac, info) ∈ entries →
  getitem info (PStr "attached_switch") = Raise e
    ∨ getitem info (PStr "attached_port") = Raise e →
  fetch_hosts (Some (PDict entries)) = [].
Proof.
  intros Hin Hbad. unfold fetch_hosts. simpl.
  rewrite (mapM_None_2 format_host entries); [done|].
  apply Exists_exists. exists (mac, info). split; [done|].
  unfold format_host. simpl.
  destruct Hbad as [->| ->]; [done|].
  by destruct (getitem info (PStr "attached_switch")).
Qed.

Lemma fetch_hosts_one_bad_entry_witness :
  fetch_hosts (Some (PDict [("00:00:00:00:00:01", host_info 1 3);
                            ("00:00:00:00:00:02",
                             PDict [("attached_switch", PStr "2")])])) = [].
Proof.
  apply (fetch_hosts_one_bad_entry _ "00:00:00:00:00:02"
           (PDict [("attached_switch", PStr "2")]) KeyError).
  - apply list_elem_of_further, list_elem_of_here.
  - right. reflexivity.
Defined.

(** ** Forwarding *)

Lemma last_seen_snoc dpid mac evs ev :
  last_seen dpid mac (evs ++ [ev])
  = if decide (pi_ethertype ev ≠ ETH_TYPE_LLDP ∧ pi_dpid ev = dpid ∧ pi_src ev = mac)
    then Some ev else last_seen dpid mac evs.
Proof.
  unfold last_seen. rewrite filter_app, filter_cons, filter_nil.
  destruct (decide _); [apply last_snoc|by rewrite app_nil_r].
Qed.

(** What a switch has learned about a MAC after a run: the port of the
    last packet it saw from it. *)
Lemma learned_port c evs dpid mac :
  mac_to_port (run_controller c evs) !! dpid ≫= (λ table, table !! mac)
  = match last_seen dpid mac evs with
    | Some ev => Some (pi_in_port ev)
    | None => mac_to_port c !! dpid ≫= (λ table, table !! mac)
    end.
Proof.
  induction evs as [|ev evs IH] using rev_ind; [done|].
  rewrite run_controller_snoc, last_seen_snoc. unfold packet_in_handler.
  destruct (decide (pi_ethertype ev = ETH_TYPE_LLDP)) as [Hl|Hl]; simpl.
  { rewrite decide_False by tauto. done. }
  destruct (decide (pi_dpid ev = dpid)) as [<-|Hd].
  - rewrite lookup_insert_eq. simpl.
    destruct (decide (pi_src ev = mac)) as [<-|Hm].
    + rewrite lookup_insert_eq, decide_True by done. done.
    + rewrite lookup_insert_ne, decide_False by tauto.
      rewrite <-IH. by destruct (mac_to_port (run_controller c evs) !! pi_dpid ev).
  - rewrite lookup_insert_ne, decide_False by tauto. done.
Qed.

(** X24. The forwarding decision for a packet that is not LLDP: it goes
    out of the port on which the same switch last saw a packet from
    the destination MAC, the packet at hand included, and is flooded
    when the switch has seen none.  A flow entry with that output is
    installed in both cases, for a flooded packet too, and the packet
    data is sent along only when the switch did not buffer it. *)
Theorem forwarding_decision (evs : list PacketIn) (ev : PacketIn) :
  pi_ethertype ev ≠ ETH_TYPE_LLDP →
  (packet_in_handler (run_controller new_controller evs) ev).2
  = let out_port :=
      match last_seen (pi_dpid ev) (pi_dst ev) (evs ++ [ev]) with
      | Some seen => pi_in_port seen
      | None => OFPP_FLOOD
      end in
    [FlowMod (pi_dpid ev) 1 (Some (pi_in_port ev, pi_dst ev, pi_src ev)) out_port None;
     PacketOut (pi_dpid ev) (pi_buffer_id ev) (pi_in_port ev) out_port
       (if decide (pi_buffer_id ev = OFP_NO_BUFFER) then Some (pi_data ev) else None)].
Proof.
  intros Hl.
  pose proof (learned_port new_controller (evs ++ [ev]) (pi_dpid ev) (pi_dst ev))
    as Hlearn.
  rewrite run_controller_snoc in Hlearn. unfold packet_in_handler in Hlearn |- *.
  rewrite decide_False in Hlearn |- * by done. simpl in Hlearn |- *.
  rewrite lookup_insert_eq in Hlearn. simpl in Hlearn. rewrite Hlearn.
  by destruct (last_seen _ _ _).
Qed.

Lemma forwarding_decision_witness :
  (packet_in_handler
     (run_controller new_controller
        [{| pi_dpid := 1; pi_in_port := 3; pi_ethertype := 0x0800;
            pi_src := "00:00:00:00:00:01"; pi_dst := "00:00:00:00:00:02";
            pi_buffer_id := OFP_NO_BUFFER; pi_data := "ping" |}])
     {| pi_dpid := 1; pi_in_port := 1; pi_ethertype := 0x0800;
        pi_src := "00:00:00:00:00:02"; pi_dst := "00:00:00:00:00:01";
        pi_buffer_id := OFP_NO_BUFFER; pi_data := "pong" |}).2
  = [FlowMod 1 1 (Some (1, "00:00:00:00:00:01", "00:00:00:00:00:02")) 3 None;
     PacketOut 1 OFP_NO_BUFFER 1 3 (Some "pong")].
Proof.
  apply (forwarding_decision
           [{| pi_dpid := 1; pi_in_port := 3; pi_ethertype := 0x0800;
               pi_src := "00:00:00:00:00:01"; pi_dst := "00:00:00:00:00:02";
               pi_buffer_id := OFP_NO_BUFFER; pi_data := "ping" |}]
           {| pi_dpid := 1; pi_in_port := 1; pi_ethertype := 0x0800;
              pi_src := "00:00:00:00:00:02"; pi_dst := "00:00:00:00:00:01";
              pi_buffer_id := OFP_NO_BUFFER; pi_data := "pong" |}).
  vm_compute. discriminate.
Defined.

(** ** Ground truth of the real-time synchronizer *)

(** X25. The ground truth is written once: after a first capture that
    completes, both globals are set, a global that was set before keeps
    its value, and no later capture changes them, whatever the network
    then reports. *)
Theorem ground_truth_written_once (gl gl' : Globals)
    (links : list RawLink) (hosts : list pyval) :
  capture_ground_truth gl links hosts = Ok gl' →
  initial_switch_links gl'
    = Some (default (deduplicate_links links) (initial_switch_links gl))
  ∧ (∀ m, initial_host_mapping gl = Some m → initial_host_mapping gl' = Some m)
  ∧ (∀ links' hosts', capture_ground_truth gl' links' hosts' = Ok gl').
Proof.
  unfold capture_ground_truth. intros Hcap.
  assert (∃ m, gl' = {| initial_host_mapping := Some m;
                        initial_switch_links :=
                          Some (default (deduplicate_links links)
                                        (initial_switch_links gl)) |}
               ∧ (∀ m0, initial_host_mapping gl = Some m0 → m = m0)) as (m & -> & Hm).
  { destruct (initial_host_mapping gl) as [m0|]; simpl in Hcap.
    - exists m0. split; [|by intros ? [= ->]].
      injection Hcap as <-. by destruct (initial_switch_links gl).
    - destruct (initialize_host_mapping _ hosts) as [m|e]; simpl in Hcap; [|done].
      exists m. split; [|done].
      injection Hcap as <-. by destruct (initial_switch_links gl). }
  simpl. split; [done|]. split; [|done].
  intros m0 Hm0. by rewrite (Hm m0 Hm0).
Qed.

Lemma ground_truth_written_once_witness :
  let gl' := {| initial_host_mapping := Some [];
                initial_switch_links := Some [((1, 1), (2, 1))] |} in
  initial_switch_links gl'
    = Some (default (deduplicate_links [raw_link 1 1 2 1; raw_link 2 1 1 1]) None)
  ∧ (∀ m, None = Some m → initial_host_mapping gl' = Some m)
  ∧ (∀ links' hosts', capture_ground_truth gl' links' hosts' = Ok gl').
Proof.
  intros gl'.
  apply (ground_truth_written_once
           {| initial_host_mapping := None; initial_switch_links := None |}
           gl' [raw_link 1 1 2 1; raw_link 2 1 1 1] []).
  vm_compute. reflexivity.
Defined.

(** X26. After a real-time session whose first capture completed, a
    snapshot capture always completes, and what it saves as host links
    is the mapping of that session: the hosts fetched at capture time
    are not looked at. *)
Theorem snapshot_after_real_time (gl gl' : Globals)
    (links : list RawLink) (hosts : list pyval)
    (switches : list Z) (links' : list RawLink) (hosts' : list pyval) (f : file) :
  capture_ground_truth gl links hosts = Ok gl' →
  ∃ m, initial_host_mapping gl' = Some m
    ∧ capture_snapshot (initial_host_mapping gl') switches links' hosts' f
      = Ok (Some m,
            json_dump (PDict [("switches", PList (PInt <$> switches));
                              ("links", PList (py_of_canon_link <$> deduplicate_links links'));
                              ("host_links", PList (py_of_host_link <$> m))]),
            [SnapshotSaved]).
Proof.
  unfold capture_ground_truth. intros Hcap.
  assert (∃ m, initial_host_mapping gl' = Some m) as [m Hm].
  { destruct (match initial_host_mapping gl with
              | Some m => _ | None => _ end) as [m|e]; simpl in Hcap; [|done].
    injection Hcap as <-. by eexists. }
  exists m. split; [done|]. by rewrite Hm.
Qed.

Lemma snapshot_after_real_time_witness :
  ∃ m, Some [] = Some m
    ∧ capture_snapshot (Some []) [1; 2] [raw_link 1 1 2 1]
        [py_host "00:00:00:00:00:01" (PStr "1") (PStr "3")] NoFile
      = Ok (Some m,
            json_dump (PDict [("switches", PList (PInt <$> [1; 2]));
                              ("links", PList (py_of_canon_link
                                                 <$> deduplicate_links [raw_link 1 1 2 1]));
                              ("host_links", PList (py_of_host_link <$> m))]),
            [SnapshotSaved]).
Proof.
  apply (snapshot_after_real_time
           {| initial_host_mapping := None; initial_switch_links := None |}
           {| initial_host_mapping := Some [];
              initial_switch_links := Some [((1, 1), (2, 1))] |}
           [raw_link 1 1 2 1] [] [1; 2] [raw_link 1 1 2 1]
           [py_host "00:00:00:00:00:01" (PStr "1") (PStr "3")] NoFile).
  vm_compute. reflexivity.
Defined.

(** ** The host list of a replay *)

Lemma all_hosts_loop (switches : list node) : ∀ acc,
  NoDup acc →
  NoDup (foldl all_hosts_step acc switches)
  ∧ ∀ s, s ∈ foldl all_hosts_step acc switches
         ↔ s ∈ acc ∨ (NStr s ∈ switches ∧ startswith_h s = true).
Proof.
  induction switches as [|n switches IH]; intros acc Hacc; simpl.
  { split; [done|]. intros s. rewrite elem_of_nil. tauto. }
  assert (NoDup (all_hosts_step acc n)
          ∧ ∀ s, s ∈ all_hosts_step acc n
                 ↔ s ∈ acc ∨ (NStr s = n ∧ startswith_h s = true)) as [Hnd Hstep].
  { destruct n as [z|name]; simpl.
    { split; [done|]. intros s. split; [by left|]. by intros [?|[[=] _]]. }
    destruct (startswith_h name) eqn:Hh; simpl.
    2:{ split; [done|]. intros s. split; [by left|].
        intros [?|[[= ->] Hs]]; [done|congruence]. }
    destruct (bool_decide_reflect (name ∈ acc)) as [Hin|Hin]; simpl.
    - split; [done|]. intros s. split; [by left|].
      intros [?|[[= ->] _]]; done.
    - split.
      + apply NoDup_app. repeat split; [done| |apply NoDup_singleton].
        intros x Hx ->%list_elem_of_singleton. done.
      + intros s. rewrite elem_of_app, list_elem_of_singleton. naive_solver. }
  destruct (IH _ Hnd) as [Hnd' Hall]. split; [done|].
  intros s. rewrite Hall, Hstep, elem_of_cons. naive_solver.
Qed.

(** X27. The host list a replay starts with has no duplicate and holds
    exactly the host names of the loaded host links and the entries of
    the switch list that are strings starting with [h]. *)
Theorem initial_all_hosts_exact (switches : list node) (host_links : list HostLink) :
  NoDup (initial_all_hosts switches host_links)
  ∧ ∀ s, s ∈ initial_all_hosts switches host_links
         ↔ (∃ hl, hl ∈ host_links ∧ host_name hl = s)
           ∨ (NStr s ∈ switches ∧ startswith_h s = true).
Proof.
  unfold initial_all_hosts.
  destruct (all_hosts_loop switches
              (py_sorted String.ltb
                 (elements (list_to_set (host_name <$> host_links) : gset string))))
    as [Hnd Hall].
  { rewrite py_sorted_perm. apply NoDup_elements. }
  split; [done|]. intros s.
  rewrite Hall, elem_of_py_sorted, elem_of_elements, elem_of_list_to_set,
    list_elem_of_fmap.
  naive_solver.
Qed.
